(** * Helios rate limiter: decision engines, manager and gateway

    A shallow embedding of the Go packages [internal/limiter] (token
    bucket, basic limiter, sliding window, local manager),
    [internal/store] (the scripted token bucket and sliding window),
    [internal/gateway] (the [/allow] and [/quota] handlers) and
    [internal/control] (the tenant handlers), each in a module named
    after the package, followed by the notions the statements use and
    by the properties established about the embedding.

    Conventions of the embedding.
    - [int64] values are integers of [Z]; operations that can leave the
      64-bit range are written with [wrap64] (two's complement) or
      [sat64] (saturation, as [time.Time.Sub] does).
    - [time.Time] is an instant in nanoseconds, [time.Duration] a number
      of nanoseconds; [time.Now()] is an explicit argument [now] of every
      operation that reads the clock.
    - [float64] values are exact rationals of [Q]: the arithmetic of the
      algorithms is kept (sums, products, quotients, comparisons, the
      truncating conversion to [int64]) but binary64 rounding is not
      modelled.
    - A Go [map[string]*T] is a [gmap string T]; writing through the
      pointer stored in the map is an insertion at the same key.
    - Engines are objects shared by reference: they live in a heap
      ([gmap nat Limiter]) and the manager hands out their address.
    - The numbers of the Lua scripts are integers of [Z] (rationals for
      the tokens); a Redis key holds a hash or a sorted set, and the
      time to live set by [EXPIRE] is recorded, not enacted.
    - The JSON encoder and decoders of the control plane are parameters
      of its handlers; etcd is a [gmap] from keys to JSON texts. *)

From Stdlib Require Import ZArith QArith Qround Lia Lqa Ascii String Sorted.
From stdpp Require Import base option list sorting gmap strings.

Local Open Scope Z_scope.

(** ** Machine integers *)

Module int64.

Definition min_int64 : Z := - 2 ^ 63.
Definition max_int64 : Z := 2 ^ 63 - 1.

Definition in_range (z : Z) : Prop := min_int64 <= z <= max_int64.

Definition in_rangeb (z : Z) : bool := (min_int64 <=? z) && (z <=? max_int64).

(** Two's complement wrap-around of an integer operation. *)
Definition wrap64 (z : Z) : Z := (z + 2 ^ 63) mod 2 ^ 64 - 2 ^ 63.

(** Saturation at the ends of the range. *)
Definition sat64 (z : Z) : Z :=
  if z <? min_int64 then min_int64
  else if max_int64 <? z then max_int64
  else z.

End int64.

(** ** float64, idealised *)

Module float64.

Definition float64 : Type := Q.

(** [float64(z)] for an integer [z]. *)
Definition of_int (z : Z) : float64 := inject_Z z.

Definition ltb (a b : float64) : bool := negb (Qle_bool b a).
Definition geb (a b : float64) : bool := Qle_bool b a.

(** The fraction is discarded (truncation toward zero). *)
Definition trunc (x : float64) : Z := Z.quot (Qnum x) (Z.pos (Qden x)).

(** [int64(x)]: out of range the result is the one amd64 produces. *)
Definition to_int64 (x : float64) : Z :=
  let z := trunc x in
  if int64.in_rangeb z then z else int64.min_int64.

End float64.

(** ** Package time *)

Module time.

Definition Duration : Type := Z.
Definition Time : Type := Z.

Definition Nanosecond : Duration := 1.
Definition Second : Duration := 1000000000.
Definition Minute : Duration := 60 * Second.

(** [d.Seconds()]: whole seconds plus the nanoseconds over 1e9. *)
Definition Seconds (d : Duration) : float64.float64 :=
  (float64.of_int (Z.quot d Second)
   + float64.of_int (Z.rem d Second) / float64.of_int Second)%Q.

Definition Add (t : Time) (d : Duration) : Time := t + d.

(** [t.Sub(u)] saturates at the largest and smallest duration. *)
Definition Sub (t u : Time) : Duration := int64.sat64 (t - u).

Definition After (t u : Time) : bool := u <? t.

(** [t.Unix()]: seconds since the epoch, rounded down. *)
Definition Unix (t : Time) : Z := t / Second.

(** [time.Duration(x)] for a float64 [x]. *)
Definition Duration_of_float (x : float64.float64) : Duration :=
  float64.to_int64 x.

(** Product of two durations, an [int64] multiplication. *)
Definition mul (a b : Duration) : Duration := int64.wrap64 (a * b).

End time.

(** ** Package limiter *)

Module limiter.

Import float64 time.

Inductive Algorithm : Type :=
  | AlgoTokenBucket
  | AlgoSlidingWindow.

Record Config : Type := mkConfig {
  Limit : Z;
  Burst : Z;
  Window : Duration;
  Algorithm_ : Algorithm
}.

(** [Result]; its fields [Limit] and the configuration's [Algorithm]
    carry a trailing underscore, their plain names being taken. *)
Record Result : Type := mkResult {
  Allowed : bool;
  Remaining : Z;
  Limit_ : Z;
  ResetTime : Time;
  RetryAfterSeconds : Z
}.

(** The [error] values an engine can return. *)
Inductive error : Type :=
  | StoreError (msg : string).

(** What [Allow] and [GetQuota] return: a result pointer and an error,
    [None] being [nil]. *)
Definition Reply : Type := (option Result * option error)%type.

(** The defaults every engine applies to its configuration. *)
Definition window_of (cfg : Config) : Duration :=
  if Window cfg <=? 0 then Minute else Window cfg.

Definition limit_of (cfg : Config) : Z :=
  if Limit cfg <=? 0 then 100 else Limit cfg.

Definition burst_of (cfg : Config) : Z :=
  if Burst cfg <=? 0 then limit_of cfg else Burst cfg.

Definition refillPerSec (cfg : Config) : float64 :=
  (of_int (limit_of cfg) / Seconds (window_of cfg))%Q.

(** *** Token bucket *)

Record tokenBucket : Type := mkBucket {
  tokens : float64;
  lastRefill : Time
}.

Record TokenBucketLimiter : Type := mkTB {
  tb_cfg : Config;
  tb_state : gmap string tokenBucket
}.

Definition min (a b : float64) : float64 := if ltb a b then a else b.

(** The bucket found under [key], or the fresh one the engine stores
    there. *)
Definition bucket_at (cfg : Config) (state : gmap string tokenBucket)
    (now : Time) (key : string) : tokenBucket :=
  match state !! key with
  | Some b => b
  | None => {| tokens := of_int (burst_of cfg); lastRefill := now |}
  end.

(** "Refill tokens based on elapsed time". *)
Definition refill (cfg : Config) (b : tokenBucket) (now : Time) : tokenBucket :=
  let elapsed := Seconds (Sub now (lastRefill b)) in
  {| tokens := min (of_int (burst_of cfg))
                   (tokens b + elapsed * refillPerSec cfg)%Q;
     lastRefill := now |}.

Definition TokenBucketLimiter_Allow (t : TokenBucketLimiter) (now : Time)
    (key : string) (cost : Z) : Reply * TokenBucketLimiter :=
  let cfg := tb_cfg t in
  let limit := limit_of cfg in
  let bucket := refill cfg (bucket_at cfg (tb_state t) now key) now in
  let costFloat := of_int cost in
  let allowed := geb (tokens bucket) costFloat in
  let bucket :=
    if allowed
    then {| tokens := (tokens bucket - costFloat)%Q;
            lastRefill := lastRefill bucket |}
    else bucket in
  let remaining := to_int64 (tokens bucket) in
  let resetTime :=
    Add now (mul (Duration_of_float
                    ((costFloat - tokens bucket) / refillPerSec cfg)%Q)
                 Second) in
  let result :=
    {| Allowed := allowed;
       Remaining := remaining;
       Limit_ := limit;
       ResetTime := resetTime;
       RetryAfterSeconds :=
         if allowed then 0 else to_int64 (Seconds (Sub resetTime now)) |} in
  ((Some result, None),
   {| tb_cfg := cfg; tb_state := <[key := bucket]> (tb_state t) |}).

Definition TokenBucketLimiter_GetQuota (t : TokenBucketLimiter) (now : Time)
    (key : string) : Reply * TokenBucketLimiter :=
  let cfg := tb_cfg t in
  let limit := limit_of cfg in
  let bucket := refill cfg (bucket_at cfg (tb_state t) now key) now in
  let remaining := to_int64 (tokens bucket) in
  let resetTime :=
    Add now (mul (Duration_of_float
                    ((of_int limit - tokens bucket) / refillPerSec cfg)%Q)
                 Second) in
  ((Some {| Allowed := true;
            Remaining := remaining;
            Limit_ := limit;
            ResetTime := resetTime;
            RetryAfterSeconds := 0 |}, None),
   {| tb_cfg := cfg; tb_state := <[key := bucket]> (tb_state t) |}).

(** *** Basic limiter: "simple token-bucket per tenant, in-memory" *)

Record bucket : Type := mkBkt {
  bkt_tokens : float64;
  bkt_lastRefill : Time
}.

Record basicLimiter : Type := mkBasic {
  bl_cfg : Config;
  bl_state : gmap string bucket
}.

Definition minFloat (a b : float64) : float64 := if ltb a b then a else b.

Definition tenant_of (key : string) : string :=
  if String.eqb key "" then "default"%string else key.

Definition bkt_at (cfg : Config) (state : gmap string bucket)
    (now : Time) (tenant : string) : bucket :=
  match state !! tenant with
  | Some b => b
  | None => {| bkt_tokens := of_int (burst_of cfg); bkt_lastRefill := now |}
  end.

Definition bkt_refill (cfg : Config) (b : bucket) (now : Time) : bucket :=
  let elapsed := Seconds (Sub now (bkt_lastRefill b)) in
  {| bkt_tokens := minFloat (of_int (burst_of cfg))
                            (bkt_tokens b + elapsed * refillPerSec cfg)%Q;
     bkt_lastRefill := now |}.

Definition basicLimiter_Allow (b : basicLimiter) (now : Time)
    (key : string) (cost : Z) : Reply * basicLimiter :=
  let tenant := tenant_of key in
  let cfg := bl_cfg b in
  let limit := limit_of cfg in
  let bkt := bkt_refill cfg (bkt_at cfg (bl_state b) now tenant) now in
  let need := of_int cost in
  let allowed := geb (bkt_tokens bkt) need in
  let bkt :=
    if allowed
    then {| bkt_tokens := (bkt_tokens bkt - need)%Q;
            bkt_lastRefill := bkt_lastRefill bkt |}
    else bkt in
  let remaining := to_int64 (bkt_tokens bkt) in
  let reset :=
    Add now (mul (Duration_of_float
                    ((of_int limit - bkt_tokens bkt) / refillPerSec cfg)%Q)
                 Second) in
  let result :=
    {| Allowed := allowed;
       Remaining := remaining;
       Limit_ := limit;
       ResetTime := reset;
       RetryAfterSeconds :=
         if allowed then 0 else to_int64 (Seconds (Sub reset now)) |} in
  ((Some result, None),
   {| bl_cfg := cfg; bl_state := <[tenant := bkt]> (bl_state b) |}).

Definition basicLimiter_GetQuota (b : basicLimiter) (now : Time)
    (key : string) : Reply * basicLimiter :=
  let tenant := tenant_of key in
  let cfg := bl_cfg b in
  let limit := limit_of cfg in
  let bkt := bkt_refill cfg (bkt_at cfg (bl_state b) now tenant) now in
  let remaining := to_int64 (bkt_tokens bkt) in
  let reset :=
    Add now (mul (Duration_of_float
                    ((of_int limit - bkt_tokens bkt) / refillPerSec cfg)%Q)
                 Second) in
  ((Some {| Allowed := true;
            Remaining := remaining;
            Limit_ := limit;
            ResetTime := reset;
            RetryAfterSeconds := 0 |}, None),
   {| bl_cfg := cfg; bl_state := <[tenant := bkt]> (bl_state b) |}).

(** *** Sliding window *)

Record slidingWindow : Type := mkWindow {
  requests : list Time
}.

Record SlidingWindowLimiter : Type := mkSW {
  sw_cfg : Config;
  sw_windows : gmap string slidingWindow
}.

Definition maxInt64 (a b : Z) : Z := if b <? a then a else b.

(** "Remove expired requests": the requests strictly after
    [windowStart], in their order. *)
Definition validRequests (windowStart : Time) (reqs : list Time) : list Time :=
  List.filter (fun reqTime => After reqTime windowStart) reqs.

Definition window_at (windows : gmap string slidingWindow) (key : string)
    : slidingWindow :=
  match windows !! key with
  | Some w => w
  | None => {| requests := [] |}
  end.

Definition SlidingWindowLimiter_Allow (s : SlidingWindowLimiter) (now : Time)
    (key : string) (cost : Z) : Reply * SlidingWindowLimiter :=
  let cfg := sw_cfg s in
  let window := window_of cfg in
  let limit := limit_of cfg in
  let windowStart := Add now (- window) in
  let w := window_at (sw_windows s) key in
  let reqs := validRequests windowStart (requests w) in
  let currentCount := Z.of_nat (length reqs) in
  if limit <? int64.wrap64 (currentCount + cost) then
    let resetTime :=
      match reqs with
      | [] => Add now window
      | oldest :: _ => Add oldest window
      end in
    let remaining := maxInt64 0 (limit - currentCount) in
    let retryAfter := to_int64 (Seconds (Sub resetTime now)) in
    ((Some {| Allowed := false;
              Remaining := remaining;
              Limit_ := limit;
              ResetTime := resetTime;
              RetryAfterSeconds := retryAfter |}, None),
     {| sw_cfg := cfg;
        sw_windows := <[key := {| requests := reqs |}]> (sw_windows s) |})
  else
    let reqs' := reqs ++ replicate (Z.to_nat cost) now in
    let remaining := int64.wrap64 (limit - currentCount - cost) in
    let resetTime := Add now window in
    ((Some {| Allowed := true;
              Remaining := remaining;
              Limit_ := limit;
              ResetTime := resetTime;
              RetryAfterSeconds := 0 |}, None),
     {| sw_cfg := cfg;
        sw_windows := <[key := {| requests := reqs' |}]> (sw_windows s) |}).

Definition SlidingWindowLimiter_GetQuota (s : SlidingWindowLimiter)
    (now : Time) (key : string) : Reply * SlidingWindowLimiter :=
  let cfg := sw_cfg s in
  let window := window_of cfg in
  let limit := limit_of cfg in
  let windowStart := Add now (- window) in
  match sw_windows s !! key with
  | None =>
    ((Some {| Allowed := true;
              Remaining := limit;
              Limit_ := limit;
              ResetTime := Add now window;
              RetryAfterSeconds := 0 |}, None), s)
  | Some w =>
    let reqs := validRequests windowStart (requests w) in
    let currentCount := Z.of_nat (length reqs) in
    ((Some {| Allowed := true;
              Remaining := limit - currentCount;
              Limit_ := limit;
              ResetTime := Add now window;
              RetryAfterSeconds := 0 |}, None),
     {| sw_cfg := cfg;
        sw_windows := <[key := {| requests := reqs |}]> (sw_windows s) |})
  end.

(** *** The Limiter interface and the local manager *)

(** The engines implementing [Limiter]. *)
Inductive Limiter : Type :=
  | TokenBucket (t : TokenBucketLimiter)
  | SlidingWindow (s : SlidingWindowLimiter)
  | Basic (b : basicLimiter).

Definition Allow (l : Limiter) (now : Time) (key : string) (cost : Z)
    : Reply * Limiter :=
  match l with
  | TokenBucket t =>
    let '(r, t') := TokenBucketLimiter_Allow t now key cost in (r, TokenBucket t')
  | SlidingWindow s =>
    let '(r, s') := SlidingWindowLimiter_Allow s now key cost in (r, SlidingWindow s')
  | Basic b =>
    let '(r, b') := basicLimiter_Allow b now key cost in (r, Basic b')
  end.

Definition GetQuota (l : Limiter) (now : Time) (key : string)
    : Reply * Limiter :=
  match l with
  | TokenBucket t =>
    let '(r, t') := TokenBucketLimiter_GetQuota t now key in (r, TokenBucket t')
  | SlidingWindow s =>
    let '(r, s') := SlidingWindowLimiter_GetQuota s now key in (r, SlidingWindow s')
  | Basic b =>
    let '(r, b') := basicLimiter_GetQuota b now key in (r, Basic b')
  end.

Definition NewTokenBucketLimiter (cfg : Config) : Limiter :=
  TokenBucket {| tb_cfg := cfg; tb_state := ∅ |}.

Definition NewSlidingWindowLimiter (cfg : Config) : Limiter :=
  SlidingWindow {| sw_cfg := cfg; sw_windows := ∅ |}.

Definition NewBasicLimiter (cfg : Config) : Limiter :=
  Basic {| bl_cfg := cfg; bl_state := ∅ |}.

(** The heap of engine objects, and the address of one of them. *)
Definition ptr : Type := nat.
Definition Heap : Type := gmap nat Limiter.

Definition alloc (h : Heap) (l : Limiter) : ptr * Heap :=
  let p := fresh (dom h) in (p, <[p := l]> h).

(** [LocalManager] "hands out one limiter config for now". *)
Record LocalManager : Type := mkManager {
  mgr_limiter : ptr;
  mgr_cfg : Config
}.

Definition NewLocalManager (defaultCfg : Config) (h : Heap)
    : LocalManager * Heap :=
  let limiter :=
    match Algorithm_ defaultCfg with
    | AlgoSlidingWindow => NewSlidingWindowLimiter defaultCfg
    | _ => NewTokenBucketLimiter defaultCfg
    end in
  let '(p, h') := alloc h limiter in
  ({| mgr_cfg := defaultCfg; mgr_limiter := p |}, h').

Definition ForTenant (m : LocalManager) (tenant : string) : ptr :=
  mgr_limiter m.

Definition GetLimiter (m : LocalManager) (tenant resource : string)
    : ptr * option error :=
  (mgr_limiter m, None).

End limiter.

(** ** Package store *)

Module store.

Import float64 time.

(** The client the gateway is built against: "Nop (stub) store used in
    FAST mode when Redis is not compiled in". *)
Record Client : Type := mkClient { }.

Definition NewClientFromEnv : Client * option limiter.error :=
  (mkClient, None).

Definition Close (c : Client) : option limiter.error := None.
Definition Ping (c : Client) : option limiter.error := None.

(** *** The scripted token bucket of the Redis client *)

(** The hash stored under a key: its two fields and the expiry set by
    [EXPIRE], in seconds. *)
Record hash : Type := mkHash {
  h_tokens : float64;
  h_last_refill : Z;
  h_expire : Z
}.

Definition Redis : Type := gmap string hash.

(** The Lua script of [TokenBucketAllow], run atomically on [db]; [now]
    is in milliseconds, [window] in seconds. The reply is the three
    numbers of the returned table, converted to integers. *)
Definition token_bucket_script (db : gmap string hash) (key : string)
    (now limit window cost burst : Z) : (Z * Z * Z) * gmap string hash :=
  let tokens :=
    match db !! key with Some h => h_tokens h | None => of_int burst end in
  let last_refill :=
    match db !! key with Some h => h_last_refill h | None => now end in
  let elapsed := (of_int (now - last_refill) / of_int 1000)%Q in
  let tokens_to_add := (elapsed * of_int limit / of_int window)%Q in
  let tokens := limiter.min (tokens + tokens_to_add)%Q (of_int burst) in
  if geb tokens (of_int cost) then
    let tokens := (tokens - of_int cost)%Q in
    let db' := <[key := {| h_tokens := tokens; h_last_refill := now;
                           h_expire := window * 2 |}]> db in
    ((1, trunc tokens, now + window * 1000), db')
  else
    let db' := <[key := {| h_tokens := tokens; h_last_refill := now;
                           h_expire := window * 2 |}]> db in
    let tokens_needed := (of_int cost - tokens)%Q in
    let retry_after := Qceiling (tokens_needed * of_int window / of_int limit) in
    ((0, trunc tokens, now + retry_after * 1000), db').

Definition UnixMilli (ms : Z) : Time := ms * 1000000.

(** The zero [time.Time], January 1 of year 1. *)
Definition zeroTime : Time := - 62135596800 * Second.

(** [TokenBucketAllow]: [now] is the caller's wall clock in milliseconds;
    [up] tells whether the evaluation reaches the server. *)
Definition TokenBucketAllow (up : bool) (db : gmap string hash) (now : Z)
    (key : string) (limit windowSec cost burst : Z)
    : (bool * Z * Time * option limiter.error) * gmap string hash :=
  if up then
    let '((a, remaining, resetTimeMs), db') :=
      token_bucket_script db key now limit windowSec cost burst in
    ((a =? 1, remaining, UnixMilli resetTimeMs, None), db')
  else
    ((false, 0, zeroTime,
      Some (limiter.StoreError "redis token bucket eval")), db).

(** *** The scripted sliding window of the Redis client *)

(** A member of the sorted set: the script names it [now .. ':' .. i],
    which identifies the pair of numbers. *)
Definition member : Type := (Z * Z)%type.

(** The sorted set stored under a key: the score of each member, and
    the time to live set by [EXPIRE], in seconds, if any. A sorted set
    that loses its last member is deleted with its key. *)
Record zset : Type := mkZset {
  z_scores : gmap member Z;
  z_expire : option Z
}.

Definition zmembers (db : gmap string zset) (key : string) : gmap member Z :=
  match db !! key with
  | Some z => z_scores z
  | None => ∅
  end.

Definition zttl (db : gmap string zset) (key : string) : option Z :=
  match db !! key with
  | Some z => z_expire z
  | None => None
  end.

(** [ZREMRANGEBYSCORE key lo hi] *)
Definition ZREMRANGEBYSCORE (db : gmap string zset) (key : string)
    (lo hi : Z) : gmap string zset :=
  match db !! key with
  | Some z =>
    let m := filter (λ kv, ¬ (lo <= kv.2 <= hi)) (z_scores z) in
    if decide (m = ∅) then delete key db
    else <[key := {| z_scores := m; z_expire := z_expire z |}]> db
  | None => db
  end.

(** [ZCARD key] *)
Definition ZCARD (db : gmap string zset) (key : string) : Z :=
  Z.of_nat (size (zmembers db key)).

(** [ZADD key score member] *)
Definition ZADD (db : gmap string zset) (key : string) (score : Z)
    (m : member) : gmap string zset :=
  <[key := {| z_scores := <[m := score]> (zmembers db key);
              z_expire := zttl db key |}]> db.

(** [EXPIRE key seconds]: nothing on a key that does not exist; a time
    to live that is not positive deletes the key. *)
Definition EXPIRE (db : gmap string zset) (key : string) (seconds : Z)
    : gmap string zset :=
  match db !! key with
  | Some z =>
    if seconds <=? 0 then delete key db
    else <[key := {| z_scores := z_scores z; z_expire := Some seconds |}]> db
  | None => db
  end.

(** The score [ZRANGE key 0 0 WITHSCORES] returns: the lowest one. *)
Definition oldest_score (m : gmap member Z) : option Z :=
  map_fold (λ _ sc acc,
              Some (match acc with Some a => Z.min a sc | None => sc end))
           None m.

(** The Lua script of [SlidingWindowAllow], run atomically on [db];
    [now] is in milliseconds, [window] in seconds. *)
Definition sliding_window_script (db : gmap string zset) (key : string)
    (now limit window cost : Z) : (Z * Z * Z) * gmap string zset :=
  let window_start := now - window * 1000 in
  let db := ZREMRANGEBYSCORE db key 0 window_start in
  let current_count := ZCARD db key in
  if current_count + cost <=? limit then
    let db := foldl (λ db i, ZADD db key now (now, i)) db (seqZ 1 cost) in
    let db := EXPIRE db key window in
    let remaining := limit - current_count - cost in
    ((1, remaining, now + window * 1000), db)
  else
    let retry_time :=
      match oldest_score (zmembers db key) with
      | Some score => score + window * 1000
      | None => now + window * 1000
      end in
    let remaining := Z.max 0 (limit - current_count) in
    ((0, remaining, retry_time), db).

(** [SlidingWindowAllow]: [now] is the caller's wall clock in
    milliseconds; [up] tells whether the evaluation reaches the server. *)
Definition SlidingWindowAllow (up : bool) (db : gmap string zset) (now : Z)
    (key : string) (limit windowSec cost : Z)
    : (bool * Z * Time * option limiter.error) * gmap string zset :=
  if up then
    let '((a, remaining, resetTimeMs), db') :=
      sliding_window_script db key now limit windowSec cost in
    ((a =? 1, remaining, UnixMilli resetTimeMs, None), db')
  else
    ((false, 0, zeroTime,
      Some (limiter.StoreError "redis sliding window eval")), db).

End store.

(** ** Package gateway *)

Module gateway.

Import float64 time limiter.

Definition StatusOK : Z := 200.
Definition StatusBadRequest : Z := 400.
Definition StatusUnauthorized : Z := 401.
Definition StatusForbidden : Z := 403.
Definition StatusTooManyRequests : Z := 429.
Definition StatusInternalServerError : Z := 500.

Record GatewayConfig : Type := mkGatewayConfig {
  ConsistencyMode : string
}.

Record Server : Type := mkServer {
  config : GatewayConfig;
  limiterMgr : LocalManager;
  redisStore : option store.Client
}.

(** What the handlers read and write outside the [Server] value: the
    engine objects, the process-wide request counters, and whether the
    shared store can be reached. *)
Record World : Type := mkWorld {
  heap : gmap nat Limiter;
  reqTotal : Z;
  reqAllowed : Z;
  reqDenied : Z;
  store_up : bool
}.

(** [atomic.AddUint64(&x, 1)] *)
Definition AddUint64 (x : Z) : Z := (x + 1) mod 2 ^ 64.

(** The parts of a request the handlers look at; an absent query
    parameter or header is the empty string. *)
Record Request : Type := mkRequest {
  q_tenant : string;
  h_api_key : string;
  q_api_key : string;
  q_resource : string;
  q_cost : string
}.

Inductive HeaderValue : Type :=
  | HInt (n : Z)
  | HStr (s : string).

Inductive Body : Type :=
  | ErrorBody (error : string)
  | DeniedBody (retry_after_seconds : Z)
  | AllowedBody (remaining limit reset_time : Z)
  | QuotaBody (remaining limit reset_time : Z)
  | NoBody.

Record Response : Type := mkResponse {
  status : Z;
  headers : list (string * HeaderValue);
  body : Body
}.

Definition JSON (code : Z) (b : Body) : Response :=
  {| status := code; headers := []; body := b |}.

(** *** strconv.Atoi *)

Definition is_digit (c : ascii) : bool :=
  let n := Z.of_nat (nat_of_ascii c) in (48 <=? n) && (n <=? 57).

Definition digit_val (c : ascii) : Z := Z.of_nat (nat_of_ascii c) - 48.

Fixpoint digits (s : string) (acc : Z) : option Z :=
  match s with
  | EmptyString => Some acc
  | String c s' =>
    if is_digit c then digits s' (10 * acc + digit_val c) else None
  end.

Definition Atoi (s : string) : option Z :=
  match s with
  | EmptyString => None
  | String c rest =>
    let '(neg, body) :=
      if Ascii.eqb c "-" then (true, rest)
      else if Ascii.eqb c "+" then (false, rest)
      else (false, s) in
    match body with
    | EmptyString => None
    | _ =>
      match digits body 0 with
      | None => None
      | Some n =>
        let v := if neg : bool then - n else n in
        if int64.in_rangeb v then Some v else None
      end
    end
  end.

(** *** Handlers *)

(** "demo keys" *)
Definition valid_key (apiKey : string) : bool :=
  String.eqb apiKey "test-key" || String.eqb apiKey "demo-key"
  || String.eqb apiKey "admin-key".

(** [fmt.Sprintf("%s:%s:%s", tenant, resource, apiKey)] *)
Definition compose_key (tenant resource apiKey : string) : string :=
  (tenant ++ ":" ++ resource ++ ":" ++ apiKey)%string.

Definition api_key_of (req : Request) : string :=
  if String.eqb (h_api_key req) "" then q_api_key req else h_api_key req.

Definition resource_of (req : Request) : string :=
  if String.eqb (q_resource req) "" then "default"%string else q_resource req.

(** The cost of a request: 1 by default, [None] for "invalid cost
    parameter". *)
Definition parse_cost (costStr : string) : option Z :=
  if String.eqb costStr "" then Some 1
  else match Atoi costStr with
       | Some n => if 0 <? n then Some n else None
       | None => None
       end.

(** [handleAllow]; [now] is the clock read by the engine, [later] the
    clock read by [time.Until] when the denial is reported. *)
Definition handleAllow (s : Server) (w : World) (req : Request)
    (now later : Time) : Response * World :=
  let tenant := q_tenant req in
  if String.eqb tenant "" then
    (JSON StatusBadRequest (ErrorBody "tenant parameter is required"), w)
  else
  let apiKey := api_key_of req in
  if String.eqb apiKey "" then
    (JSON StatusUnauthorized (ErrorBody "API key required"), w)
  else
  if negb (valid_key apiKey) then
    (JSON StatusUnauthorized (ErrorBody "Invalid API key"), w)
  else
  let resource := resource_of req in
  match parse_cost (q_cost req) with
  | None => (JSON StatusBadRequest (ErrorBody "invalid cost parameter"), w)
  | Some cost =>
    let rl := ForTenant (limiterMgr s) tenant in
    let key := compose_key tenant resource apiKey in
    let total := AddUint64 (reqTotal w) in
    match heap w !! rl with
    | None =>
      (* nil dereference, recovered by the router *)
      (JSON StatusInternalServerError NoBody,
       {| heap := heap w; reqTotal := total; reqAllowed := reqAllowed w;
          reqDenied := reqDenied w; store_up := store_up w |})
    | Some l =>
      let '((res, err), l') := Allow l now key cost in
      let h' := <[rl := l']> (heap w) in
      match res with
      | None =>
        (JSON StatusInternalServerError NoBody,
         {| heap := h'; reqTotal := total; reqAllowed := reqAllowed w;
            reqDenied := reqDenied w; store_up := store_up w |})
      | Some res =>
        let w' :=
          if Allowed res
          then {| heap := h'; reqTotal := total;
                  reqAllowed := AddUint64 (reqAllowed w);
                  reqDenied := reqDenied w; store_up := store_up w |}
          else {| heap := h'; reqTotal := total;
                  reqAllowed := reqAllowed w;
                  reqDenied := AddUint64 (reqDenied w);
                  store_up := store_up w |} in
        match err with
        | Some _ =>
          (JSON StatusInternalServerError (ErrorBody "internal server error"), w')
        | None =>
          let hs :=
            [("X-RateLimit-Limit"%string, HInt (Limit_ res));
             ("X-RateLimit-Remaining"%string, HInt (Remaining res));
             ("X-RateLimit-Reset"%string, HInt (Unix (ResetTime res)));
             ("X-Helios-Mode"%string, HStr (ConsistencyMode (config s)))] in
          if negb (Allowed res) then
            let retryAfter := to_int64 (Seconds (Sub (ResetTime res) later)) in
            let retryAfter := if retryAfter <? 0 then 0 else retryAfter in
            ({| status := StatusTooManyRequests;
                headers := hs ++ [("Retry-After"%string, HInt retryAfter)];
                body := DeniedBody retryAfter |}, w')
          else
            ({| status := StatusOK;
                headers := hs;
                body := AllowedBody (Remaining res) (Limit_ res)
                                    (Unix (ResetTime res)) |}, w')
        end
      end
    end
  end.

(** [handleQuota]: "Get limiter and read current state (cost=0)". *)
Definition handleQuota (s : Server) (w : World) (req : Request)
    (now : Time) : Response * World :=
  let tenant := q_tenant req in
  if String.eqb tenant "" then
    (JSON StatusBadRequest (ErrorBody "tenant parameter is required"), w)
  else
  let apiKey := api_key_of req in
  if String.eqb apiKey "" then
    (JSON StatusUnauthorized (ErrorBody "API key required"), w)
  else
  if negb (valid_key apiKey) then
    (JSON StatusUnauthorized (ErrorBody "Invalid API key"), w)
  else
  let resource := resource_of req in
  let rl := ForTenant (limiterMgr s) tenant in
  let id := compose_key tenant resource apiKey in
  match heap w !! rl with
  | None => (JSON StatusInternalServerError NoBody, w)
  | Some l =>
    let '((res, err), l') := Allow l now id 0 in
    let w' := {| heap := <[rl := l']> (heap w); reqTotal := reqTotal w;
                 reqAllowed := reqAllowed w; reqDenied := reqDenied w;
                 store_up := store_up w |} in
    match err with
    | Some _ =>
      (JSON StatusInternalServerError (ErrorBody "internal server error"), w')
    | None =>
      match res with
      | None => (JSON StatusInternalServerError NoBody, w')
      | Some res =>
        (JSON StatusOK (QuotaBody (Remaining res) (Limit_ res)
                                  (Unix (ResetTime res))), w')
      end
    end
  end.

(** "Demo default policy." *)
Definition defaultPolicy : Config :=
  {| Limit := 100; Burst := 100; Window := Minute;
     Algorithm_ := AlgoTokenBucket |}.

Definition NewServer (cfg : GatewayConfig) (w : World)
    : (option Server * option error) * World :=
  let '(redisStore, err) :=
    if String.eqb (ConsistencyMode cfg) "strong" then
      let '(c, err) := store.NewClientFromEnv in
      match err with
      | Some e => (None, Some e)
      | None => (Some c, None)
      end
    else (None, None) in
  match err with
  | Some e => ((None, Some e), w)
  | None =>
    let '(limiterMgr, h') := NewLocalManager defaultPolicy (heap w) in
    ((Some {| config := cfg; limiterMgr := limiterMgr;
              redisStore := redisStore |}, None),
     {| heap := h'; reqTotal := reqTotal w; reqAllowed := reqAllowed w;
        reqDenied := reqDenied w; store_up := store_up w |})
  end.

End gateway.

(** ** Package control *)

Module control.

Import time.

Definition StatusOK : Z := 200.
Definition StatusCreated : Z := 201.
Definition StatusNoContent : Z := 204.
Definition StatusBadRequest : Z := 400.
Definition StatusNotFound : Z := 404.
Definition StatusInternalServerError : Z := 500.

Record Limit : Type := mkLimit {
  Limit_ : Z;
  Window : Duration;
  Burst : Z
}.

(** A [nil] map and a [nil] slice are [None]. *)
Record TenantConfig : Type := mkTenantConfig {
  TenantID : string;
  Limits : option (gmap string Limit);
  APIKeys : option (list string);
  Algorithm : string;
  Mode : string;
  Created : Time;
  Updated : Time
}.

Inductive Body (json : Type) : Type :=
  | BindError
  | ErrorBody (error : string)
  | TenantBody (tenant : TenantConfig)
  | TenantsBody (tenants : list TenantConfig) (count : Z)
  | NoBody.

Arguments BindError {json}.
Arguments ErrorBody {json} error.
Arguments TenantBody {json} tenant.
Arguments TenantsBody {json} tenants count.
Arguments NoBody {json}.

Record Response (json : Type) : Type := mkResponse {
  status : Z;
  body : Body json
}.

Arguments mkResponse {json} status body.
Arguments status {json} r.
Arguments body {json} r.

(** [fmt.Sprintf("/helios/tenants/%s", tenantID)] *)
Definition tenant_key (tenantID : string) : string :=
  ("/helios/tenants/" ++ tenantID)%string.

Section handlers.

(** The JSON texts, with the encoder of [json.Marshal], the decoder of
    [json.Unmarshal] and the binding of a request body by
    [ShouldBindJSON]. *)
Variable json : Type.
Variable Marshal : TenantConfig → option json.
Variable Unmarshal : json → option TenantConfig.
Variable ShouldBindJSON : json → option TenantConfig.

(** The key-value store of etcd is a [gmap string json]. Whether a call
    reaches it is an argument of the handler that makes the call. *)

Definition JSON (code : Z) (b : Body json) : Response json :=
  {| status := code; body := b |}.

(** [createTenant]; [now] is [time.Now().UTC()]. *)
Definition createTenant (etcd : gmap string json) (put_ok : bool) (now : Time)
    (request : json) : Response json * gmap string json :=
  match ShouldBindJSON request with
  | None => (JSON StatusBadRequest BindError, etcd)
  | Some tenantConfig =>
    let tenantConfig :=
      {| TenantID := TenantID tenantConfig;
         Limits :=
           match Limits tenantConfig with
           | None =>
             Some {[ "default"%string :=
                       {| Limit_ := 100; Window := Minute; Burst := 120 |} ]}
           | Some limits => Some limits
           end;
         APIKeys := APIKeys tenantConfig;
         Algorithm :=
           if String.eqb (Algorithm tenantConfig) ""
           then "token_bucket"%string else Algorithm tenantConfig;
         Mode :=
           if String.eqb (Mode tenantConfig) ""
           then "fast"%string else Mode tenantConfig;
         Created := now;
         Updated := now |} in
    let key := tenant_key (TenantID tenantConfig) in
    match Marshal tenantConfig with
    | None =>
      (JSON StatusInternalServerError (ErrorBody "failed to marshal config"),
       etcd)
    | Some data =>
      if put_ok then
        (JSON StatusCreated (TenantBody tenantConfig), <[key := data]> etcd)
      else
        (JSON StatusInternalServerError (ErrorBody "failed to store config"),
         etcd)
    end
  end.

Definition getTenant (etcd : gmap string json) (get_ok : bool) (tenantID : string)
    : Response json :=
  let key := tenant_key tenantID in
  if negb get_ok then
    JSON StatusInternalServerError (ErrorBody "failed to retrieve config")
  else
    match etcd !! key with
    | None => JSON StatusNotFound (ErrorBody "tenant not found")
    | Some value =>
      match Unmarshal value with
      | None =>
        JSON StatusInternalServerError (ErrorBody "failed to parse config")
      | Some tenantConfig => JSON StatusOK (TenantBody tenantConfig)
      end
    end.

(** [updateTenant]; [now] is [time.Now().UTC()]. *)
Definition updateTenant (etcd : gmap string json) (get_ok put_ok : bool) (now : Time)
    (tenantID : string) (request : json) : Response json * gmap string json :=
  match ShouldBindJSON request with
  | None => (JSON StatusBadRequest BindError, etcd)
  | Some updates =>
    let key := tenant_key tenantID in
    if negb get_ok then
      (JSON StatusInternalServerError (ErrorBody "failed to retrieve config"),
       etcd)
    else
      match etcd !! key with
      | None => (JSON StatusNotFound (ErrorBody "tenant not found"), etcd)
      | Some value =>
        match Unmarshal value with
        | None =>
          (JSON StatusInternalServerError
                (ErrorBody "failed to parse config"), etcd)
        | Some tenantConfig =>
          let tenantConfig :=
            {| TenantID := TenantID tenantConfig;
               Limits :=
                 match Limits updates with
                 | Some limits => Some limits
                 | None => Limits tenantConfig
                 end;
               APIKeys :=
                 match APIKeys updates with
                 | Some keys => Some keys
                 | None => APIKeys tenantConfig
                 end;
               Algorithm :=
                 if String.eqb (Algorithm updates) ""
                 then Algorithm tenantConfig else Algorithm updates;
               Mode :=
                 if String.eqb (Mode updates) ""
                 then Mode tenantConfig else Mode updates;
               Created := Created tenantConfig;
               Updated := now |} in
          match Marshal tenantConfig with
          | None =>
            (JSON StatusInternalServerError
                  (ErrorBody "failed to marshal config"), etcd)
          | Some data =>
            if put_ok then
              (JSON StatusOK (TenantBody tenantConfig), <[key := data]> etcd)
            else
              (JSON StatusInternalServerError
                    (ErrorBody "failed to update config"), etcd)
          end
        end
      end
  end.

Definition deleteTenant (etcd : gmap string json) (delete_ok : bool) (tenantID : string)
    : Response json * gmap string json :=
  let key := tenant_key tenantID in
  if delete_ok then (JSON StatusNoContent NoBody, delete key etcd)
  else
    (JSON StatusInternalServerError (ErrorBody "failed to delete config"),
     etcd).

(** [etcd.Get(ctx, prefix, clientv3.WithPrefix())]: the pairs whose key
    starts with the prefix, by ascending key. *)
Definition GetWithPrefix (etcd : gmap string json) (prefix : string)
    : list (string * json) :=
  merge_sort (λ a b : string * json, Is_true (String.leb a.1 b.1))
             (map_to_list (filter (λ kv, Is_true (String.prefix prefix kv.1))
                                  etcd)).

Definition listTenants (etcd : gmap string json) (get_ok : bool) : Response json :=
  let prefix := "/helios/tenants/"%string in
  if negb get_ok then
    JSON StatusInternalServerError (ErrorBody "failed to list tenants")
  else
    let tenants := omap (λ kv, Unmarshal kv.2) (GetWithPrefix etcd prefix) in
    JSON StatusOK (TenantsBody tenants (Z.of_nat (length tenants))).

End handlers.

End control.

(** * Properties *)

Import int64 float64 time limiter gateway.

(** ** Notions used in the statements *)

(** The algorithm and configuration an engine object was built with. *)
Definition engine_policy (l : Limiter) : Algorithm * Config :=
  match l with
  | TokenBucket t => (AlgoTokenBucket, tb_cfg t)
  | SlidingWindow s => (AlgoSlidingWindow, sw_cfg s)
  | Basic b => (AlgoTokenBucket, bl_cfg b)
  end.

(** What a handler may do to the heap: nothing, or replace the engine at
    address [p] by an engine of the same policy. *)
Definition heap_step (p : ptr) (h h' : gmap nat Limiter) : Prop :=
  h' = h ∨
  ∃ l l', h !! p = Some l ∧ h' = <[p := l']> h
          ∧ engine_policy l' = engine_policy l.

(** The server [NewServer] returns, for use at concrete requests. *)
Definition server_of (cfg : GatewayConfig) (w0 : World) : Server * World :=
  match NewServer cfg w0 with
  | ((Some s, _), w) => (s, w)
  | ((None, _), w) =>
    ({| config := cfg;
        limiterMgr := {| mgr_limiter := 0%nat; mgr_cfg := defaultPolicy |};
        redisStore := None |}, w)
  end.

Definition world0 (up : bool) : World :=
  {| heap := ∅; reqTotal := 0; reqAllowed := 0; reqDenied := 0;
     store_up := up |}.

(** A request for [tenant] with the credential in the header. *)
Definition request (tenant apiKey resource cost : string) : Request :=
  {| q_tenant := tenant; h_api_key := apiKey; q_api_key := "";
     q_resource := resource; q_cost := cost |}.

(** The Decision Key of a request, as a triple and as the identifier the
    handlers compose from it. *)
Definition decision_key (req : Request) : string * string * string :=
  (q_tenant req, resource_of req, api_key_of req).

Definition key_of (req : Request) : string :=
  compose_key (q_tenant req) (resource_of req) (api_key_of req).

Fixpoint has_colon (s : string) : bool :=
  match s with
  | EmptyString => false
  | String c s' => Ascii.eqb c ":" || has_colon s'
  end.

(** The token bucket an engine holds for [key], if it is a token-bucket
    engine holding one. *)
Definition bucket_of (l : Limiter) (key : string) : option tokenBucket :=
  match l with
  | TokenBucket t => tb_state t !! key
  | _ => None
  end.

(** The bucket the gateway's engine holds for [key]. *)
Definition gateway_bucket (s : Server) (w : World) (key : string)
    : option tokenBucket :=
  match heap w !! mgr_limiter (limiterMgr s) with
  | Some l => bucket_of l key
  | None => None
  end.

(** The earliest event of a window, if it has one. *)
Definition min_event (l : list Time) : option Time :=
  match l with
  | [] => None
  | t :: l' => Some (fold_right Z.min t l')
  end.

(** Events recorded at successive readings of a clock that has now
    reached [now]: in order, none later than [now]. *)
Definition chronological (now : Time) (l : list Time) : Prop :=
  StronglySorted Z.le l ∧ Forall (λ t, t <= now) l.

(** The operations of the token-bucket engine on a key: [Allow] with a
    cost (the gateway's quota is [Allow] with cost 0) and [GetQuota]. *)
Inductive op : Type :=
  | OpAllow (key : string) (cost : Z)
  | OpQuota (key : string).

Definition op_key (o : op) : string :=
  match o with OpAllow key _ => key | OpQuota key => key end.

Definition op_cost (o : op) : Z :=
  match o with OpAllow _ cost => cost | OpQuota _ => 0 end.

Definition tb_step (t : TokenBucketLimiter) (now : Time) (o : op)
    : Reply * TokenBucketLimiter :=
  match o with
  | OpAllow key cost => TokenBucketLimiter_Allow t now key cost
  | OpQuota key => TokenBucketLimiter_GetQuota t now key
  end.

(** The engine after a sequence of operations, each with the clock
    reading it was served at. *)
Fixpoint tb_run (t : TokenBucketLimiter) (ops : list (Time * op))
    : TokenBucketLimiter :=
  match ops with
  | [] => t
  | (now, o) :: ops' => tb_run (snd (tb_step t now o)) ops'
  end.

(** The replies of the same sequence. *)
Fixpoint tb_replies (t : TokenBucketLimiter) (ops : list (Time * op))
    : list Reply :=
  match ops with
  | [] => []
  | (now, o) :: ops' =>
    fst (tb_step t now o) :: tb_replies (snd (tb_step t now o)) ops'
  end.

(** The clock after the sequence, having started at [now0]. *)
Fixpoint clock_after (now0 : Time) (ops : list (Time * op)) : Time :=
  match ops with
  | [] => now0
  | (now, _) :: ops' => clock_after now ops'
  end.

(** The readings of the clock never run backwards, from [now0] on. *)
Fixpoint clock_monotone (now0 : Time) (ops : list (Time * op)) : Prop :=
  match ops with
  | [] => True
  | (now, _) :: ops' => now0 <= now ∧ clock_monotone now ops'
  end.

(** [0 <= tokens <= burst], for the burst the engine applies. *)
Definition bucket_ok (cfg : Config) (b : tokenBucket) : Prop :=
  (0 <= tokens b)%Q ∧ (tokens b <= of_int (burst_of cfg))%Q.

(** Every bucket of the engine is within bounds and was refilled no
    later than [now]. *)
Definition tb_ok (t : TokenBucketLimiter) (now : Time) : Prop :=
  ∀ key b, tb_state t !! key = Some b →
    bucket_ok (tb_cfg t) b ∧ lastRefill b <= now.

(** The same for the hash the script keeps under a key. *)
Definition hash_ok (burst : Z) (now : Z) (h : store.hash) : Prop :=
  (0 <= store.h_tokens h)%Q ∧ (store.h_tokens h <= of_int burst)%Q
  ∧ store.h_last_refill h <= now.

(** The bucket [Allow] stores under the key. *)
Definition charged (b : tokenBucket) (cost : Z) : tokenBucket :=
  if geb (tokens b) (of_int cost)
  then {| tokens := (tokens b - of_int cost)%Q; lastRefill := lastRefill b |}
  else b.

(** *** The formulas of the specification

    Written from the words of the design, to be compared with what the
    engines compute: the burst ceiling [B = max(burst, limit)], the
    refill rate [r = limit / window_s], the time to a full refill
    [now + ceil((B - tokens) / r)] seconds, the wait of a denial
    [ceil((c - tokens) / r)] seconds and [ceil(reset_at - now)]. *)
Definition spec_B (cfg : Config) : Z := Z.max (Burst cfg) (Limit cfg).

Definition spec_r (cfg : Config) : Q :=
  (of_int (Limit cfg) / Seconds (Window cfg))%Q.

Definition spec_reset_at (cfg : Config) (now : Time) (tokens : Q) : Time :=
  now + Qceiling ((of_int (spec_B cfg) - tokens) / spec_r cfg) * Second.

Definition spec_retry_after (cfg : Config) (c : Z) (tokens : Q) : Z :=
  Qceiling ((of_int c - tokens) / spec_r cfg).

Definition spec_ceil_seconds (d : Duration) : Z := Qceiling (Seconds d).

(** *** Whole seconds *)

(** [x] seconds as a duration, the fraction of a second dropped. *)
Definition whole_seconds (x : Q) : Duration := trunc x * Second.

(** The seconds the refill needs to bring [tokens] up to [target]. *)
Definition seconds_to (cfg : Config) (target tokens : Q) : Q :=
  ((target - tokens) / refillPerSec cfg)%Q.

(** *** Notions of the further properties *)

(** The 64-bit fields of a configuration hold 64-bit values. *)
Definition Config_typed (cfg : Config) : Prop :=
  in_range (Limit cfg) ∧ in_range (Burst cfg) ∧ in_range (Window cfg).

(** Whether a reply carries an allowed result. *)
Definition reply_allowed (reply : Reply) : bool :=
  match fst reply with
  | Some r => Allowed r
  | None => false
  end.

(** The cost granted to [key] by a sequence of operations: the sum of
    the costs of its allowed [Allow]s. *)
Fixpoint tb_granted (t : TokenBucketLimiter) (key : string)
    (ops : list (Time * op)) : Z :=
  match ops with
  | [] => 0
  | (now, o) :: ops' =>
    (match o with
     | OpAllow k cost =>
       if String.eqb k key && reply_allowed (fst (tb_step t now o))
       then cost else 0
     | OpQuota _ => 0
     end)
    + tb_granted (snd (tb_step t now o)) key ops'
  end.

(** The configuration with the defaults of the engines filled in. *)
Definition normalized (cfg : Config) : Config :=
  {| Limit := limit_of cfg; Burst := burst_of cfg; Window := window_of cfg;
     Algorithm_ := Algorithm_ cfg |}.

(** The result [TokenBucketLimiter.Allow] returns when the refilled
    bucket holds [x] tokens. *)
Definition tb_result (cfg : Config) (now : Time) (cost : Z) (x : Q) : Result :=
  let allowed := geb x (of_int cost) in
  let left := if allowed then (x - of_int cost)%Q else x in
  let resetTime :=
    Add now (mul (Duration_of_float
                    ((of_int cost - left) / refillPerSec cfg)%Q) Second) in
  {| Allowed := allowed;
     Remaining := to_int64 left;
     Limit_ := limit_of cfg;
     ResetTime := resetTime;
     RetryAfterSeconds :=
       if allowed then 0 else to_int64 (Seconds (Sub resetTime now)) |}.

(** A bucket of [TokenBucketLimiter] and a bucket of [basicLimiter] with
    the same content, and states that correspond key by key. *)
Definition same_bucket (b : tokenBucket) (k : bucket) : Prop :=
  tokens b = bkt_tokens k ∧ lastRefill b = bkt_lastRefill k.

Definition same_buckets (st : gmap string tokenBucket)
    (sb : gmap string bucket) : Prop :=
  ∀ key, match st !! key, sb !! key with
         | Some b, Some k => same_bucket b k
         | None, None => True
         | _, _ => False
         end.

(** The tokens a bucket shows at [at_time], not before its stamp: the
    stored tokens plus the refill since the stamp, capped at the burst. *)
Definition virtual_tokens (cfg : Config) (b : tokenBucket) (at_time : Time)
    : Q :=
  limiter.min (of_int (burst_of cfg))
              (tokens b + Seconds (at_time - lastRefill b)%Z * refillPerSec cfg)%Q.

(** No window of the engine holds more events than the limit. *)
Definition within_limit (s : SlidingWindowLimiter) : Prop :=
  ∀ key w, sw_windows s !! key = Some w →
    Z.of_nat (length (requests w)) <= limit_of (sw_cfg s).

(** The calls the gateway serves, with the clock readings of the
    handler, and the world after a sequence of them. *)
Inductive call : Type :=
  | CallAllow (req : Request) (now later : Time)
  | CallQuota (req : Request) (now : Time).

Definition call_time (c : call) : Time :=
  match c with
  | CallAllow _ now _ => now
  | CallQuota _ now => now
  end.

Definition serve (s : Server) (w : World) (c : call) : Response * World :=
  match c with
  | CallAllow req now later => handleAllow s w req now later
  | CallQuota req now => handleQuota s w req now
  end.

Fixpoint serve_all (s : Server) (w : World) (cs : list call) : World :=
  match cs with
  | [] => w
  | c :: cs' => serve_all s (snd (serve s w c)) cs'
  end.

Fixpoint calls_monotone (now0 : Time) (cs : list call) : Prop :=
  match cs with
  | [] => True
  | c :: cs' => now0 <= call_time c ∧ calls_monotone (call_time c) cs'
  end.

Fixpoint last_call (now0 : Time) (cs : list call) : Time :=
  match cs with
  | [] => now0
  | c :: cs' => last_call (call_time c) cs'
  end.

(** Every request counted is counted as allowed or as denied (the
    counters are 64-bit and wrap around). *)
Definition counters_add_up (w : World) : Prop :=
  (reqAllowed w + reqDenied w) mod 2 ^ 64 = reqTotal w mod 2 ^ 64.

(** The engine of the gateway is a token bucket of the default policy
    whose buckets are within bounds at [now]. *)
Definition gateway_ok (s : Server) (w : World) (now : Time) : Prop :=
  ∃ t, heap w !! mgr_limiter (limiterMgr s) = Some (TokenBucket t)
       ∧ tb_cfg t = defaultPolicy ∧ tb_ok t now.

(** The gateway of the examples: built by [NewServer] in fast mode on
    an empty world. *)
Definition fast_server : Server :=
  fst (server_of (mkGatewayConfig "fast") (world0 true)).

Definition fast_world : World :=
  snd (server_of (mkGatewayConfig "fast") (world0 true)).

(** The bounds the gateway keeps on a bucket it holds. *)
Definition bucket_within (burst : Z) (now : Time) (ob : option tokenBucket)
    : Prop :=
  match ob with
  | Some b => (0 <= tokens b)%Q ∧ (tokens b <= of_int burst)%Q
              ∧ lastRefill b <= now
  | None => True
  end.

(** ** The manager and the gateway's engine *)

Lemma Allow_engine_policy l now key cost :
  engine_policy (snd (Allow l now key cost)) = engine_policy l.
Proof.
  destruct l as [t|s|b]; simpl; try reflexivity.
  unfold SlidingWindowLimiter_Allow.
  destruct (limit_of (sw_cfg s) <? _); reflexivity.
Qed.

(** The heap after [handleAllow]: untouched, or the engine of the
    manager after one [Allow] under the composed key. *)
Lemma handleAllow_heap s w req now later :
  heap (snd (handleAllow s w req now later)) = heap w
  ∨ ∃ l cost, heap w !! mgr_limiter (limiterMgr s) = Some l
      ∧ heap (snd (handleAllow s w req now later))
        = <[mgr_limiter (limiterMgr s) :=
              snd (Allow l now (key_of req) cost)]> (heap w).
Proof.
  unfold handleAllow, ForTenant, key_of.
  repeat (match goal with
          | |- context [if ?b then _ else _] => destruct b
          | |- context [match parse_cost ?c with _ => _ end] =>
              destruct (parse_cost c) as [cost|]
          end; simpl; try (left; reflexivity)).
  destruct (heap w !! mgr_limiter (limiterMgr s)) as [l|] eqn:Hl;
    simpl; [|left; reflexivity].
  right. exists l, cost. split; [reflexivity|].
  destruct (Allow l now _ cost) as [[res err] l']. simpl.
  destruct res as [res|]; simpl; [|reflexivity].
  destruct (Allowed res), err; reflexivity.
Qed.

Lemma handleQuota_heap s w req now :
  heap (snd (handleQuota s w req now)) = heap w
  ∨ ∃ l, heap w !! mgr_limiter (limiterMgr s) = Some l
      ∧ heap (snd (handleQuota s w req now))
        = <[mgr_limiter (limiterMgr s) :=
              snd (Allow l now (key_of req) 0)]> (heap w).
Proof.
  unfold handleQuota, ForTenant, key_of.
  repeat (match goal with
          | |- context [if ?b then _ else _] => destruct b
          end; simpl; try (left; reflexivity)).
  destruct (heap w !! mgr_limiter (limiterMgr s)) as [l|] eqn:Hl;
    simpl; [|left; reflexivity].
  right. exists l. split; [reflexivity|].
  destruct (Allow l now _ 0) as [[res err] l']. simpl.
  destruct err; simpl; [reflexivity|].
  destruct res; reflexivity.
Qed.

Lemma handleAllow_heap_step s w req now later :
  heap_step (mgr_limiter (limiterMgr s)) (heap w)
            (heap (snd (handleAllow s w req now later))).
Proof.
  destruct (handleAllow_heap s w req now later) as [H|(l & cost & Hl & H)].
  - left. exact H.
  - right. exists l, (snd (Allow l now (key_of req) cost)).
    auto using Allow_engine_policy.
Qed.

Lemma handleQuota_heap_step s w req now :
  heap_step (mgr_limiter (limiterMgr s)) (heap w)
            (heap (snd (handleQuota s w req now))).
Proof.
  destruct (handleQuota_heap s w req now) as [H|(l & Hl & H)].
  - left. exact H.
  - right. exists l, (snd (Allow l now (key_of req) 0)).
    auto using Allow_engine_policy.
Qed.

Lemma NewServer_engine cfg w0 :
  ∃ s w, NewServer cfg w0 = ((Some s, None), w)
    ∧ config s = cfg
    ∧ heap w !! mgr_limiter (limiterMgr s)
      = Some (TokenBucket {| tb_cfg := defaultPolicy; tb_state := ∅ |}).
Proof.
  unfold NewServer.
  destruct (String.eqb (ConsistencyMode cfg) "strong"); simpl;
    eexists _, _; (split; [reflexivity|]); simpl;
    (split; [reflexivity|]); apply lookup_insert_eq.
Qed.

(** C10. The manager returns the same engine address whatever the tenant
    and the resource: [ForTenant] and [GetLimiter] agree for all
    arguments. For the manager of the gateway, that address holds the
    engine [NewServer] built from the default policy (token bucket,
    limit 100, burst 100, window one minute), and serving a request only
    ever replaces the engine at that address by one of the same
    algorithm and configuration. *)
Theorem C10_one_engine_for_all (m : LocalManager) (cfg : GatewayConfig)
    (w0 : World) (t1 t2 r1 r2 : string) :
  ForTenant m t1 = ForTenant m t2
  ∧ GetLimiter m t1 r1 = GetLimiter m t2 r2
  ∧ GetLimiter m t1 r1 = (ForTenant m t2, None)
  ∧ ∃ s w, NewServer cfg w0 = ((Some s, None), w)
      ∧ heap w !! ForTenant (limiterMgr s) t1
        = Some (NewTokenBucketLimiter
                  {| Limit := 100; Burst := 100; Window := Minute;
                     Algorithm_ := AlgoTokenBucket |})
      ∧ (∀ w1 req now later,
           heap_step (ForTenant (limiterMgr s) (q_tenant req)) (heap w1)
                     (heap (snd (handleAllow s w1 req now later))))
      ∧ (∀ w1 req now,
           heap_step (ForTenant (limiterMgr s) (q_tenant req)) (heap w1)
                     (heap (snd (handleQuota s w1 req now)))).
Proof.
  repeat split; try reflexivity.
  destruct (NewServer_engine cfg w0) as (s & w & Hs & _ & Hh).
  exists s, w. split; [exact Hs|]. split; [exact Hh|]. split.
  - intros. apply handleAllow_heap_step.
  - intros. apply handleQuota_heap_step.
Qed.

(** ** Request validation in the gateway *)

Lemma eqb_false_of_neq (a b : string) : a ≠ b → String.eqb a b = false.
Proof. intros H. apply String.eqb_neq. exact H. Qed.

(** C9, as the code has it. A request with a tenant and a non-empty
    credential outside the permitted keys is answered, by [/allow] and by
    [/quota], with status 401 Unauthorized and the error "Invalid API
    key", before any state is touched; a request with no credential is
    answered with the same status 401 and the error "API key required".
    The two cases differ by their message, not by their status. *)
Theorem C9_invalid_key_is_unauthorized (s : Server) (w : World)
    (req : Request) (now later : Time) :
  q_tenant req ≠ ""%string →
  api_key_of req ≠ ""%string →
  valid_key (api_key_of req) = false →
  handleAllow s w req now later
    = (JSON StatusUnauthorized (ErrorBody "Invalid API key"), w)
  ∧ handleQuota s w req now
    = (JSON StatusUnauthorized (ErrorBody "Invalid API key"), w)
  ∧ handleAllow s w
      {| q_tenant := q_tenant req; h_api_key := ""; q_api_key := "";
         q_resource := q_resource req; q_cost := q_cost req |} now later
    = (JSON StatusUnauthorized (ErrorBody "API key required"), w)
  ∧ StatusUnauthorized = 401 ∧ StatusForbidden = 403.
Proof.
  intros Ht Hk Hv.
  unfold handleAllow, handleQuota.
  rewrite (eqb_false_of_neq _ _ Ht), (eqb_false_of_neq _ _ Hk), Hv.
  simpl. rewrite (eqb_false_of_neq _ _ Ht). auto.
Qed.

Lemma C9_invalid_key_is_unauthorized_witness :
  handleAllow (fst (server_of (mkGatewayConfig "fast") (world0 true)))
              (snd (server_of (mkGatewayConfig "fast") (world0 true)))
              (request "acme" "stolen-key" "" "") 0 0
  = (JSON StatusUnauthorized (ErrorBody "Invalid API key"),
     snd (server_of (mkGatewayConfig "fast") (world0 true))).
Proof.
  apply (C9_invalid_key_is_unauthorized
           (fst (server_of (mkGatewayConfig "fast") (world0 true)))
           (snd (server_of (mkGatewayConfig "fast") (world0 true)))
           (request "acme" "stolen-key" "" "") 0 0).
  - discriminate.
  - discriminate.
  - reflexivity.
Defined.

(** C9, as stated, fails: the credential "stolen-key" is not permitted,
    and the answer carries status 401, the status of a missing
    credential, not 403 Forbidden. *)
Lemma C9_counterexample :
  status (fst (handleAllow
                 (fst (server_of (mkGatewayConfig "fast") (world0 true)))
                 (snd (server_of (mkGatewayConfig "fast") (world0 true)))
                 (request "acme" "stolen-key" "" "") 0 0))
    = StatusUnauthorized
  ∧ status (fst (handleAllow
                   (fst (server_of (mkGatewayConfig "fast") (world0 true)))
                   (snd (server_of (mkGatewayConfig "fast") (world0 true)))
                   (request "acme" "" "" "") 0 0))
    = StatusUnauthorized
  ∧ StatusUnauthorized ≠ StatusForbidden.
Proof. repeat split; try reflexivity. discriminate. Qed.

(** C8, as the code has it. A request whose cost parses to a negative
    number is answered by [/allow] with status 400 and the error "invalid
    cost parameter" before the engine is called: engines, buckets and
    counters are left as they were. *)
Theorem C8_negative_cost_rejected_by_gateway (s : Server) (w : World)
    (req : Request) (now later : Time) (n : Z) :
  q_tenant req ≠ ""%string →
  valid_key (api_key_of req) = true →
  Atoi (q_cost req) = Some n →
  n < 0 →
  handleAllow s w req now later
    = (JSON StatusBadRequest (ErrorBody "invalid cost parameter"), w).
Proof.
  intros Ht Hv Hc Hn.
  assert (Hk : String.eqb (api_key_of req) "" = false).
  { destruct (String.eqb_spec (api_key_of req) "") as [E|]; [|reflexivity].
    rewrite E in Hv. discriminate. }
  assert (Hq : String.eqb (q_cost req) "" = false).
  { destruct (String.eqb_spec (q_cost req) "") as [E|]; [|reflexivity].
    rewrite E in Hc. discriminate. }
  unfold handleAllow, parse_cost.
  rewrite (eqb_false_of_neq _ _ Ht), Hk, Hv, Hq, Hc. simpl.
  destruct (Z.ltb_spec 0 n); [lia|reflexivity].
Qed.

Lemma C8_negative_cost_rejected_by_gateway_witness :
  handleAllow (fst (server_of (mkGatewayConfig "fast") (world0 true)))
              (snd (server_of (mkGatewayConfig "fast") (world0 true)))
              (request "acme" "test-key" "" "-5") 0 0
  = (JSON StatusBadRequest (ErrorBody "invalid cost parameter"),
     snd (server_of (mkGatewayConfig "fast") (world0 true))).
Proof.
  apply (C8_negative_cost_rejected_by_gateway
           (fst (server_of (mkGatewayConfig "fast") (world0 true)))
           (snd (server_of (mkGatewayConfig "fast") (world0 true)))
           (request "acme" "test-key" "" "-5") 0 0 (-5)).
  - discriminate.
  - reflexivity.
  - reflexivity.
  - lia.
Defined.

(** C8, as stated for the engine, fails: [Allow] with cost -5 on the
    gateway's engine returns a result and no error, the request is
    allowed, and the bucket of the key holds 105 tokens, above the burst
    of 100. *)
Lemma C8_counterexample :
  let t := {| tb_cfg := defaultPolicy; tb_state := ∅ |} in
  ∃ res bkt,
    TokenBucketLimiter_Allow t 0 "acme:default:test-key" (-5)
      = ((Some res, None), snd (TokenBucketLimiter_Allow t 0 "acme:default:test-key" (-5)))
    ∧ Allowed res = true
    ∧ tb_state (snd (TokenBucketLimiter_Allow t 0 "acme:default:test-key" (-5)))
        !! "acme:default:test-key"%string = Some bkt
    ∧ (tokens bkt == 105)%Q
    ∧ (of_int (burst_of defaultPolicy) < tokens bkt)%Q.
Proof.
  cbv zeta. eexists _, _. split; [reflexivity|].
  split; [reflexivity|]. split; [vm_compute; reflexivity|].
  split; reflexivity.
Qed.

(** ** Strong mode *)

(** C5. In strong mode with the shared store out of reach, a request of
    a permitted credential is allowed out of the in-memory engine: the
    answer has status 200, charges the local bucket, and only names the
    mode in a header. The answer is the same whether the store is up or
    not. *)
Theorem C5_strong_mode_allows_from_local_state (up : bool) :
  let '(s, w) := server_of (mkGatewayConfig "strong") (world0 up) in
  redisStore s = Some store.mkClient
  ∧ fst (handleAllow s w (request "acme" "test-key" "" "") 1000000000000 1000000000000)
    = {| status := StatusOK;
         headers := [("X-RateLimit-Limit"%string, HInt 100);
                     ("X-RateLimit-Remaining"%string, HInt 99);
                     ("X-RateLimit-Reset"%string, HInt 942);
                     ("X-Helios-Mode"%string, HStr "strong")];
         body := AllowedBody 99 100 942 |}
  ∧ store_up (snd (handleAllow s w (request "acme" "test-key" "" "") 1000000000000 1000000000000)) = up
  ∧ reqAllowed (snd (handleAllow s w (request "acme" "test-key" "" "") 1000000000000 1000000000000)) = 1.
Proof. destruct up; vm_compute; repeat split; reflexivity. Qed.

(** X2. [handleAllow] reads neither the store client of the server nor the
    state of the shared store: with another client and another state,
    the answer and the effects are the same. *)
Lemma handleAllow_ignores_store (s : Server) (w : World) (req : Request)
    (now later : Time) (client : option store.Client) (up : bool) :
  let s' := {| config := config s; limiterMgr := limiterMgr s;
               redisStore := client |} in
  let w' := {| heap := heap w; reqTotal := reqTotal w;
               reqAllowed := reqAllowed w; reqDenied := reqDenied w;
               store_up := up |} in
  fst (handleAllow s' w' req now later) = fst (handleAllow s w req now later)
  ∧ heap (snd (handleAllow s' w' req now later))
    = heap (snd (handleAllow s w req now later))
  ∧ store_up (snd (handleAllow s' w' req now later)) = up.
Proof.
  cbv zeta. unfold handleAllow, ForTenant. simpl.
  repeat (match goal with
          | |- context [if ?b then _ else _] => destruct b
          | |- context [match parse_cost ?c with _ => _ end] =>
              destruct (parse_cost c) as [cost|]
          end; simpl; try (repeat split; reflexivity)).
  destruct (heap w !! mgr_limiter (limiterMgr s)) as [l|];
    simpl; [|repeat split; reflexivity].
  destruct (Allow l now _ cost) as [[res err] l']. simpl.
  destruct res as [res|]; simpl; [|repeat split; reflexivity].
  destruct (Allowed res), err; simpl; repeat split; reflexivity.
Qed.

(** ** Isolation of Decision Keys *)

Lemma has_colon_app (a b : string) :
  has_colon (a ++ String ":" b)%string = true.
Proof. induction a as [|c a IH]; simpl; [reflexivity|]. rewrite IH. apply orb_true_r. Qed.

(** Two strings cut at their first colon. *)
Lemma cut_first_colon (a b x y : string) :
  has_colon a = false → has_colon b = false →
  (a ++ ":" ++ x)%string = (b ++ ":" ++ y)%string → a = b ∧ x = y.
Proof.
  revert b. induction a as [|c a IH]; intros [|d b] Ha Hb E; simpl in *.
  - injection E as E. auto.
  - injection E as Ed E. subst d. discriminate.
  - injection E as Ec E. subst c. discriminate.
  - injection E as Ec E. subst d.
    apply orb_false_iff in Ha as [_ Ha]. apply orb_false_iff in Hb as [_ Hb].
    destruct (IH b Ha Hb E) as [-> ->]. auto.
Qed.

(** Two strings cut at their last colon. *)
Lemma cut_last_colon (a b x y : string) :
  has_colon x = false → has_colon y = false →
  (a ++ ":" ++ x)%string = (b ++ ":" ++ y)%string → a = b ∧ x = y.
Proof.
  intros Hx Hy. revert b.
  induction a as [|c a IH]; intros [|d b] E; simpl in *.
  - injection E as E. auto.
  - injection E as _ E. change (x = (b ++ String ":" y)%string) in E.
    rewrite E, has_colon_app in Hx. discriminate.
  - injection E as _ E. change ((a ++ String ":" x)%string = y) in E.
    rewrite <- E, has_colon_app in Hy. discriminate.
  - injection E as Ec E. subst d. destruct (IH b E) as [-> ->]. auto.
Qed.

Lemma valid_key_no_colon (k : string) :
  valid_key k = true → has_colon k = false.
Proof.
  unfold valid_key. intros H.
  apply orb_true_iff in H as [H|H]; [apply orb_true_iff in H as [H|H]|];
    apply String.eqb_eq in H; subst k; reflexivity.
Qed.

Lemma compose_key_inj (t1 r1 k1 t2 r2 k2 : string) :
  has_colon t1 = false → has_colon t2 = false →
  has_colon k1 = false → has_colon k2 = false →
  compose_key t1 r1 k1 = compose_key t2 r2 k2 →
  (t1, r1, k1) = (t2, r2, k2).
Proof.
  unfold compose_key. intros Ht1 Ht2 Hk1 Hk2 E.
  destruct (cut_first_colon _ _ _ _ Ht1 Ht2 E) as [-> E'].
  destruct (cut_last_colon _ _ _ _ Hk1 Hk2 E') as [-> ->].
  reflexivity.
Qed.

(** An [Allow] under one key leaves the bucket of any other key alone. *)
Lemma Allow_other_bucket l now k1 cost k2 :
  k1 ≠ k2 → bucket_of (snd (Allow l now k1 cost)) k2 = bucket_of l k2.
Proof.
  intros Hne. destruct l as [t|s|b]; simpl.
  - apply lookup_insert_ne. exact Hne.
  - destruct (SlidingWindowLimiter_Allow s now k1 cost). reflexivity.
  - reflexivity.
Qed.




(** ** Arithmetic of the embedding *)

Lemma geb_true (a b : Q) : geb a b = true ↔ (b <= a)%Q.
Proof. unfold geb. apply Qle_bool_iff. Qed.

Lemma geb_false (a b : Q) : geb a b = false ↔ (a < b)%Q.
Proof.
  unfold geb. split; intros H.
  - apply Qnot_le_lt. intros Hle. apply Qle_bool_iff in Hle. congruence.
  - destruct (Qle_bool b a) eqn:E; [|reflexivity].
    apply Qle_bool_iff in E. apply Qlt_not_le in H. contradiction.
Qed.

Lemma ltb_true (a b : Q) : ltb a b = true ↔ (a < b)%Q.
Proof.
  unfold ltb. rewrite negb_true_iff. apply geb_false.
Qed.

Lemma ltb_false (a b : Q) : ltb a b = false ↔ (b <= a)%Q.
Proof.
  unfold ltb. rewrite negb_false_iff. apply geb_true.
Qed.

Lemma trunc_floor (x : Q) : (0 <= x)%Q → trunc x = Qfloor x.
Proof.
  destruct x as [n d]. unfold Qle, trunc, Qfloor. simpl. intros H.
  apply Z.quot_div_nonneg; lia.
Qed.

Lemma trunc_ceiling (x : Q) : (x <= 0)%Q → trunc x = Qceiling x.
Proof.
  destruct x as [n d]. unfold Qle, trunc, Qceiling, Qfloor. simpl. intros H.
  rewrite <- (Z.opp_involutive n) at 1.
  rewrite Z.quot_opp_l by lia.
  rewrite Z.quot_div_nonneg by lia. reflexivity.
Qed.

(** Truncation does not depend on how the rational is written. *)
Lemma trunc_Qeq (x y : Q) : (x == y)%Q → trunc x = trunc y.
Proof.
  intros E. destruct (Qlt_le_dec x 0) as [Hx|Hx].
  - rewrite (trunc_ceiling x), (trunc_ceiling y).
    + apply Qceiling_comp. exact E.
    + rewrite <- E. apply Qlt_le_weak. exact Hx.
    + apply Qlt_le_weak. exact Hx.
  - rewrite (trunc_floor x), (trunc_floor y).
    + apply Qfloor_comp. exact E.
    + rewrite <- E. exact Hx.
    + exact Hx.
Qed.

Lemma trunc_of_int (z : Z) : trunc (of_int z) = z.
Proof. unfold trunc, of_int, inject_Z. simpl. apply Z.quot_1_r. Qed.

Lemma Seconds_eq (d : Duration) : (Seconds d == d # 1000000000)%Q.
Proof.
  unfold Seconds, of_int, Second.
  pose proof (Z.quot_rem' d 1000000000) as E.
  unfold Qeq, Qdiv, Qmult, Qplus, Qinv, inject_Z. simpl.
  rewrite !Pos.mul_1_l.
  set (q := Z.quot d 1000000000) in *. set (r := Z.rem d 1000000000) in *.
  clearbody q r. lia.
Qed.

Lemma Seconds_nonneg (d : Duration) : 0 <= d → (0 <= Seconds d)%Q.
Proof.
  intros H. rewrite Seconds_eq. unfold Qle. simpl. lia.
Qed.

Lemma trunc_Seconds (d : Duration) : 0 <= d → trunc (Seconds d) = d / Second.
Proof.
  intros H. rewrite (trunc_Qeq _ _ (Seconds_eq d)).
  unfold trunc, Second. simpl. apply Z.quot_div_nonneg; lia.
Qed.

Lemma in_rangeb_true (z : Z) : in_range z → in_rangeb z = true.
Proof.
  unfold in_range, in_rangeb. intros [H1 H2].
  apply andb_true_iff. split; apply Z.leb_le; assumption.
Qed.

Lemma to_int64_in_range (x : Q) : in_range (trunc x) → to_int64 x = trunc x.
Proof. intros H. unfold to_int64. rewrite in_rangeb_true by exact H. reflexivity. Qed.

Lemma to_int64_Seconds (d : Duration) :
  0 <= d <= max_int64 → to_int64 (Seconds d) = d / Second.
Proof.
  intros [H0 H1]. rewrite to_int64_in_range; rewrite trunc_Seconds by exact H0.
  - reflexivity.
  - unfold in_range, min_int64, max_int64, Second in *.
    pose proof (Z.div_pos d 1000000000 H0 ltac:(lia)).
    pose proof (Z.div_le_upper_bound d 1000000000 (2 ^ 63 - 1) ltac:(lia) ltac:(lia)).
    lia.
Qed.

Lemma wrap64_in_range (z : Z) : in_range z → wrap64 z = z.
Proof.
  unfold in_range, min_int64, max_int64, wrap64. intros H.
  rewrite Z.mod_small; lia.
Qed.

Lemma sat64_in_range (z : Z) : in_range z → sat64 z = z.
Proof.
  unfold in_range, sat64. intros [H1 H2].
  destruct (Z.ltb_spec z min_int64); [lia|].
  destruct (Z.ltb_spec max_int64 z); [lia|]. reflexivity.
Qed.

(** ** Sliding window *)

Lemma validRequests_In (windowStart : Time) (reqs : list Time) (t : Time) :
  In t (validRequests windowStart reqs) ↔ In t reqs ∧ windowStart < t.
Proof.
  unfold validRequests, After. rewrite filter_In, Z.ltb_lt. reflexivity.
Qed.

Lemma validRequests_length (windowStart : Time) (reqs : list Time) :
  (length (validRequests windowStart reqs) <= length reqs)%nat.
Proof.
  unfold validRequests. induction reqs as [|t l IH]; simpl; [lia|].
  destruct (After t windowStart); simpl; lia.
Qed.

Lemma validRequests_sorted (windowStart : Time) (reqs : list Time) :
  StronglySorted Z.le reqs →
  StronglySorted Z.le (validRequests windowStart reqs).
Proof.
  unfold validRequests. induction 1 as [|t l Hs IH Hall]; simpl.
  - constructor.
  - destruct (After t windowStart); [|exact IH].
    constructor; [exact IH|].
    apply Forall_forall. intros u Hu. apply list_elem_of_In in Hu.
    apply filter_In in Hu as [Hu _].
    rewrite Forall_forall in Hall. apply Hall.
    apply list_elem_of_In. exact Hu.
Qed.

Lemma validRequests_Forall (P : Time → Prop) (windowStart : Time)
    (reqs : list Time) :
  Forall P reqs → Forall P (validRequests windowStart reqs).
Proof.
  unfold validRequests. induction 1 as [|t l Ht Hl IH]; simpl.
  - constructor.
  - destruct (After t windowStart); [constructor; assumption|exact IH].
Qed.

(** In a sorted window the first event is the earliest. *)
Lemma min_event_sorted (t : Time) (l : list Time) :
  StronglySorted Z.le (t :: l) → min_event (t :: l) = Some t.
Proof.
  intros Hs. apply StronglySorted_inv in Hs as [_ Hall]. simpl. f_equal.
  induction Hall as [|u l Hu Hl IH]; simpl; [reflexivity|].
  rewrite IH. lia.
Qed.

(** X3. The engine keeps its windows chronological: a window whose
    events are in order and not later than [now] is, after [Allow] at
    [now], again in order with no event later than [now]. *)
Lemma SlidingWindow_chronological (s : SlidingWindowLimiter) (now : Time)
    (key : string) (cost : Z) :
  chronological now (requests (window_at (sw_windows s) key)) →
  chronological now
    (requests (window_at (sw_windows (snd (SlidingWindowLimiter_Allow s now key cost))) key)).
Proof.
  intros [Hs Hp]. unfold SlidingWindowLimiter_Allow.
  set (reqs := validRequests _ _).
  assert (Hs' : StronglySorted Z.le reqs) by (apply validRequests_sorted; exact Hs).
  assert (Hp' : Forall (λ t, t <= now) reqs) by (apply validRequests_Forall; exact Hp).
  destruct (limit_of (sw_cfg s) <? _); simpl; unfold window_at;
    rewrite lookup_insert_eq; simpl.
  - split; assumption.
  - split.
    + clear Hp. induction Hs' as [|t l Hl IH Hall]; simpl.
      * generalize (Z.to_nat cost). intros n.
        induction n as [|n IHn]; simpl; constructor; [exact IHn|].
        apply Forall_forall. intros u Hu.
        apply elem_of_replicate in Hu as [-> _]. lia.
      * apply Forall_cons in Hp' as [Ht Hp'].
        constructor; [apply IH; exact Hp'|].
        apply Forall_app. split; [exact Hall|].
        apply Forall_forall. intros u Hu.
        apply elem_of_replicate in Hu as [-> _]. exact Ht.
    + apply Forall_app. split; [exact Hp'|].
      apply Forall_forall. intros u Hu.
      apply elem_of_replicate in Hu as [-> _]. lia.
Qed.

Lemma SlidingWindow_chronological_witness :
  chronological 500000000
    (requests
       (window_at
          (sw_windows
             (snd (SlidingWindowLimiter_Allow
                     {| sw_cfg := mkConfig 2 2 Minute AlgoSlidingWindow;
                        sw_windows := {[ "k"%string := {| requests := [0] |} ]} |}
                     500000000 "k" 1))) "k")).
Proof.
  apply (SlidingWindow_chronological
           {| sw_cfg := mkConfig 2 2 Minute AlgoSlidingWindow;
              sw_windows := {[ "k"%string := {| requests := [0] |} ]} |}
           500000000 "k" 1).
  split; repeat constructor. lia.
Defined.

(** C3, as the code has it. With [E] the stored events later than
    [now - window], in order: if [|E| + c <= limit] the request is
    allowed, [c] copies of [now] are appended, [remaining] is the limit
    minus the number of events after the append and [reset_at] is
    [now + window]; otherwise it is denied, [E] is stored, [remaining]
    is [max 0 (limit - |E|)], [reset_at] is the earliest event of [E]
    plus the window (or [now + window] when [E] is empty) and
    [retry_after_s] is the whole number of seconds in [reset_at - now],
    rounded down. *)
Theorem C3_sliding_window_decision (s : SlidingWindowLimiter) (now : Time)
    (key : string) (cost : Z) :
  in_range (Limit (sw_cfg s)) →
  in_range (Window (sw_cfg s)) →
  0 <= cost →
  Z.of_nat (length (requests (window_at (sw_windows s) key))) + cost
    <= max_int64 →
  chronological now (requests (window_at (sw_windows s) key)) →
  let window := window_of (sw_cfg s) in
  let limit := limit_of (sw_cfg s) in
  let E := validRequests (now - window)
                         (requests (window_at (sw_windows s) key)) in
  let out := SlidingWindowLimiter_Allow s now key cost in
  (∀ t, In t E ↔ In t (requests (window_at (sw_windows s) key))
                 ∧ now - window < t)
  ∧ ∃ r, fst out = (Some r, None) ∧ Limit_ r = limit ∧
    if Z.of_nat (length E) + cost <=? limit then
      Allowed r = true
      ∧ sw_windows (snd out) !! key
        = Some {| requests := E ++ replicate (Z.to_nat cost) now |}
      ∧ Remaining r
        = limit - Z.of_nat (length (E ++ replicate (Z.to_nat cost) now))
      ∧ ResetTime r = now + window
      ∧ RetryAfterSeconds r = 0
    else
      Allowed r = false
      ∧ sw_windows (snd out) !! key = Some {| requests := E |}
      ∧ Remaining r = Z.max 0 (limit - Z.of_nat (length E))
      ∧ ResetTime r = match min_event E with
                      | Some oldest => oldest + window
                      | None => now + window
                      end
      ∧ RetryAfterSeconds r = (ResetTime r - now) / Second.
Proof.
  intros HL HW Hc Hlen [Hs Hp] window limit E out.
  split; [intros t; apply validRequests_In|].
  assert (Hwin : 0 < window <= max_int64).
  { subst window. unfold window_of, in_range, max_int64, Minute, Second in *.
    destruct (Z.leb_spec (Window (sw_cfg s)) 0); lia. }
  assert (Hlim : 0 < limit <= max_int64).
  { subst limit. unfold limit_of, in_range, max_int64 in *.
    destruct (Z.leb_spec (Limit (sw_cfg s)) 0); lia. }
  assert (HE : (length E <= length (requests (window_at (sw_windows s) key)))%nat)
    by apply validRequests_length.
  assert (Hsum : wrap64 (Z.of_nat (length E) + cost) = Z.of_nat (length E) + cost).
  { apply wrap64_in_range. unfold in_range, min_int64, max_int64 in *. lia. }
  subst out. unfold SlidingWindowLimiter_Allow.
  fold window. fold limit. unfold Add. rewrite Z.add_opp_r. fold E.
  rewrite Hsum.
  destruct (Z.leb_spec (Z.of_nat (length E) + cost) limit) as [Hle|Hgt].
  - destruct (Z.ltb_spec limit (Z.of_nat (length E) + cost)); [lia|].
    simpl. eexists. split; [reflexivity|]. simpl. repeat split.
    + apply lookup_insert_eq.
    + rewrite length_app, length_replicate, wrap64_in_range.
      * lia.
      * unfold in_range, min_int64, max_int64 in *. lia.
  - destruct (Z.ltb_spec limit (Z.of_nat (length E) + cost)); [|lia].
    simpl. eexists. split; [reflexivity|]. simpl.
    assert (Hreset : match E with
                     | [] => now + window
                     | oldest :: _ => oldest + window
                     end
                     = match min_event E with
                       | Some oldest => oldest + window
                       | None => now + window
                       end).
    { destruct E as [|t l] eqn:HEq; [reflexivity|].
      rewrite min_event_sorted; [reflexivity|].
      rewrite <- HEq. subst E. apply validRequests_sorted. exact Hs. }
    assert (Hd : 0 <= match E with
                      | [] => now + window
                      | oldest :: _ => oldest + window
                      end - now <= max_int64).
    { destruct E as [|t l] eqn:HEq; [lia|].
      assert (Hin : In t E) by (rewrite HEq; left; reflexivity).
      subst E. apply validRequests_In in Hin as [Hin Hlt].
      rewrite Forall_forall in Hp.
      specialize (Hp t (proj2 (list_elem_of_In _ _) Hin)). simpl in Hp. lia. }
    repeat split.
    + apply lookup_insert_eq.
    + unfold maxInt64. destruct (Z.ltb_spec (limit - Z.of_nat (length E)) 0); lia.
    + exact Hreset.
    + unfold Sub. rewrite sat64_in_range.
      * rewrite to_int64_Seconds by exact Hd. reflexivity.
      * unfold in_range, min_int64.
        split; [transitivity 0; [lia|apply Hd]|apply Hd].
Qed.

Lemma C3_sliding_window_decision_witness :
  chronological 500000000 [0]
  ∧ ∃ r, fst (SlidingWindowLimiter_Allow
                {| sw_cfg := mkConfig 1 1 Minute AlgoSlidingWindow;
                   sw_windows := {[ "k"%string := {| requests := [0] |} ]} |}
                500000000 "k" 1) = (Some r, None)
         ∧ Limit_ r = 1.
Proof.
  assert (Hc : chronological 500000000 [0]).
  { split; repeat constructor. lia. }
  split; [exact Hc|].
  destruct (C3_sliding_window_decision
              {| sw_cfg := mkConfig 1 1 Minute AlgoSlidingWindow;
                 sw_windows := {[ "k"%string := {| requests := [0] |} ]} |}
              500000000 "k" 1) as [_ (r & Hr & Hl & _)].
  - unfold in_range, min_int64, max_int64. simpl. lia.
  - unfold in_range, min_int64, max_int64, Minute, Second. simpl. lia.
  - lia.
  - vm_compute. discriminate.
  - exact Hc.
  - exists r. split; [exact Hr|exact Hl].
Defined.

(** C3, as stated, fails on the wait: under limit 1 and a window of one
    minute, a request at 0 s is allowed and a request at 0.5 s is denied
    with [reset_at] at 60 s; the wait returned is 59 s, the ceiling of
    the 59.5 s left is 60 s. *)
Lemma C3_counterexample :
  let s0 := {| sw_cfg := mkConfig 1 1 Minute AlgoSlidingWindow;
               sw_windows := ∅ |} in
  let s1 := snd (SlidingWindowLimiter_Allow s0 0 "k" 1) in
  ∃ r, fst (SlidingWindowLimiter_Allow s1 500000000 "k" 1) = (Some r, None)
    ∧ Allowed r = false
    ∧ ResetTime r = 60000000000
    ∧ RetryAfterSeconds r = 59
    ∧ spec_ceil_seconds (ResetTime r - 500000000) = 60.
Proof.
  cbv zeta. eexists. split; [vm_compute; reflexivity|].
  repeat split; reflexivity.
Qed.

(** ** Token bucket: bounds of the stored state *)

Lemma limit_of_pos (cfg : Config) : 0 < limit_of cfg.
Proof. unfold limit_of. destruct (Z.leb_spec (Limit cfg) 0); lia. Qed.

Lemma burst_of_pos (cfg : Config) : 0 < burst_of cfg.
Proof.
  unfold burst_of. pose proof (limit_of_pos cfg).
  destruct (Z.leb_spec (Burst cfg) 0); lia.
Qed.

Lemma window_of_pos (cfg : Config) : 0 < window_of cfg.
Proof.
  unfold window_of, Minute, Second.
  destruct (Z.leb_spec (Window cfg) 0); lia.
Qed.

Lemma of_int_pos (z : Z) : 0 < z → (0 < of_int z)%Q.
Proof. intros H. unfold of_int, inject_Z, Qlt. simpl. lia. Qed.

Lemma of_int_nonneg (z : Z) : 0 <= z → (0 <= of_int z)%Q.
Proof. intros H. unfold of_int, inject_Z, Qle. simpl. lia. Qed.

Lemma Seconds_pos (d : Duration) : 0 < d → (0 < Seconds d)%Q.
Proof. intros H. rewrite Seconds_eq. unfold Qlt. simpl. lia. Qed.

Lemma refillPerSec_pos (cfg : Config) : (0 < refillPerSec cfg)%Q.
Proof.
  unfold refillPerSec. apply Qlt_shift_div_l.
  - apply Seconds_pos, window_of_pos.
  - rewrite Qmult_0_l. apply of_int_pos, limit_of_pos.
Qed.

Lemma Sub_nonneg (now last : Time) : last <= now → 0 <= Sub now last.
Proof.
  intros H. unfold Sub, sat64, min_int64, max_int64.
  destruct (Z.ltb_spec (now - last) (- 2 ^ 63)); [lia|].
  destruct (Z.ltb_spec (2 ^ 63 - 1) (now - last)); lia.
Qed.

Lemma min_le_l (a b : Q) : (limiter.min a b <= a)%Q.
Proof.
  unfold limiter.min. destruct (ltb a b) eqn:E.
  - apply Qle_refl.
  - apply ltb_false in E. exact E.
Qed.

Lemma min_le_r (a b : Q) : (limiter.min a b <= b)%Q.
Proof.
  unfold limiter.min. destruct (ltb a b) eqn:E.
  - apply ltb_true in E. apply Qlt_le_weak. exact E.
  - apply Qle_refl.
Qed.

Lemma min_glb (a b c : Q) : (c <= a)%Q → (c <= b)%Q → (c <= limiter.min a b)%Q.
Proof. intros Ha Hb. unfold limiter.min. destruct (ltb a b); assumption. Qed.

(** The refill keeps a bucket within bounds when the clock has not run
    backwards, and stamps it with [now]. *)
Lemma refill_ok (cfg : Config) (b : tokenBucket) (now : Time) :
  bucket_ok cfg b → lastRefill b <= now →
  bucket_ok cfg (refill cfg b now).
Proof.
  intros [Hlo Hhi] Hnow. unfold bucket_ok, refill. simpl. split.
  - apply min_glb.
    + apply of_int_nonneg. pose proof (burst_of_pos cfg). lia.
    + pose proof (Seconds_nonneg _ (Sub_nonneg _ _ Hnow)) as He.
      pose proof (refillPerSec_pos cfg) as Hr.
      pose proof (Qmult_le_0_compat _ _ He (Qlt_le_weak _ _ Hr)). lra.
  - apply min_le_l.
Qed.

Lemma bucket_at_ok (t : TokenBucketLimiter) (now : Time) (key : string) :
  tb_ok t now →
  bucket_ok (tb_cfg t) (bucket_at (tb_cfg t) (tb_state t) now key)
  ∧ lastRefill (bucket_at (tb_cfg t) (tb_state t) now key) <= now.
Proof.
  intros Hok. unfold bucket_at.
  destruct (tb_state t !! key) as [b|] eqn:E.
  - apply (Hok key b E).
  - simpl. split; [|lia]. split; simpl.
    + apply of_int_nonneg. pose proof (burst_of_pos (tb_cfg t)). lia.
    + apply Qle_refl.
Qed.

Lemma Allow_state (t : TokenBucketLimiter) (now : Time) (key : string)
    (cost : Z) :
  snd (TokenBucketLimiter_Allow t now key cost)
  = {| tb_cfg := tb_cfg t;
       tb_state :=
         <[key := charged
                    (refill (tb_cfg t)
                       (bucket_at (tb_cfg t) (tb_state t) now key) now)
                    cost]> (tb_state t) |}.
Proof.
  unfold TokenBucketLimiter_Allow, charged. simpl. reflexivity.
Qed.

Lemma GetQuota_state (t : TokenBucketLimiter) (now : Time) (key : string) :
  snd (TokenBucketLimiter_GetQuota t now key)
  = {| tb_cfg := tb_cfg t;
       tb_state :=
         <[key := refill (tb_cfg t)
                    (bucket_at (tb_cfg t) (tb_state t) now key) now]>
           (tb_state t) |}.
Proof. reflexivity. Qed.

Lemma charged_ok (cfg : Config) (b : tokenBucket) (cost : Z) :
  0 <= cost → bucket_ok cfg b → bucket_ok cfg (charged b cost).
Proof.
  intros Hc [Hlo Hhi]. unfold charged.
  destruct (geb (tokens b) (of_int cost)) eqn:E; [|split; assumption].
  apply geb_true in E. pose proof (of_int_nonneg cost Hc).
  split; simpl; lra.
Qed.

Lemma charged_lastRefill (b : tokenBucket) (cost : Z) :
  lastRefill (charged b cost) = lastRefill b.
Proof. unfold charged. destruct (geb _ _); reflexivity. Qed.

Lemma tb_ok_mono (t : TokenBucketLimiter) (now now' : Time) :
  now <= now' → tb_ok t now → tb_ok t now'.
Proof.
  intros Hle Hok key b E. destruct (Hok key b E) as [Hb Hl]. split; [exact Hb|lia].
Qed.

Lemma tb_step_cfg (t : TokenBucketLimiter) (now : Time) (o : op) :
  tb_cfg (snd (tb_step t now o)) = tb_cfg t.
Proof. destruct o; reflexivity. Qed.

(** One operation: the bounds are kept, the bucket of the key is stamped
    with [now] whatever the decision, and no stamp moves back. *)
Lemma tb_step_ok (t : TokenBucketLimiter) (now : Time) (o : op) :
  tb_ok t now → 0 <= op_cost o →
  tb_ok (snd (tb_step t now o)) now
  ∧ (∃ b, tb_state (snd (tb_step t now o)) !! op_key o = Some b
          ∧ lastRefill b = now)
  ∧ (∀ key b0 b, tb_state t !! key = Some b0 →
       tb_state (snd (tb_step t now o)) !! key = Some b →
       lastRefill b0 <= lastRefill b).
Proof.
  intros Hok Hc.
  destruct (bucket_at_ok t now (op_key o) Hok) as [Hb Hl].
  pose proof (refill_ok _ _ now Hb Hl) as Hr.
  assert (Hnew : ∃ b', snd (tb_step t now o)
                       = {| tb_cfg := tb_cfg t;
                            tb_state := <[op_key o := b']> (tb_state t) |}
                       ∧ bucket_ok (tb_cfg t) b' ∧ lastRefill b' = now).
  { destruct o as [key cost|key]; simpl in *.
    - eexists. split; [apply Allow_state|]. split.
      + apply charged_ok; assumption.
      + rewrite charged_lastRefill. reflexivity.
    - eexists. split; [apply GetQuota_state|]. split; [exact Hr|reflexivity]. }
  destruct Hnew as (b' & -> & Hb' & Hl'). simpl.
  split; [|split].
  - intros key b E. simpl in E.
    destruct (decide (key = op_key o)) as [->|Hne].
    + rewrite lookup_insert_eq in E. injection E as <-. split; [exact Hb'|lia].
    + rewrite lookup_insert_ne in E by congruence. apply (Hok key b E).
  - exists b'. split; [apply lookup_insert_eq|exact Hl'].
  - intros key b0 b E0 E.
    destruct (decide (key = op_key o)) as [->|Hne].
    + rewrite lookup_insert_eq in E. injection E as <-.
      rewrite Hl'. apply (Hok _ _ E0).
    + rewrite lookup_insert_ne in E by congruence.
      rewrite E0 in E. injection E as <-. lia.
Qed.

Lemma tb_run_ok (t : TokenBucketLimiter) (now0 : Time)
    (ops : list (Time * op)) :
  tb_ok t now0 → clock_monotone now0 ops →
  Forall (λ o, 0 <= op_cost (snd o)) ops →
  tb_ok (tb_run t ops) (clock_after now0 ops).
Proof.
  revert t now0. induction ops as [|[now o] ops IH]; intros t now0 Hok Hm Hc.
  - exact Hok.
  - destruct Hm as [Hle Hm]. apply Forall_cons in Hc as [Hc Hcs].
    simpl in Hc.
    destruct (tb_step_ok t now o (tb_ok_mono _ _ _ Hle Hok) Hc) as [Hok' _].
    exact (IH _ _ Hok' Hm Hcs).
Qed.

Lemma tb_run_each (ops : list (Time * op)) :
  ∀ (t : TokenBucketLimiter) (now0 : Time),
  tb_ok t now0 → clock_monotone now0 ops →
  Forall (λ o, 0 <= op_cost (snd o)) ops →
  ∀ (n : nat) (now : Time) (o : op), ops !! n = Some (now, o) →
    tb_ok (tb_run t (take (S n) ops)) now
    ∧ (∃ b, tb_state (tb_run t (take (S n) ops)) !! op_key o = Some b
            ∧ lastRefill b = now)
    ∧ (∀ key b0 b, tb_state (tb_run t (take n ops)) !! key = Some b0 →
         tb_state (tb_run t (take (S n) ops)) !! key = Some b →
         lastRefill b0 <= lastRefill b).
Proof.
  induction ops as [|[now1 o1] ops IH]; intros t now0 Hok Hm Hc n now o Hn.
  - rewrite lookup_nil in Hn. discriminate.
  - destruct Hm as [Hle Hm]. apply Forall_cons in Hc as [Hc Hcs]. simpl in Hc.
    pose proof (tb_step_ok t now1 o1 (tb_ok_mono _ _ _ Hle Hok) Hc) as Hstep.
    destruct n as [|n].
    + simpl in Hn. injection Hn as -> ->. simpl. exact Hstep.
    + simpl in Hn. simpl.
      apply (IH _ now1 (proj1 Hstep) Hm Hcs n now o Hn).
Qed.

(** ** The scripted token bucket *)

(** One run of the script: the hash of the key stays within bounds when
    the caller's clock is not behind the stored stamp, and is stamped
    with [now] on both branches. *)
Lemma token_bucket_script_ok (db : gmap string store.hash) (key : string)
    (now limit window cost burst : Z) :
  0 < limit → 0 < window → 0 <= burst → 0 <= cost →
  (∀ h, db !! key = Some h → hash_ok burst now h) →
  ∃ h, snd (store.token_bucket_script db key now limit window cost burst)
         !! key = Some h
       ∧ hash_ok burst now h ∧ store.h_last_refill h = now.
Proof.
  intros Hl Hw Hb Hc Hdb. unfold store.token_bucket_script.
  set (tokens0 := match db !! key with
                  | Some h => store.h_tokens h | None => of_int burst end).
  set (last := match db !! key with
               | Some h => store.h_last_refill h | None => now end).
  assert (H0 : (0 <= tokens0)%Q ∧ last <= now).
  { subst tokens0 last. destruct (db !! key) as [h|] eqn:E.
    - destruct (Hdb h eq_refl) as (? & ? & ?). auto.
    - split; [apply of_int_nonneg; exact Hb|lia]. }
  destruct H0 as [Ht0 Hlast].
  set (add := (of_int (now - last) / of_int 1000 * of_int limit
               / of_int window)%Q).
  assert (Hadd : (0 <= add)%Q).
  { subst add. apply Qle_shift_div_l; [apply of_int_pos; exact Hw|].
    rewrite Qmult_0_l. apply Qmult_le_0_compat.
    - apply Qle_shift_div_l; [apply of_int_pos; lia|].
      rewrite Qmult_0_l. apply of_int_nonneg. lia.
    - apply of_int_nonneg. lia. }
  set (tk := limiter.min (tokens0 + add)%Q (of_int burst)).
  assert (Htk : (0 <= tk)%Q ∧ (tk <= of_int burst)%Q).
  { subst tk. split; [|apply min_le_r].
    apply min_glb; [lra|apply of_int_nonneg; exact Hb]. }
  destruct Htk as [Htk0 Htk1].
  destruct (geb tk (of_int cost)) eqn:E; simpl.
  - apply geb_true in E. pose proof (of_int_nonneg cost Hc).
    eexists. split; [apply lookup_insert_eq|].
    split; [|reflexivity]. unfold hash_ok. simpl.
    repeat split; try lra. lia.
  - eexists. split; [apply lookup_insert_eq|].
    split; [|reflexivity]. unfold hash_ok. simpl.
    repeat split; try assumption. lia.
Qed.

Lemma TokenBucketAllow_state (db : gmap string store.hash) (now : Z)
    (key : string) (limit windowSec cost burst : Z) :
  snd (store.TokenBucketAllow true db now key limit windowSec cost burst)
  = snd (store.token_bucket_script db key now limit windowSec cost burst).
Proof.
  unfold store.TokenBucketAllow.
  destruct (store.token_bucket_script db key now limit windowSec cost burst)
    as [[[a remaining] resetTimeMs] db'].
  reflexivity.
Qed.

(** C6, as the code has it. When no operation reads a clock behind the
    stamps already stored, then after each operation of a sequence with
    non-negative costs every bucket of the in-memory engine has
    [0 <= tokens <= burst], the bucket of the operation's key is stamped
    [last_refill = now] whether the request was allowed or denied, and
    no stamp has moved back; and one run of the shared-store script
    leaves the hash of its key with [0 <= tokens <= burst] and
    [last_refill = now] on the allowing and on the denying branch. *)
Theorem C6_bounds_and_refill_stamp (t : TokenBucketLimiter) (now0 : Time)
    (ops : list (Time * op)) (db : gmap string store.hash) (key : string)
    (now limit window cost burst : Z) :
  tb_ok t now0 →
  clock_monotone now0 ops →
  Forall (λ o, 0 <= op_cost (snd o)) ops →
  0 < limit → 0 < window → 0 <= burst → 0 <= cost →
  (∀ h, db !! key = Some h → hash_ok burst now h) →
  (∀ (n : nat) (now_n : Time) (o : op), ops !! n = Some (now_n, o) →
     tb_ok (tb_run t (take (S n) ops)) now_n
     ∧ (∃ b, tb_state (tb_run t (take (S n) ops)) !! op_key o = Some b
             ∧ lastRefill b = now_n)
     ∧ (∀ k b0 b, tb_state (tb_run t (take n ops)) !! k = Some b0 →
          tb_state (tb_run t (take (S n) ops)) !! k = Some b →
          lastRefill b0 <= lastRefill b))
  ∧ ∃ h, snd (store.TokenBucketAllow true db now key limit window cost burst)
           !! key = Some h
         ∧ hash_ok burst now h ∧ store.h_last_refill h = now.
Proof.
  intros Hok Hm Hc Hl Hw Hb Hcost Hdb. split.
  - apply (tb_run_each ops t now0); assumption.
  - rewrite TokenBucketAllow_state.
    apply token_bucket_script_ok; assumption.
Qed.

Lemma C6_bounds_and_refill_stamp_witness :
  (∃ b, tb_state (tb_run {| tb_cfg := defaultPolicy; tb_state := ∅ |}
                    [(0, OpAllow "k" 100); (1000000000, OpAllow "k" 5)])
          !! "k"%string = Some b
        ∧ lastRefill b = 1000000000)
  ∧ ∃ h, snd (store.TokenBucketAllow true ∅ 1000 "k" 60 60 1 60)
           !! "k"%string = Some h
         ∧ store.h_last_refill h = 1000.
Proof.
  destruct (C6_bounds_and_refill_stamp
              {| tb_cfg := defaultPolicy; tb_state := ∅ |} 0
              [(0, OpAllow "k" 100); (1000000000, OpAllow "k" 5)]
              ∅ "k" 1000 60 60 1 60) as [Hrun (h & Hh & _ & Hs)].
  - intros key b E. cbn [tb_state] in E. rewrite lookup_empty in E.
    discriminate.
  - simpl. lia.
  - repeat constructor; simpl; lia.
  - lia.
  - lia.
  - lia.
  - lia.
  - intros h E. rewrite lookup_empty in E. discriminate.
  - split.
    + destruct (Hrun 1%nat 1000000000 (OpAllow "k" 5) eq_refl)
        as (_ & Hb & _). exact Hb.
    + exists h. split; [exact Hh|exact Hs].
Defined.

(** C6, as stated, fails for a clock reading behind the stored stamp:
    the script is handed the caller's wall clock as its first argument.
    A first run at 2000 ms with cost 60 empties the bucket and stamps it
    2000; a second run at 1000 ms with cost 1 is denied, stores -1
    tokens and moves the stamp back to 1000. [TokenBucketAllow] stores
    what the script stores. *)
Lemma C6_counterexample :
  let db1 := snd (store.token_bucket_script ∅ "k" 2000 60 60 60 60) in
  let out := store.token_bucket_script db1 "k" 1000 60 60 1 60 in
  ∃ h1 h2, db1 !! "k"%string = Some h1 ∧ snd out !! "k"%string = Some h2
    ∧ fst out = (0, -1, 3000)
    ∧ (store.h_tokens h1 == 0)%Q ∧ store.h_last_refill h1 = 2000
    ∧ (store.h_tokens h2 == -1)%Q ∧ store.h_last_refill h2 = 1000
    ∧ snd (store.TokenBucketAllow true db1 1000 "k" 60 60 1 60) = snd out.
Proof.
  cbv zeta. eexists _, _.
  split; [vm_compute; reflexivity|].
  split; [vm_compute; reflexivity|].
  split; [vm_compute; reflexivity|].
  repeat split; try reflexivity.
Qed.

(** ** Token bucket: zero cost *)

Lemma to_int64_Qeq (x y : Q) : (x == y)%Q → to_int64 x = to_int64 y.
Proof. intros E. unfold to_int64. rewrite (trunc_Qeq x y E). reflexivity. Qed.

(** C7, as the code has it. [Allow] with cost 0 on a bucket with
    non-negative tokens, read at a clock not behind its stamp (or on a
    key with no bucket yet), is allowed and subtracts nothing; it does
    store the refill: the bucket of the key then holds the refilled
    token count and the stamp [now], which is the bucket [GetQuota]
    stores, and [remaining] is that count truncated. The buckets of the
    other keys are left as they were. *)
Theorem C7_zero_cost_stores_the_refill (t : TokenBucketLimiter) (now : Time)
    (key : string) :
  (∀ b, tb_state t !! key = Some b → (0 <= tokens b)%Q ∧ lastRefill b <= now) →
  let out := TokenBucketLimiter_Allow t now key 0 in
  let refilled :=
    refill (tb_cfg t) (bucket_at (tb_cfg t) (tb_state t) now key) now in
  ∃ r b', fst out = (Some r, None)
    ∧ Allowed r = true
    ∧ tb_state (snd out) !! key = Some b'
    ∧ (tokens b' == tokens refilled)%Q
    ∧ lastRefill b' = now
    ∧ Remaining r = to_int64 (tokens refilled)
    ∧ tb_state (snd (TokenBucketLimiter_GetQuota t now key)) !! key
      = Some refilled
    ∧ ∀ k, k ≠ key → tb_state (snd out) !! k = tb_state t !! k.
Proof.
  intros Hb out refilled.
  assert (Hpos : (0 <= tokens refilled)%Q).
  { subst refilled. unfold refill. simpl. apply min_glb.
    - apply of_int_nonneg. pose proof (burst_of_pos (tb_cfg t)). lia.
    - assert (H0 : (0 <= tokens (bucket_at (tb_cfg t) (tb_state t) now key))%Q
                   ∧ lastRefill (bucket_at (tb_cfg t) (tb_state t) now key) <= now).
      { unfold bucket_at. destruct (tb_state t !! key) as [b|] eqn:E.
        - apply Hb. reflexivity.
        - simpl. split; [|lia]. apply of_int_nonneg.
          pose proof (burst_of_pos (tb_cfg t)). lia. }
      destruct H0 as [Ht Hl].
      pose proof (Seconds_nonneg _ (Sub_nonneg _ _ Hl)) as He.
      pose proof (refillPerSec_pos (tb_cfg t)) as Hr.
      pose proof (Qmult_le_0_compat _ _ He (Qlt_le_weak _ _ Hr)). lra. }
  assert (Hge : geb (tokens refilled) (of_int 0) = true).
  { apply geb_true. exact Hpos. }
  subst out. unfold TokenBucketLimiter_Allow. fold refilled. rewrite Hge.
  eexists _, _. simpl. split; [reflexivity|]. split; [reflexivity|].
  split; [apply lookup_insert_eq|]. simpl.
  split; [unfold of_int, inject_Z; ring|].
  split; [reflexivity|].
  split; [apply to_int64_Qeq; unfold of_int, inject_Z; ring|].
  split; [apply lookup_insert_eq|].
  intros k Hk. apply lookup_insert_ne. congruence.
Qed.

Lemma C7_zero_cost_stores_the_refill_witness :
  ∃ r b', fst (TokenBucketLimiter_Allow
                 {| tb_cfg := defaultPolicy; tb_state := ∅ |} 0 "k" 0)
          = (Some r, None)
    ∧ Allowed r = true
    ∧ tb_state (snd (TokenBucketLimiter_Allow
                       {| tb_cfg := defaultPolicy; tb_state := ∅ |} 0 "k" 0))
        !! "k"%string = Some b'
    ∧ lastRefill b' = 0.
Proof.
  destruct (C7_zero_cost_stores_the_refill
              {| tb_cfg := defaultPolicy; tb_state := ∅ |} 0 "k")
    as (r & b' & Hr & Ha & Hs & _ & Hl & _).
  - intros b E. cbn [tb_state] in E. rewrite lookup_empty in E. discriminate.
  - exists r, b'. auto.
Defined.

(** C7, as stated, fails: under the default policy a bucket emptied at
    0 s holds 0 tokens with stamp 0; a request of cost 0 at 6 s is
    allowed and leaves the bucket with 10 tokens and stamp 6 s. *)
Lemma C7_counterexample :
  let t1 := snd (TokenBucketLimiter_Allow
                   {| tb_cfg := defaultPolicy; tb_state := ∅ |} 0 "k" 100) in
  let out := TokenBucketLimiter_Allow t1 6000000000 "k" 0 in
  ∃ b0 b1 r, tb_state t1 !! "k"%string = Some b0
    ∧ fst out = (Some r, None) ∧ Allowed r = true
    ∧ tb_state (snd out) !! "k"%string = Some b1
    ∧ (tokens b0 == 0)%Q ∧ lastRefill b0 = 0
    ∧ (tokens b1 == 10)%Q ∧ lastRefill b1 = 6000000000.
Proof.
  cbv zeta. eexists _, _, _.
  split; [vm_compute; reflexivity|].
  split; [vm_compute; reflexivity|].
  split; [reflexivity|].
  split; [vm_compute; reflexivity|].
  repeat split; reflexivity.
Qed.

(** ** Token bucket: reset time and wait *)

Lemma reset_whole_seconds (now : Time) (x : Q) :
  in_range (whole_seconds x) →
  Add now (mul (Duration_of_float x) Second) = now + whole_seconds x.
Proof.
  unfold whole_seconds, Add, mul, Duration_of_float. intros H.
  rewrite to_int64_in_range.
  - rewrite wrap64_in_range by exact H. reflexivity.
  - unfold in_range, min_int64, max_int64, Second in *. lia.
Qed.




(** C2. Under policy limit 5, window 60 s, burst 5, five requests of cost
    1 at 0 s are allowed with [remaining] 4, 3, 2, 1, 0. A request of
    cost 1 at 0.5 s then finds 1/24 token after the refill and is
    denied; the wait is (1 - 1/24) / (5/60) = 11.5 s, whose ceiling is
    12. [TokenBucketLimiter.Allow] returns 11. *)
Theorem C2_retry_after_is_truncated :
  let cfg := {| Limit := 5; Burst := 5; Window := 60 * Second;
                Algorithm_ := AlgoTokenBucket |} in
  let t0 := {| tb_cfg := cfg; tb_state := ∅ |} in
  let s1 := replicate 5 (0, OpAllow "k" 1) in
  let out := TokenBucketLimiter_Allow (tb_run t0 s1) 500000000 "k" 1 in
  map (λ reply, (Allowed <$> fst reply, Remaining <$> fst reply))
      (tb_replies t0 s1)
  = [(Some true, Some 4); (Some true, Some 3); (Some true, Some 2);
     (Some true, Some 1); (Some true, Some 0)]
  ∧ ∃ r bkt, fst out = (Some r, None)
      ∧ tb_state (snd out) !! "k"%string = Some bkt
      ∧ Allowed r = false
      ∧ (tokens bkt == 1 # 24)%Q
      ∧ (seconds_to cfg (of_int 1) (tokens bkt) == 23 # 2)%Q
      ∧ spec_retry_after cfg 1 (tokens bkt) = 12
      ∧ RetryAfterSeconds r = 11.
Proof.
  cbv zeta. split; [vm_compute; reflexivity|].
  eexists _, _.
  split; [vm_compute; reflexivity|].
  split; [vm_compute; reflexivity|].
  repeat split; reflexivity.
Qed.

Lemma Sub_add_l (now : Time) (d : Duration) :
  in_range d → Sub (now + d) now = d.
Proof.
  intros H. unfold Sub. replace (now + d - now) with d by lia.
  apply sat64_in_range. exact H.
Qed.


(** ** Scenarios of the design the engine meets *)

(** After five requests of cost 1 at 0 s under limit 5, window 60 s,
    burst 5, a request of cost 1 at 60 s is allowed with 4 remaining. *)
Example scenario_refill_after_window :
  let t0 := {| tb_cfg := mkConfig 5 5 (60 * Second) AlgoTokenBucket;
               tb_state := ∅ |} in
  let t1 := tb_run t0 (replicate 5 (0, OpAllow "k" 1)) in
  ∃ r, fst (TokenBucketLimiter_Allow t1 60000000000 "k" 1) = (Some r, None)
    ∧ Allowed r = true ∧ Remaining r = 4.
Proof. cbv zeta. eexists. split; [vm_compute; reflexivity|]. split; reflexivity. Qed.

(** Tenant A exhausted, tenant B under the same policy is allowed with
    [limit - 1] remaining. *)
Example scenario_two_tenants :
  let '(s, w) := server_of (mkGatewayConfig "fast") (world0 true) in
  let wA := snd (handleAllow s w (request "A" "test-key" "" "100") 0 0) in
  status (fst (handleAllow s wA (request "A" "test-key" "" "") 0 0))
    = StatusTooManyRequests
  ∧ body (fst (handleAllow s wA (request "B" "test-key" "" "") 0 0))
    = AllowedBody 99 100 (-58).
Proof. vm_compute. split; reflexivity. Qed.

(** * Further properties of the code *)

(** ** Token bucket: decisions *)

Lemma trunc_bounds (x : Q) (B : Z) :
  (0 <= x)%Q → (x <= of_int B)%Q → 0 <= trunc x <= B.
Proof.
  intros H0 HB. rewrite trunc_floor by exact H0. split.
  - change 0 with (Qfloor 0). apply Qfloor_resp_le. exact H0.
  - rewrite <- (Qfloor_Z B). apply Qfloor_resp_le. exact HB.
Qed.

Lemma of_int_minus (a b : Z) : (of_int (a - b) == of_int a - of_int b)%Q.
Proof.
  unfold of_int. unfold Z.sub. rewrite inject_Z_plus, inject_Z_opp. ring.
Qed.

Lemma of_int_le (a b : Z) : a <= b → (of_int a <= of_int b)%Q.
Proof. intros H. unfold of_int. rewrite <- Zle_Qle. exact H. Qed.

Lemma of_int_lt (a b : Z) : a < b → (of_int a < of_int b)%Q.
Proof. intros H. unfold of_int. rewrite <- Zlt_Qlt. exact H. Qed.

Lemma burst_of_in_range (cfg : Config) :
  Config_typed cfg → 0 < burst_of cfg <= max_int64.
Proof.
  intros (Hl & Hb & _). split; [apply burst_of_pos|].
  unfold burst_of, limit_of, in_range, max_int64 in *.
  destruct (Z.leb_spec (Burst cfg) 0); [|lia].
  destruct (Z.leb_spec (Limit cfg) 0); lia.
Qed.

Lemma to_int64_bounds (x : Q) (B : Z) :
  (0 <= x)%Q → (x <= of_int B)%Q → B <= max_int64 →
  0 <= to_int64 x <= B ∧ to_int64 x = trunc x.
Proof.
  intros H0 HB Hmax. pose proof (trunc_bounds x B H0 HB) as Ht.
  rewrite to_int64_in_range; [auto|].
  unfold in_range, min_int64, max_int64 in *. lia.
Qed.

(** The tokens of the refilled bucket of a key never exceed the burst,
    whatever was stored. *)
Lemma refill_le_burst (cfg : Config) (b : tokenBucket) (now : Time) :
  (tokens (refill cfg b now) <= of_int (burst_of cfg))%Q.
Proof. unfold refill. simpl. apply min_le_l. Qed.

(** X4. A key the engine has not seen starts with a full bucket: its
    first request, of a cost between 0 and the burst, is allowed and
    leaves [burst - cost] remaining. *)
Theorem TokenBucket_fresh_key_is_full (t : TokenBucketLimiter) (now : Time)
    (key : string) (cost : Z) :
  Config_typed (tb_cfg t) →
  tb_state t !! key = None →
  0 <= cost <= burst_of (tb_cfg t) →
  ∃ r, fst (TokenBucketLimiter_Allow t now key cost) = (Some r, None)
    ∧ Allowed r = true
    ∧ Remaining r = burst_of (tb_cfg t) - cost
    ∧ Limit_ r = limit_of (tb_cfg t).
Proof.
  intros Hty Hnone [Hc0 Hc1].
  pose proof (burst_of_in_range _ Hty) as HB.
  unfold TokenBucketLimiter_Allow, bucket_at. rewrite Hnone.
  set (b := refill (tb_cfg t) _ now).
  assert (Hb : (tokens b == of_int (burst_of (tb_cfg t)))%Q).
  { subst b. unfold refill, limiter.min. cbn [tokens lastRefill].
    assert (He : (Seconds (Sub now now) == 0)%Q).
    { unfold Sub. rewrite Z.sub_diag. reflexivity. }
    destruct (ltb _ _) eqn:E; [reflexivity|].
    rewrite He. ring. }
  assert (Hge : geb (tokens b) (of_int cost) = true).
  { apply geb_true.
    pose proof (of_int_le _ _ Hc1). lra. }
  clearbody b. rewrite Hge. eexists. split; [reflexivity|]. cbn.
  split; [reflexivity|]. split; [|reflexivity].
  rewrite (to_int64_Qeq _ (of_int (burst_of (tb_cfg t) - cost))).
  - rewrite to_int64_in_range; rewrite trunc_of_int; [reflexivity|].
    unfold in_range, min_int64, max_int64 in *. lia.
  - cbn [tokens]. pose proof (of_int_minus (burst_of (tb_cfg t)) cost). lra.
Qed.

Lemma TokenBucket_fresh_key_is_full_witness :
  ∃ r, fst (TokenBucketLimiter_Allow
              {| tb_cfg := defaultPolicy; tb_state := ∅ |} 0 "k" 30)
       = (Some r, None)
    ∧ Allowed r = true ∧ Remaining r = burst_of defaultPolicy - 30
    ∧ Limit_ r = limit_of defaultPolicy.
Proof.
  apply (TokenBucket_fresh_key_is_full
           {| tb_cfg := defaultPolicy; tb_state := ∅ |} 0 "k" 30).
  - repeat split; vm_compute; discriminate.
  - apply lookup_empty.
  - split; vm_compute; discriminate.
Defined.

(** X5. A request costing more than the burst is denied whatever the
    bucket holds, and is not charged: the bucket stored is the refilled
    one, the one [GetQuota] stores. *)
Theorem TokenBucket_cost_above_burst_denied (t : TokenBucketLimiter)
    (now : Time) (key : string) (cost : Z) :
  burst_of (tb_cfg t) < cost →
  ∃ r, fst (TokenBucketLimiter_Allow t now key cost) = (Some r, None)
    ∧ Allowed r = false
    ∧ snd (TokenBucketLimiter_Allow t now key cost)
      = snd (TokenBucketLimiter_GetQuota t now key).
Proof.
  intros Hc. unfold TokenBucketLimiter_Allow, TokenBucketLimiter_GetQuota.
  set (b := refill (tb_cfg t) _ now).
  assert (Hlt : geb (tokens b) (of_int cost) = false).
  { apply geb_false. eapply Qle_lt_trans; [apply refill_le_burst|].
    apply of_int_lt. exact Hc. }
  rewrite Hlt. eexists. split; [reflexivity|]. split; reflexivity.
Qed.

Lemma TokenBucket_cost_above_burst_denied_witness :
  ∃ r, fst (TokenBucketLimiter_Allow
              {| tb_cfg := defaultPolicy; tb_state := ∅ |} 0 "k" 101)
       = (Some r, None)
    ∧ Allowed r = false
    ∧ snd (TokenBucketLimiter_Allow
             {| tb_cfg := defaultPolicy; tb_state := ∅ |} 0 "k" 101)
      = snd (TokenBucketLimiter_GetQuota
               {| tb_cfg := defaultPolicy; tb_state := ∅ |} 0 "k").
Proof.
  apply (TokenBucket_cost_above_burst_denied
           {| tb_cfg := defaultPolicy; tb_state := ∅ |} 0 "k" 101).
  vm_compute. reflexivity.
Defined.

(** X6. For a bucket with non-negative tokens read at a clock not behind
    its stamp, and a non-negative cost, [remaining] lies between 0 and
    the burst; when the request is allowed, [remaining + cost] does not
    exceed the burst either. *)
Theorem TokenBucket_remaining_bounds (t : TokenBucketLimiter) (now : Time)
    (key : string) (cost : Z) :
  Config_typed (tb_cfg t) →
  0 <= cost →
  (∀ b, tb_state t !! key = Some b → (0 <= tokens b)%Q ∧ lastRefill b <= now) →
  ∃ r, fst (TokenBucketLimiter_Allow t now key cost) = (Some r, None)
    ∧ 0 <= Remaining r <= burst_of (tb_cfg t)
    ∧ (Allowed r = true → Remaining r + cost <= burst_of (tb_cfg t)).
Proof.
  intros Hty Hc Hb.
  pose proof (burst_of_in_range _ Hty) as HB.
  unfold TokenBucketLimiter_Allow.
  set (b := refill (tb_cfg t) (bucket_at (tb_cfg t) (tb_state t) now key) now).
  assert (H0 : (0 <= tokens b)%Q).
  { subst b. unfold refill. cbn [tokens]. apply min_glb.
    - apply of_int_nonneg. lia.
    - assert (Hat : (0 <= tokens (bucket_at (tb_cfg t) (tb_state t) now key))%Q
                    ∧ lastRefill (bucket_at (tb_cfg t) (tb_state t) now key) <= now).
      { unfold bucket_at. destruct (tb_state t !! key) as [b0|] eqn:E.
        - apply Hb. reflexivity.
        - cbn. split; [apply of_int_nonneg|]; lia. }
      destruct Hat as [Ht Hl].
      pose proof (Seconds_nonneg _ (Sub_nonneg _ _ Hl)) as He.
      pose proof (refillPerSec_pos (tb_cfg t)) as Hr.
      pose proof (Qmult_le_0_compat _ _ He (Qlt_le_weak _ _ Hr)). lra. }
  pose proof (refill_le_burst (tb_cfg t)
                (bucket_at (tb_cfg t) (tb_state t) now key) now) as H1.
  fold b in H1.
  pose proof (of_int_nonneg cost Hc) as Hcq. clearbody b.
  destruct (geb (tokens b) (of_int cost)) eqn:E.
  - apply geb_true in E. eexists. split; [reflexivity|]. cbn.
    assert (Hx : (0 <= tokens b - of_int cost)%Q) by lra.
    assert (Hy : (tokens b - of_int cost
                  <= of_int (burst_of (tb_cfg t) - cost))%Q).
    { pose proof (of_int_minus (burst_of (tb_cfg t)) cost). lra. }
    destruct (to_int64_bounds _ (burst_of (tb_cfg t) - cost) Hx Hy) as [Hr _];
      [lia|].
    split; [lia|]. intros _. lia.
  - eexists. split; [reflexivity|]. cbn.
    destruct (to_int64_bounds _ (burst_of (tb_cfg t)) H0 H1) as [Hr _]; [lia|].
    split; [exact Hr|]. discriminate.
Qed.

Lemma TokenBucket_remaining_bounds_witness :
  ∃ r, fst (TokenBucketLimiter_Allow
              {| tb_cfg := defaultPolicy; tb_state := ∅ |} 0 "k" 30)
       = (Some r, None)
    ∧ 0 <= Remaining r <= burst_of defaultPolicy
    ∧ (Allowed r = true → Remaining r + 30 <= burst_of defaultPolicy).
Proof.
  apply (TokenBucket_remaining_bounds
           {| tb_cfg := defaultPolicy; tb_state := ∅ |} 0 "k" 30).
  - repeat split; vm_compute; discriminate.
  - lia.
  - intros b E. cbn [tb_state] in E. rewrite lookup_empty in E. discriminate.
Defined.

(** ** Token bucket: budget *)

Lemma Seconds_plus (a b : Duration) :
  (Seconds (a + b)%Z == Seconds a + Seconds b)%Q.
Proof.
  rewrite !Seconds_eq. unfold Qeq, Qplus. simpl. lia.
Qed.

Lemma Seconds_0 : (Seconds 0%Z == 0)%Q.
Proof. reflexivity. Qed.

Lemma Seconds_le (a b : Duration) : a <= b → (Seconds a <= Seconds b)%Q.
Proof. intros H. rewrite !Seconds_eq. unfold Qle. simpl. lia. Qed.

Lemma Sub_le (now last : Time) :
  last <= now → (Seconds (Sub now last) <= Seconds (now - last)%Z)%Q.
Proof.
  intros H. apply Seconds_le. unfold Sub, sat64, min_int64, max_int64.
  destruct (Z.ltb_spec (now - last) (- 2 ^ 63)); [lia|].
  destruct (Z.ltb_spec (2 ^ 63 - 1) (now - last)); lia.
Qed.

Lemma clock_after_ge (now0 : Time) (ops : list (Time * op)) :
  clock_monotone now0 ops → now0 <= clock_after now0 ops.
Proof.
  revert now0. induction ops as [|[now o] ops IH]; intros now0 H; simpl.
  - lia.
  - destruct H as [H1 H2]. specialize (IH now H2). lia.
Qed.

Lemma min_mono_r (B x y : Q) :
  (x <= y)%Q → (limiter.min B x <= limiter.min B y)%Q.
Proof.
  intros H. apply min_glb.
  - apply min_le_l.
  - eapply Qle_trans; [apply min_le_r|exact H].
Qed.

Lemma min_shift (B x d : Q) :
  (0 <= d)%Q → (limiter.min B (x + d) <= limiter.min B x + d)%Q.
Proof.
  intros Hd. unfold limiter.min.
  destruct (ltb B (x + d)%Q) eqn:E1; destruct (ltb B x) eqn:E2;
    try apply ltb_true in E1; try apply ltb_false in E1;
    try apply ltb_true in E2; try apply ltb_false in E2; lra.
Qed.

(** The refill never shows more than the virtual tokens. *)
Lemma refill_le_virtual (cfg : Config) (b : tokenBucket) (now : Time) :
  lastRefill b <= now →
  (tokens (refill cfg b now) <= virtual_tokens cfg b now)%Q.
Proof.
  intros H. unfold refill, virtual_tokens. cbn [tokens].
  apply min_mono_r.
  pose proof (Sub_le now (lastRefill b) H) as Hs.
  pose proof (refillPerSec_pos cfg) as Hr.
  apply Qplus_le_r. apply Qmult_le_compat_r; [exact Hs|].
  apply Qlt_le_weak. exact Hr.
Qed.

(** The virtual tokens grow at most at the refill rate. *)
Lemma virtual_tokens_rate (cfg : Config) (b : tokenBucket) (t1 t2 : Time) :
  t1 <= t2 →
  (virtual_tokens cfg b t2
   <= virtual_tokens cfg b t1 + refillPerSec cfg * Seconds (t2 - t1)%Z)%Q.
Proof.
  intros H. unfold virtual_tokens.
  pose proof (refillPerSec_pos cfg) as Hr.
  pose proof (Seconds_nonneg (t2 - t1) ltac:(lia)) as Hs.
  pose proof (Qmult_le_0_compat _ _ (Qlt_le_weak _ _ Hr) Hs) as Hp.
  eapply Qle_trans; [|apply min_shift; exact Hp].
  apply min_mono_r.
  assert (E : (Seconds (t2 - lastRefill b)%Z
               == Seconds (t1 - lastRefill b)%Z + Seconds (t2 - t1)%Z)%Q).
  { rewrite <- Seconds_plus. f_equiv. lia. }
  rewrite E. apply Qle_lteq. right. ring.
Qed.

Lemma virtual_tokens_le_burst (cfg : Config) (b : tokenBucket) (t : Time) :
  (virtual_tokens cfg b t <= of_int (burst_of cfg))%Q.
Proof. apply min_le_l. Qed.

Lemma virtual_tokens_nonneg (cfg : Config) (b : tokenBucket) (t : Time) :
  (0 <= tokens b)%Q → lastRefill b <= t → (0 <= virtual_tokens cfg b t)%Q.
Proof.
  intros H0 Hl. unfold virtual_tokens. apply min_glb.
  - apply of_int_nonneg. pose proof (burst_of_pos cfg). lia.
  - pose proof (refillPerSec_pos cfg) as Hr.
    pose proof (Seconds_nonneg (t - lastRefill b) ltac:(lia)) as Hs.
    pose proof (Qmult_le_0_compat _ _ Hs (Qlt_le_weak _ _ Hr)). lra.
Qed.

(** The bucket the engine starts from at a later reading shows no more
    than the one it starts from now, plus the refill in between. *)
Lemma bucket_at_virtual (cfg : Config) (st : gmap string tokenBucket)
    (key : string) (now0 now : Time) :
  now0 <= now →
  (virtual_tokens cfg (bucket_at cfg st now key) now
   <= virtual_tokens cfg (bucket_at cfg st now0 key) now0
      + refillPerSec cfg * Seconds (now - now0)%Z)%Q.
Proof.
  intros H. unfold bucket_at. destruct (st !! key) as [b|].
  - apply virtual_tokens_rate. exact H.
  - pose proof (refillPerSec_pos cfg) as Hr.
    pose proof (Seconds_nonneg (now - now0) ltac:(lia)) as Hs.
    pose proof (Qmult_le_0_compat _ _ (Qlt_le_weak _ _ Hr) Hs) as Hp.
    assert (E : ∀ t, (virtual_tokens cfg
                        {| tokens := of_int (burst_of cfg); lastRefill := t |} t
                      == of_int (burst_of cfg))%Q).
    { intros t. unfold virtual_tokens, limiter.min. cbn [tokens lastRefill].
      rewrite Z.sub_diag.
      destruct (ltb _ _); [reflexivity|]. rewrite Seconds_0. ring. }
    rewrite !E. lra.
Qed.

(** What an operation stores under its key: the granted cost and the
    tokens stored add up to the refilled tokens, the stamp is [now], and
    the tokens stored are not negative when the refilled ones are not. *)
Lemma tb_step_on_key (t : TokenBucketLimiter) (now : Time) (o : op) :
  ∃ b', tb_state (snd (tb_step t now o)) = <[op_key o := b']> (tb_state t)
    ∧ tb_cfg (snd (tb_step t now o)) = tb_cfg t
    ∧ lastRefill b' = now
    ∧ ((match o with
         | OpAllow _ cost =>
           if reply_allowed (fst (tb_step t now o)) then of_int cost else 0
         | OpQuota _ => 0
         end) + tokens b'
        == tokens (refill (tb_cfg t)
                     (bucket_at (tb_cfg t) (tb_state t) now (op_key o)) now))%Q
    ∧ ((0 <= tokens (refill (tb_cfg t)
                       (bucket_at (tb_cfg t) (tb_state t) now (op_key o)) now))%Q
       → (0 <= tokens b')%Q).
Proof.
  destruct o as [key cost|key]; cbn [tb_step op_key].
  - exists (charged (refill (tb_cfg t)
                       (bucket_at (tb_cfg t) (tb_state t) now key) now) cost).
    rewrite Allow_state. cbn [tb_state tb_cfg].
    split; [reflexivity|]. split; [reflexivity|].
    change (reply_allowed (fst (TokenBucketLimiter_Allow t now key cost)))
      with (geb (tokens (refill (tb_cfg t)
                           (bucket_at (tb_cfg t) (tb_state t) now key) now))
                (of_int cost)).
    unfold charged.
    set (b := refill (tb_cfg t) _ now).
    assert (Hb : lastRefill b = now) by reflexivity. clearbody b.
    destruct (geb (tokens b) (of_int cost)) eqn:E; cbn [tokens lastRefill].
    + split; [exact Hb|]. split; [ring|]. intros _. apply geb_true in E. lra.
    + split; [exact Hb|]. split; [ring|auto].
  - exists (refill (tb_cfg t) (bucket_at (tb_cfg t) (tb_state t) now key) now).
    rewrite GetQuota_state. cbn [tb_state tb_cfg].
    split; [reflexivity|]. split; [reflexivity|].
    split; [reflexivity|]. split; [ring|auto].
Qed.

Lemma tb_granted_bound (ops : list (Time * op)) :
  ∀ (t : TokenBucketLimiter) (now0 : Time) (key : string),
  (∀ b, tb_state t !! key = Some b → (0 <= tokens b)%Q ∧ lastRefill b <= now0) →
  clock_monotone now0 ops →
  (of_int (tb_granted t key ops)
   <= virtual_tokens (tb_cfg t)
        (bucket_at (tb_cfg t) (tb_state t) now0 key) now0
      + refillPerSec (tb_cfg t) * Seconds (clock_after now0 ops - now0)%Z)%Q.
Proof.
  induction ops as [|[now o] ops IH]; intros t now0 key Hinv Hm.
  - simpl. rewrite Z.sub_diag.
    assert (Hat : (0 <= tokens (bucket_at (tb_cfg t) (tb_state t) now0 key))%Q
                  ∧ lastRefill (bucket_at (tb_cfg t) (tb_state t) now0 key)
                    <= now0).
    { unfold bucket_at. destruct (tb_state t !! key) as [b|] eqn:E.
      - apply Hinv. reflexivity.
      - simpl. split; [|lia]. apply of_int_nonneg.
        pose proof (burst_of_pos (tb_cfg t)). lia. }
    pose proof (virtual_tokens_nonneg (tb_cfg t) _ now0 (proj1 Hat) (proj2 Hat)).
    change (of_int 0) with 0%Q. rewrite Seconds_0. lra.
  - destruct Hm as [Hle Hm].
    pose proof (clock_after_ge now ops Hm) as HT.
    destruct (tb_step_on_key t now o) as (b' & Hst' & Hcfg & Hl' & Hsum & Hpos).
    pose proof (refillPerSec_pos (tb_cfg t)) as Hr.
    (* the time from [now0] to the end, cut at [now] *)
    assert (Esec : (Seconds (clock_after now ops - now0)%Z
                    == Seconds (clock_after now ops - now)%Z
                       + Seconds (now - now0)%Z)%Q).
    { rewrite <- Seconds_plus. f_equiv. lia. }
    pose proof (bucket_at_virtual (tb_cfg t) (tb_state t) key now0 now Hle)
      as Hvirt.
    assert (Hat : (0 <= tokens (bucket_at (tb_cfg t) (tb_state t) now key))%Q
                  ∧ lastRefill (bucket_at (tb_cfg t) (tb_state t) now key)
                    <= now).
    { unfold bucket_at. destruct (tb_state t !! key) as [b|] eqn:E.
      - destruct (Hinv b eq_refl). split; [assumption|lia].
      - simpl. split; [|lia]. apply of_int_nonneg.
        pose proof (burst_of_pos (tb_cfg t)). lia. }
    destruct Hat as [Hat0 Hatl].
    cbn [tb_granted clock_after].
    destruct (decide (op_key o = key)) as [Hk|Hk].
    + (* the operation is on the key *)
      subst key.
      assert (Hrefill0 :
        (0 <= tokens (refill (tb_cfg t)
                        (bucket_at (tb_cfg t) (tb_state t) now (op_key o)) now))%Q).
      { unfold refill. cbn [tokens]. apply min_glb.
        - apply of_int_nonneg. pose proof (burst_of_pos (tb_cfg t)). lia.
        - pose proof (Seconds_nonneg _ (Sub_nonneg _ _ Hatl)) as He.
          pose proof (Qmult_le_0_compat _ _ He (Qlt_le_weak _ _ Hr)). lra. }
      specialize (Hpos Hrefill0).
      assert (Hinv' : ∀ b, tb_state (snd (tb_step t now o)) !! op_key o = Some b →
                           (0 <= tokens b)%Q ∧ lastRefill b <= now).
      { intros b E. rewrite Hst', lookup_insert_eq in E. injection E as <-.
        split; [exact Hpos|lia]. }
      specialize (IH (snd (tb_step t now o)) now (op_key o) Hinv' Hm).
      rewrite Hcfg in IH.
      assert (Hb' : bucket_at (tb_cfg t) (tb_state (snd (tb_step t now o))) now
                              (op_key o) = b').
      { unfold bucket_at. rewrite Hst', lookup_insert_eq. reflexivity. }
      rewrite Hb' in IH.
      assert (Hv' : (virtual_tokens (tb_cfg t) b' now <= tokens b')%Q).
      { unfold virtual_tokens. rewrite Hl', Z.sub_diag.
        eapply Qle_trans; [apply min_le_r|]. rewrite Seconds_0. lra. }
      pose proof (refill_le_virtual (tb_cfg t) _ now Hatl) as Hrv.
      assert (Hg : (of_int
                      (match o with
                       | OpAllow k cost =>
                         if String.eqb k (op_key o)
                            && reply_allowed (fst (tb_step t now o))
                         then cost else 0
                       | OpQuota _ => 0
                       end)
                    == match o with
                       | OpAllow _ cost =>
                         if reply_allowed (fst (tb_step t now o))
                         then of_int cost else 0
                       | OpQuota _ => 0
                       end)%Q).
      { destruct o as [k cost|k]; [|reflexivity]. cbn [op_key].
        rewrite String.eqb_refl. cbn [andb].
        destruct (reply_allowed _); reflexivity. }
      unfold of_int at 1. rewrite inject_Z_plus. fold (of_int (tb_granted
        (snd (tb_step t now o)) (op_key o) ops)).
      match goal with |- (inject_Z ?g + _ <= _)%Q => fold (of_int g) end.
      rewrite Hg.
      set (pa := (refillPerSec (tb_cfg t) * Seconds (clock_after now ops - now)%Z)%Q) in *.
      set (pb := (refillPerSec (tb_cfg t) * Seconds (now - now0)%Z)%Q) in *.
      assert (Epc : (refillPerSec (tb_cfg t) * Seconds (clock_after now ops - now0)%Z
                     == pa + pb)%Q).
      { subst pa pb. rewrite Esec. ring. }
      rewrite Epc. clearbody pa pb. lra.
    + (* the operation is on another key *)
      assert (Hsame : tb_state (snd (tb_step t now o)) !! key = tb_state t !! key).
      { rewrite Hst'. apply lookup_insert_ne. exact Hk. }
      assert (Hinv' : ∀ b, tb_state (snd (tb_step t now o)) !! key = Some b →
                           (0 <= tokens b)%Q ∧ lastRefill b <= now).
      { intros b E. rewrite Hsame in E. destruct (Hinv b E). split; [assumption|lia]. }
      specialize (IH (snd (tb_step t now o)) now key Hinv' Hm).
      rewrite Hcfg in IH.
      assert (Hb' : bucket_at (tb_cfg t) (tb_state (snd (tb_step t now o))) now key
                    = bucket_at (tb_cfg t) (tb_state t) now key).
      { unfold bucket_at. rewrite Hsame. reflexivity. }
      rewrite Hb' in IH.
      assert (Hg : match o with
                   | OpAllow k cost =>
                     if String.eqb k key && reply_allowed (fst (tb_step t now o))
                     then cost else 0
                   | OpQuota _ => 0
                   end = 0).
      { destruct o as [k cost|k]; [|reflexivity]. cbn [op_key] in Hk.
        rewrite (eqb_false_of_neq _ _ Hk). reflexivity. }
      rewrite Hg, Z.add_0_l.
      set (pa := (refillPerSec (tb_cfg t) * Seconds (clock_after now ops - now)%Z)%Q) in *.
      set (pb := (refillPerSec (tb_cfg t) * Seconds (now - now0)%Z)%Q) in *.
      assert (Epc : (refillPerSec (tb_cfg t) * Seconds (clock_after now ops - now0)%Z
                     == pa + pb)%Q).
      { subst pa pb. rewrite Esec. ring. }
      rewrite Epc. clearbody pa pb. lra.
Qed.

(** X7. Budget of a key. From a bucket with non-negative tokens and a
    stamp not after [now0], over any sequence of operations served at
    clock readings that do not run backwards, the total cost granted to
    the key is at most the burst plus the refill rate times the time
    elapsed since [now0]. *)
Theorem TokenBucket_budget (t : TokenBucketLimiter) (now0 : Time)
    (key : string) (ops : list (Time * op)) :
  (∀ b, tb_state t !! key = Some b → (0 <= tokens b)%Q ∧ lastRefill b <= now0) →
  clock_monotone now0 ops →
  (of_int (tb_granted t key ops)
   <= of_int (burst_of (tb_cfg t))
      + refillPerSec (tb_cfg t) * Seconds (clock_after now0 ops - now0)%Z)%Q.
Proof.
  intros Hinv Hm.
  eapply Qle_trans; [apply (tb_granted_bound ops t now0 key Hinv Hm)|].
  apply Qplus_le_l. apply virtual_tokens_le_burst.
Qed.

Lemma TokenBucket_budget_witness :
  (of_int (tb_granted {| tb_cfg := defaultPolicy; tb_state := ∅ |} "k"
             [(0, OpAllow "k" 60); (1000000000, OpAllow "k" 60);
              (30000000000, OpAllow "k" 60)]%Z)
   <= of_int (burst_of defaultPolicy)
      + refillPerSec defaultPolicy
        * Seconds (clock_after 0
                     [(0, OpAllow "k" 60); (1000000000, OpAllow "k" 60);
                      (30000000000, OpAllow "k" 60)]%Z - 0)%Z)%Q.
Proof.
  apply (TokenBucket_budget {| tb_cfg := defaultPolicy; tb_state := ∅ |} 0 "k"
           [(0, OpAllow "k" 60); (1000000000, OpAllow "k" 60);
            (30000000000, OpAllow "k" 60)]).
  - intros b E. cbn [tb_state] in E. rewrite lookup_empty in E. discriminate.
  - simpl. lia.
Defined.

(** ** Token bucket: a reading before the decision *)

Lemma geb_Qeq (x y c : Q) : (x == y)%Q → geb x c = geb y c.
Proof.
  intros E. destruct (geb x c) eqn:Ex; destruct (geb y c) eqn:Ey;
    try reflexivity;
    try apply geb_true in Ex; try apply geb_false in Ex;
    try apply geb_true in Ey; try apply geb_false in Ey; lra.
Qed.

Lemma tb_result_Qeq (cfg : Config) (now : Time) (cost : Z) (x y : Q) :
  (x == y)%Q → tb_result cfg now cost x = tb_result cfg now cost y.
Proof.
  intros E. unfold tb_result, Duration_of_float.
  rewrite (geb_Qeq x y (of_int cost) E).
  destruct (geb y (of_int cost)).
  - rewrite (to_int64_Qeq (x - of_int cost) (y - of_int cost))
      by (rewrite E; reflexivity).
    rewrite (to_int64_Qeq ((of_int cost - (x - of_int cost)) / refillPerSec cfg)
                          ((of_int cost - (y - of_int cost)) / refillPerSec cfg))
      by (rewrite E; reflexivity).
    reflexivity.
  - rewrite (to_int64_Qeq x y E).
    rewrite (to_int64_Qeq ((of_int cost - x) / refillPerSec cfg)
                          ((of_int cost - y) / refillPerSec cfg))
      by (rewrite E; reflexivity).
    reflexivity.
Qed.

Lemma Allow_result (t : TokenBucketLimiter) (now : Time) (key : string)
    (cost : Z) :
  fst (TokenBucketLimiter_Allow t now key cost)
  = (Some (tb_result (tb_cfg t) now cost
             (tokens (refill (tb_cfg t)
                        (bucket_at (tb_cfg t) (tb_state t) now key) now))),
     None).
Proof.
  unfold TokenBucketLimiter_Allow, tb_result. cbn [fst].
  set (b := refill (tb_cfg t) _ now). clearbody b.
  destruct (geb (tokens b) (of_int cost)); reflexivity.
Qed.

(** A bucket just refilled at [now] is refilled to the same tokens when
    it is read again at [now]. *)
Lemma refill_again (cfg : Config) (b : tokenBucket) (now : Time) :
  (tokens (refill cfg (refill cfg b now) now) == tokens (refill cfg b now))%Q.
Proof.
  pose proof (refill_le_burst cfg b now) as Hle.
  set (b1 := refill cfg b now) in *.
  assert (Hl : lastRefill b1 = now) by reflexivity. clearbody b1.
  unfold refill. cbn [tokens]. rewrite Hl.
  assert (E0 : Sub now now = 0).
  { unfold Sub. rewrite Z.sub_diag. reflexivity. }
  rewrite E0.
  assert (Ez : (Seconds 0%Z * refillPerSec cfg == 0)%Q)
    by (rewrite Seconds_0; ring).
  set (z := (Seconds 0%Z * refillPerSec cfg)%Q) in *. clearbody z.
  unfold limiter.min. destruct (ltb _ _) eqn:E.
  - apply ltb_true in E. lra.
  - lra.
Qed.

(** X8. A quota reading just before a decision, at the same clock
    reading, does not change the decision: [Allow] after [GetQuota]
    returns the result [Allow] alone returns, in every state. *)
Theorem TokenBucket_quota_then_allow (t : TokenBucketLimiter) (now : Time)
    (key : string) (cost : Z) :
  fst (TokenBucketLimiter_Allow
         (snd (TokenBucketLimiter_GetQuota t now key)) now key cost)
  = fst (TokenBucketLimiter_Allow t now key cost).
Proof.
  rewrite !Allow_result, GetQuota_state. cbn [tb_cfg tb_state].
  f_equal. f_equal. apply tb_result_Qeq.
  unfold bucket_at at 1. rewrite lookup_insert_eq.
  apply refill_again.
Qed.

(** X9. A denied [Allow] costs nothing: it stores what a quota reading
    at the same clock stores. *)
Theorem TokenBucket_denied_is_a_reading (t : TokenBucketLimiter) (now : Time)
    (key : string) (cost : Z) :
  reply_allowed (fst (TokenBucketLimiter_Allow t now key cost)) = false →
  snd (TokenBucketLimiter_Allow t now key cost)
  = snd (TokenBucketLimiter_GetQuota t now key).
Proof.
  intros H. rewrite Allow_state, GetQuota_state.
  rewrite Allow_result in H. unfold reply_allowed, tb_result in H.
  cbn [fst Allowed] in H. unfold charged. rewrite H. reflexivity.
Qed.

Lemma TokenBucket_denied_is_a_reading_witness :
  snd (TokenBucketLimiter_Allow {| tb_cfg := defaultPolicy; tb_state := ∅ |}
         0 "k" 500)
  = snd (TokenBucketLimiter_GetQuota
           {| tb_cfg := defaultPolicy; tb_state := ∅ |} 0 "k").
Proof.
  apply (TokenBucket_denied_is_a_reading
           {| tb_cfg := defaultPolicy; tb_state := ∅ |} 0 "k" 500).
  vm_compute. reflexivity.
Defined.

(** ** Sliding window: further properties *)

Lemma limit_of_in_range (cfg : Config) :
  Config_typed cfg → 0 < limit_of cfg <= max_int64.
Proof.
  intros (Hl & _). split; [apply limit_of_pos|].
  unfold limit_of, in_range, max_int64 in *.
  destruct (Z.leb_spec (Limit cfg) 0); lia.
Qed.

Lemma validRequests_idem (windowStart : Time) (reqs : list Time) :
  validRequests windowStart (validRequests windowStart reqs)
  = validRequests windowStart reqs.
Proof.
  unfold validRequests. induction reqs as [|t l IH]; [reflexivity|].
  cbn [List.filter]. destruct (After t windowStart) eqn:E.
  - cbn [List.filter]. rewrite E, IH. reflexivity.
  - exact IH.
Qed.

Lemma validRequests_expired (windowStart : Time) (reqs : list Time) :
  List.Forall (λ t, t <= windowStart) reqs → validRequests windowStart reqs = [].
Proof.
  unfold validRequests, After. induction 1 as [|t l Ht _ IH]; [reflexivity|].
  cbn [List.filter]. destruct (Z.ltb_spec windowStart t); [lia|]. exact IH.
Qed.

(** X10. The limit is a ceiling of every window. If no window holds
    more events than the limit, none does after [Allow], for a cost that
    is not negative and small enough for [currentCount + cost] not to
    overflow; nor after [GetQuota]. *)
Theorem SlidingWindow_within_limit (s : SlidingWindowLimiter) (now : Time)
    (key : string) (cost : Z) :
  within_limit s →
  0 <= cost →
  limit_of (sw_cfg s) + cost <= max_int64 →
  within_limit (snd (SlidingWindowLimiter_Allow s now key cost))
  ∧ within_limit (snd (SlidingWindowLimiter_GetQuota s now key)).
Proof.
  intros Hok Hc Hmax.
  pose proof (limit_of_pos (sw_cfg s)) as Hpos.
  assert (Hcount : ∀ ws,
    Z.of_nat (length (validRequests ws (requests (window_at (sw_windows s) key))))
    <= limit_of (sw_cfg s)).
  { intros ws. pose proof (validRequests_length ws
                             (requests (window_at (sw_windows s) key))) as Hl.
    unfold window_at in *. destruct (sw_windows s !! key) as [w|] eqn:E.
    - specialize (Hok key w E). lia.
    - simpl in *. lia. }
  split.
  - unfold SlidingWindowLimiter_Allow.
    set (reqs := validRequests _ _).
    assert (Hr : Z.of_nat (length reqs) <= limit_of (sw_cfg s)) by apply Hcount.
    clearbody reqs.
    rewrite wrap64_in_range
      by (unfold in_range, min_int64, max_int64 in *; lia).
    destruct (Z.ltb_spec (limit_of (sw_cfg s)) (Z.of_nat (length reqs) + cost));
      intros k w; cbn [snd sw_windows sw_cfg];
      (destruct (decide (key = k)) as [->|Hk];
       [rewrite lookup_insert_eq; intros [= <-]; cbn [requests]
       |rewrite lookup_insert_ne by exact Hk; apply Hok]).
    + exact Hr.
    + rewrite length_app, length_replicate. lia.
  - unfold SlidingWindowLimiter_GetQuota.
    destruct (sw_windows s !! key) as [w0|] eqn:E; [|exact Hok].
    intros k w; cbn [snd sw_windows sw_cfg].
    destruct (decide (key = k)) as [->|Hk].
    + rewrite lookup_insert_eq. intros [= <-]. cbn [requests].
      specialize (Hcount (Add now (- window_of (sw_cfg s)))).
      unfold window_at in Hcount. rewrite E in Hcount. exact Hcount.
    + rewrite lookup_insert_ne by exact Hk. apply Hok.
Qed.

Lemma SlidingWindow_within_limit_witness :
  within_limit
    (snd (SlidingWindowLimiter_Allow
            {| sw_cfg := defaultPolicy; sw_windows := ∅ |} 0 "k" 3))
  ∧ within_limit
      (snd (SlidingWindowLimiter_GetQuota
              {| sw_cfg := defaultPolicy; sw_windows := ∅ |} 0 "k")).
Proof.
  apply (SlidingWindow_within_limit
           {| sw_cfg := defaultPolicy; sw_windows := ∅ |} 0 "k" 3).
  - intros k w E. cbn [sw_windows] in E. rewrite lookup_empty in E. discriminate.
  - lia.
  - vm_compute. discriminate.
Defined.

(** X11. A quota reading just before a decision, at the same clock
    reading, changes nothing: [Allow] after [GetQuota] returns what
    [Allow] alone returns and leaves the engine in the same state. *)
Theorem SlidingWindow_quota_then_allow (s : SlidingWindowLimiter) (now : Time)
    (key : string) (cost : Z) :
  SlidingWindowLimiter_Allow
    (snd (SlidingWindowLimiter_GetQuota s now key)) now key cost
  = SlidingWindowLimiter_Allow s now key cost.
Proof.
  unfold SlidingWindowLimiter_GetQuota.
  destruct (sw_windows s !! key) as [w|] eqn:E; [|reflexivity].
  cbn [snd]. unfold SlidingWindowLimiter_Allow. cbn [sw_cfg sw_windows].
  unfold window_at. rewrite lookup_insert_eq, E. cbn [requests].
  rewrite validRequests_idem, !insert_insert_eq. reflexivity.
Qed.

(** X12. Expired events do not count. When every event stored for the
    key is at or before the start of the window, a request of a cost
    between 0 and the limit is allowed with [limit - cost] remaining,
    and the window then holds the events of this request only. *)
Theorem SlidingWindow_expired_is_fresh (s : SlidingWindowLimiter) (now : Time)
    (key : string) (cost : Z) :
  Config_typed (sw_cfg s) →
  0 <= cost <= limit_of (sw_cfg s) →
  (∀ w, sw_windows s !! key = Some w →
        List.Forall (λ t, t <= Add now (- window_of (sw_cfg s))) (requests w)) →
  fst (SlidingWindowLimiter_Allow s now key cost)
  = (Some {| Allowed := true;
             Remaining := limit_of (sw_cfg s) - cost;
             Limit_ := limit_of (sw_cfg s);
             ResetTime := Add now (window_of (sw_cfg s));
             RetryAfterSeconds := 0 |}, None)
  ∧ sw_windows (snd (SlidingWindowLimiter_Allow s now key cost)) !! key
    = Some {| requests := replicate (Z.to_nat cost) now |}.
Proof.
  intros Hty Hc Hexp.
  pose proof (limit_of_in_range (sw_cfg s) Hty) as Hl.
  unfold SlidingWindowLimiter_Allow.
  assert (E : validRequests (Add now (- window_of (sw_cfg s)))
                (requests (window_at (sw_windows s) key)) = []).
  { apply validRequests_expired. unfold window_at.
    destruct (sw_windows s !! key) as [w|] eqn:E; [apply Hexp; reflexivity|].
    constructor. }
  rewrite E. cbn [length]. change (Z.of_nat 0) with 0.
  rewrite Z.add_0_l, Z.sub_0_r.
  rewrite !wrap64_in_range
    by (unfold in_range, min_int64, max_int64 in *; lia).
  destruct (Z.ltb_spec (limit_of (sw_cfg s)) cost); [lia|].
  cbn [fst snd sw_windows]. split; [reflexivity|].
  rewrite lookup_insert_eq. reflexivity.
Qed.

Lemma SlidingWindow_expired_is_fresh_witness :
  fst (SlidingWindowLimiter_Allow
         {| sw_cfg := defaultPolicy;
            sw_windows := {[ "k"%string := {| requests := [0; 5] |} ]} |}
         (Minute + 5) "k" 7)
  = (Some {| Allowed := true;
             Remaining := limit_of defaultPolicy - 7;
             Limit_ := limit_of defaultPolicy;
             ResetTime := Add (Minute + 5) (window_of defaultPolicy);
             RetryAfterSeconds := 0 |}, None)
  ∧ sw_windows
      (snd (SlidingWindowLimiter_Allow
              {| sw_cfg := defaultPolicy;
                 sw_windows := {[ "k"%string := {| requests := [0; 5] |} ]} |}
              (Minute + 5) "k" 7)) !! "k"%string
    = Some {| requests := replicate (Z.to_nat 7) (Minute + 5) |}.
Proof.
  apply (SlidingWindow_expired_is_fresh
           {| sw_cfg := defaultPolicy;
              sw_windows := {[ "k"%string := {| requests := [0; 5] |} ]} |}
           (Minute + 5) "k" 7).
  - repeat split; vm_compute; discriminate.
  - split; vm_compute; discriminate.
  - intros w E. cbn [sw_windows] in E.
    rewrite lookup_singleton_eq in E. injection E as <-.
    repeat constructor; vm_compute; discriminate.
Defined.

(** ** The basic limiter and the token bucket *)

Lemma same_bucket_refill (cfg : Config) (b : tokenBucket) (k : bucket)
    (now : Time) :
  same_bucket b k → same_bucket (refill cfg b now) (bkt_refill cfg k now).
Proof.
  intros [Ht Hl]. unfold same_bucket, refill, bkt_refill, limiter.min, minFloat.
  cbn [tokens lastRefill bkt_tokens bkt_lastRefill].
  rewrite Ht, Hl. split; reflexivity.
Qed.

Lemma same_bucket_at (cfg : Config) (st : gmap string tokenBucket)
    (sb : gmap string bucket) (now : Time) (key : string) :
  same_buckets st sb → same_bucket (bucket_at cfg st now key) (bkt_at cfg sb now key).
Proof.
  intros H. specialize (H key). unfold bucket_at, bkt_at.
  destruct (st !! key), (sb !! key); try contradiction.
  - exact H.
  - split; reflexivity.
Qed.

Lemma tenant_of_nonempty (key : string) : key ≠ ""%string → tenant_of key = key.
Proof.
  intros H. unfold tenant_of. rewrite (eqb_false_of_neq _ _ H). reflexivity.
Qed.

(** X13. The two in-memory token buckets decide alike. On a key that is
    not empty, with the same configuration and the same buckets,
    [basicLimiter.Allow] and [TokenBucketLimiter.Allow] return the same
    decision, remaining count and limit, and leave the same buckets. *)
Theorem basicLimiter_decides_as_TokenBucket (t : TokenBucketLimiter)
    (b : basicLimiter) (now : Time) (key : string) (cost : Z) :
  key ≠ ""%string →
  tb_cfg t = bl_cfg b →
  same_buckets (tb_state t) (bl_state b) →
  ∃ r1 r2,
    fst (TokenBucketLimiter_Allow t now key cost) = (Some r1, None)
    ∧ fst (basicLimiter_Allow b now key cost) = (Some r2, None)
    ∧ Allowed r1 = Allowed r2
    ∧ Remaining r1 = Remaining r2
    ∧ Limit_ r1 = Limit_ r2
    ∧ tb_cfg (snd (TokenBucketLimiter_Allow t now key cost))
      = bl_cfg (snd (basicLimiter_Allow b now key cost))
    ∧ same_buckets (tb_state (snd (TokenBucketLimiter_Allow t now key cost)))
                   (bl_state (snd (basicLimiter_Allow b now key cost))).
Proof.
  intros Hk Hcfg Hst.
  unfold TokenBucketLimiter_Allow, basicLimiter_Allow.
  rewrite (tenant_of_nonempty key Hk), <- Hcfg.
  pose proof (same_bucket_refill (tb_cfg t) _ _ now
                (same_bucket_at (tb_cfg t) _ _ now key Hst)) as [Ht Hl].
  set (x := refill (tb_cfg t) _ now) in *.
  set (y := bkt_refill (tb_cfg t) _ now) in *.
  clearbody x y. destruct x as [xt xl], y as [yt yl].
  cbn [tokens lastRefill bkt_tokens bkt_lastRefill] in *. subst yt yl.
  eexists. eexists. split; [reflexivity|]. split; [reflexivity|].
  cbn [Allowed Remaining Limit_ fst snd tb_cfg bl_cfg tb_state bl_state].
  split; [reflexivity|]. split.
  { destruct (geb xt (of_int cost)); reflexivity. }
  split; [reflexivity|]. split; [reflexivity|].
  intros k. destruct (decide (key = k)) as [<-|Hne].
  - rewrite !lookup_insert_eq.
    destruct (geb xt (of_int cost)); split; reflexivity.
  - rewrite !lookup_insert_ne by exact Hne. apply Hst.
Qed.

Lemma basicLimiter_decides_as_TokenBucket_witness :
  ∃ r1 r2,
    fst (TokenBucketLimiter_Allow
           {| tb_cfg := defaultPolicy; tb_state := ∅ |} 0 "k" 3)
    = (Some r1, None)
    ∧ fst (basicLimiter_Allow
             {| bl_cfg := defaultPolicy; bl_state := ∅ |} 0 "k" 3)
      = (Some r2, None)
    ∧ Allowed r1 = Allowed r2
    ∧ Remaining r1 = Remaining r2
    ∧ Limit_ r1 = Limit_ r2
    ∧ tb_cfg (snd (TokenBucketLimiter_Allow
                     {| tb_cfg := defaultPolicy; tb_state := ∅ |} 0 "k" 3))
      = bl_cfg (snd (basicLimiter_Allow
                       {| bl_cfg := defaultPolicy; bl_state := ∅ |} 0 "k" 3))
    ∧ same_buckets
        (tb_state (snd (TokenBucketLimiter_Allow
                          {| tb_cfg := defaultPolicy; tb_state := ∅ |} 0 "k" 3)))
        (bl_state (snd (basicLimiter_Allow
                          {| bl_cfg := defaultPolicy; bl_state := ∅ |} 0 "k" 3))).
Proof.
  apply (basicLimiter_decides_as_TokenBucket
           {| tb_cfg := defaultPolicy; tb_state := ∅ |}
           {| bl_cfg := defaultPolicy; bl_state := ∅ |} 0 "k" 3).
  - discriminate.
  - reflexivity.
  - intros k. cbn [tb_state bl_state]. rewrite !lookup_empty. exact I.
Defined.

(** ** The gateway: outcomes, counters and buckets *)

Lemma Allow_total (l : Limiter) (now : Time) (key : string) (cost : Z) :
  ∃ r l', Allow l now key cost = ((Some r, None), l').
Proof.
  destruct l as [t|s|b]; cbn [Allow].
  - eexists _, _. reflexivity.
  - unfold SlidingWindowLimiter_Allow.
    destruct (limit_of (sw_cfg s) <? _); eexists _, _; reflexivity.
  - eexists _, _. reflexivity.
Qed.

Lemma parse_cost_pos (costStr : string) (cost : Z) :
  parse_cost costStr = Some cost → 0 < cost.
Proof.
  unfold parse_cost. destruct (String.eqb costStr "").
  - intros [= <-]. lia.
  - destruct (Atoi costStr) as [n|]; [|discriminate].
    destruct (Z.ltb_spec 0 n); [|discriminate]. intros [= <-]. assumption.
Qed.

(** What [handleAllow] does when the engine of the manager exists: it
    rejects the request and leaves the world as it is, or it asks the
    engine once, with a positive cost, and counts the request. *)
Lemma handleAllow_served (s : Server) (w : World) (req : Request)
    (now later : Time) (l : Limiter) :
  heap w !! mgr_limiter (limiterMgr s) = Some l →
  (snd (handleAllow s w req now later) = w
   ∧ (status (fst (handleAllow s w req now later)) = StatusBadRequest
      ∨ status (fst (handleAllow s w req now later)) = StatusUnauthorized))
  ∨ ∃ cost r,
      parse_cost (q_cost req) = Some cost
      ∧ fst (Allow l now (key_of req) cost) = (Some r, None)
      ∧ snd (handleAllow s w req now later)
        = {| heap := <[mgr_limiter (limiterMgr s) :=
                         snd (Allow l now (key_of req) cost)]> (heap w);
             reqTotal := AddUint64 (reqTotal w);
             reqAllowed := if Allowed r then AddUint64 (reqAllowed w)
                           else reqAllowed w;
             reqDenied := if Allowed r then reqDenied w
                          else AddUint64 (reqDenied w);
             store_up := store_up w |}
      ∧ status (fst (handleAllow s w req now later))
        = (if Allowed r then StatusOK else StatusTooManyRequests)
      ∧ (Allowed r = false →
         ∃ retryAfter,
           body (fst (handleAllow s w req now later)) = DeniedBody retryAfter
           ∧ 0 <= retryAfter).
Proof.
  intros Hl. unfold handleAllow, ForTenant, key_of.
  destruct (String.eqb (q_tenant req) ""); [left; split; [|left]; reflexivity|].
  destruct (String.eqb (api_key_of req) "");
    [left; split; [|right]; reflexivity|].
  destruct (negb (valid_key (api_key_of req)));
    [left; split; [|right]; reflexivity|].
  destruct (parse_cost (q_cost req)) as [cost|];
    [|left; split; [|left]; reflexivity].
  right. exists cost. rewrite Hl.
  destruct (Allow_total l now
              (compose_key (q_tenant req) (resource_of req) (api_key_of req))
              cost) as (r & l' & E).
  rewrite E. exists r. cbn [fst snd].
  split; [reflexivity|]. split; [reflexivity|].
  destruct (Allowed r); cbn [negb fst snd status body].
  - repeat split; try reflexivity. discriminate.
  - repeat split; try reflexivity. intros _. eexists. split; [reflexivity|].
    destruct (Z.ltb_spec (to_int64 (Seconds (Sub (ResetTime r) later))) 0); lia.
Qed.

(** The same for [handleQuota]: the world is as it was, or the engine
    was asked once with cost 0; the counters are never touched. *)
Lemma handleQuota_served (s : Server) (w : World) (req : Request)
    (now : Time) (l : Limiter) :
  heap w !! mgr_limiter (limiterMgr s) = Some l →
  (snd (handleQuota s w req now) = w
   ∧ (status (fst (handleQuota s w req now)) = StatusBadRequest
      ∨ status (fst (handleQuota s w req now)) = StatusUnauthorized))
  ∨ ∃ r,
      fst (Allow l now (key_of req) 0) = (Some r, None)
      ∧ snd (handleQuota s w req now)
        = {| heap := <[mgr_limiter (limiterMgr s) :=
                         snd (Allow l now (key_of req) 0)]> (heap w);
             reqTotal := reqTotal w;
             reqAllowed := reqAllowed w;
             reqDenied := reqDenied w;
             store_up := store_up w |}
      ∧ fst (handleQuota s w req now)
        = JSON StatusOK (QuotaBody (Remaining r) (Limit_ r)
                                   (Unix (ResetTime r))).
Proof.
  intros Hl. unfold handleQuota, ForTenant, key_of.
  destruct (String.eqb (q_tenant req) ""); [left; split; [|left]; reflexivity|].
  destruct (String.eqb (api_key_of req) "");
    [left; split; [|right]; reflexivity|].
  destruct (negb (valid_key (api_key_of req)));
    [left; split; [|right]; reflexivity|].
  right. rewrite Hl.
  destruct (Allow_total l now
              (compose_key (q_tenant req) (resource_of req) (api_key_of req))
              0) as (r & l' & E).
  rewrite E. exists r. cbn [fst snd]. repeat split; reflexivity.
Qed.

(** X14. The outcomes of [/allow] when the engine exists. A request is
    answered 400 or 401 and changes nothing, or it is counted once: as
    allowed with status 200, or as denied with status 429 and a
    retry-after that is not negative. *)
Theorem handleAllow_outcome (s : Server) (w : World) (req : Request)
    (now later : Time) (l : Limiter) :
  heap w !! mgr_limiter (limiterMgr s) = Some l →
  (snd (handleAllow s w req now later) = w
   ∧ (status (fst (handleAllow s w req now later)) = StatusBadRequest
      ∨ status (fst (handleAllow s w req now later)) = StatusUnauthorized))
  ∨ (status (fst (handleAllow s w req now later)) = StatusOK
     ∧ reqTotal (snd (handleAllow s w req now later)) = AddUint64 (reqTotal w)
     ∧ reqAllowed (snd (handleAllow s w req now later))
       = AddUint64 (reqAllowed w)
     ∧ reqDenied (snd (handleAllow s w req now later)) = reqDenied w)
  ∨ (status (fst (handleAllow s w req now later)) = StatusTooManyRequests
     ∧ reqTotal (snd (handleAllow s w req now later)) = AddUint64 (reqTotal w)
     ∧ reqAllowed (snd (handleAllow s w req now later)) = reqAllowed w
     ∧ reqDenied (snd (handleAllow s w req now later))
       = AddUint64 (reqDenied w)
     ∧ ∃ retryAfter,
         body (fst (handleAllow s w req now later)) = DeniedBody retryAfter
         ∧ 0 <= retryAfter).
Proof.
  intros Hl.
  destruct (handleAllow_served s w req now later l Hl)
    as [H|(cost & r & _ & _ & Hw & Hs & Hd)]; [left; exact H|].
  right. rewrite Hw, Hs. cbn [reqTotal reqAllowed reqDenied].
  destruct (Allowed r).
  - left. repeat split; reflexivity.
  - right. repeat split; try reflexivity. apply Hd. reflexivity.
Qed.

(** X15. [/quota] only reads: it never touches the request counters nor
    the reachability of the store, and never answers 429. *)
Theorem handleQuota_counts_nothing (s : Server) (w : World) (req : Request)
    (now : Time) :
  reqTotal (snd (handleQuota s w req now)) = reqTotal w
  ∧ reqAllowed (snd (handleQuota s w req now)) = reqAllowed w
  ∧ reqDenied (snd (handleQuota s w req now)) = reqDenied w
  ∧ store_up (snd (handleQuota s w req now)) = store_up w
  ∧ status (fst (handleQuota s w req now)) ≠ StatusTooManyRequests.
Proof.
  unfold handleQuota.
  repeat (match goal with
          | |- context [if ?b then _ else _] => destruct b
          end; cbn [fst snd]; try (repeat split; (reflexivity || discriminate))).
  destruct (heap w !! _) as [l|];
    [|repeat split; (reflexivity || discriminate)].
  destruct (Allow l now _ 0) as [[res err] l'].
  destruct err; [repeat split; (reflexivity || discriminate)|].
  destruct res; repeat split; (reflexivity || discriminate).
Qed.

Lemma handleAllow_outcome_witness :
  (snd (handleAllow fast_server fast_world (request "A" "test-key" "" "3") 0 0)
   = fast_world
   ∧ (status (fst (handleAllow fast_server fast_world
                     (request "A" "test-key" "" "3") 0 0)) = StatusBadRequest
      ∨ status (fst (handleAllow fast_server fast_world
                       (request "A" "test-key" "" "3") 0 0))
        = StatusUnauthorized))
  ∨ (status (fst (handleAllow fast_server fast_world
                    (request "A" "test-key" "" "3") 0 0)) = StatusOK
     ∧ reqTotal (snd (handleAllow fast_server fast_world
                        (request "A" "test-key" "" "3") 0 0))
       = AddUint64 (reqTotal fast_world)
     ∧ reqAllowed (snd (handleAllow fast_server fast_world
                          (request "A" "test-key" "" "3") 0 0))
       = AddUint64 (reqAllowed fast_world)
     ∧ reqDenied (snd (handleAllow fast_server fast_world
                         (request "A" "test-key" "" "3") 0 0))
       = reqDenied fast_world)
  ∨ (status (fst (handleAllow fast_server fast_world
                    (request "A" "test-key" "" "3") 0 0))
     = StatusTooManyRequests
     ∧ reqTotal (snd (handleAllow fast_server fast_world
                        (request "A" "test-key" "" "3") 0 0))
       = AddUint64 (reqTotal fast_world)
     ∧ reqAllowed (snd (handleAllow fast_server fast_world
                          (request "A" "test-key" "" "3") 0 0))
       = reqAllowed fast_world
     ∧ reqDenied (snd (handleAllow fast_server fast_world
                         (request "A" "test-key" "" "3") 0 0))
       = AddUint64 (reqDenied fast_world)
     ∧ ∃ retryAfter,
         body (fst (handleAllow fast_server fast_world
                      (request "A" "test-key" "" "3") 0 0))
         = DeniedBody retryAfter
         ∧ 0 <= retryAfter).
Proof.
  apply (handleAllow_outcome fast_server fast_world
           (request "A" "test-key" "" "3") 0 0
           (TokenBucket {| tb_cfg := defaultPolicy; tb_state := ∅ |})).
  vm_compute. reflexivity.
Defined.

(** *** Sequences of calls *)

Lemma Allow_TokenBucket (t : TokenBucketLimiter) (now : Time) (key : string)
    (cost : Z) :
  snd (Allow (TokenBucket t) now key cost)
  = TokenBucket (snd (tb_step t now (OpAllow key cost))).
Proof. reflexivity. Qed.

Lemma gateway_ok_engine (s : Server) (w : World) (now : Time)
    (t : TokenBucketLimiter) (key : string) (cost : Z) (h : gmap nat Limiter)
    (a b c : Z) (up : bool) :
  tb_cfg t = defaultPolicy → tb_ok t now → 0 <= cost →
  gateway_ok s
    {| heap := <[mgr_limiter (limiterMgr s) :=
                   snd (Allow (TokenBucket t) now key cost)]> h;
       reqTotal := a; reqAllowed := b; reqDenied := c; store_up := up |} now.
Proof.
  intros Hcfg Hok Hc. rewrite Allow_TokenBucket.
  exists (snd (tb_step t now (OpAllow key cost))). cbn [heap].
  split; [apply lookup_insert_eq|]. split.
  - rewrite tb_step_cfg. exact Hcfg.
  - apply (tb_step_ok t now (OpAllow key cost) Hok Hc).
Qed.

Lemma serve_ok (s : Server) (w : World) (c : call) (now0 : Time) :
  gateway_ok s w now0 → now0 <= call_time c →
  gateway_ok s (snd (serve s w c)) (call_time c).
Proof.
  intros (t & Hl & Hcfg & Hok) Hle.
  pose proof (tb_ok_mono t now0 (call_time c) Hle Hok) as Hok'.
  destruct c as [req now later|req now]; cbn [serve call_time] in *.
  - destruct (handleAllow_served s w req now later _ Hl)
      as [[Hw _]|(cost & r & Hp & _ & Hw & _)]; rewrite Hw.
    + exists t. auto.
    + apply gateway_ok_engine; auto.
      pose proof (parse_cost_pos _ _ Hp). lia.
  - destruct (handleQuota_served s w req now _ Hl)
      as [[Hw _]|(r & _ & Hw & _)]; rewrite Hw.
    + exists t. auto.
    + apply gateway_ok_engine; auto. lia.
Qed.

Lemma serve_all_ok (s : Server) (cs : list call) :
  ∀ (w : World) (now0 : Time),
  gateway_ok s w now0 → calls_monotone now0 cs →
  gateway_ok s (serve_all s w cs) (last_call now0 cs).
Proof.
  induction cs as [|c cs IH]; intros w now0 Hok Hm; [exact Hok|].
  destruct Hm as [Hle Hm]. cbn [serve_all last_call].
  apply IH; [|exact Hm]. apply (serve_ok s w c now0 Hok Hle).
Qed.

Lemma NewServer_ok (cfg : GatewayConfig) (w0 : World) (s : Server) (w : World)
    (now : Time) :
  NewServer cfg w0 = ((Some s, None), w) →
  gateway_ok s w now
  ∧ reqTotal w = reqTotal w0 ∧ reqAllowed w = reqAllowed w0
  ∧ reqDenied w = reqDenied w0.
Proof.
  intros E. destruct (NewServer_engine cfg w0) as (s' & w' & E' & _ & Hl).
  rewrite E in E'. injection E' as <- <-.
  split.
  - eexists. split; [exact Hl|]. split; [reflexivity|].
    intros key b Hb. cbn [tb_state] in Hb. rewrite lookup_empty in Hb.
    discriminate.
  - unfold NewServer in E.
    destruct (String.eqb (ConsistencyMode cfg) "strong"); cbn in E;
      injection E as _ <-; repeat split; reflexivity.
Qed.

(** X16. The buckets of the gateway stay within bounds. In a gateway
    built by [NewServer], after any sequence of [/allow] and [/quota]
    calls served at clock readings that do not run backwards, every
    bucket of the engine holds between 0 and 100 tokens (the burst of
    the default policy) and is stamped no later than the last reading. *)
Theorem gateway_buckets_within_burst (cfg : GatewayConfig) (w0 : World)
    (s : Server) (w : World) (now0 : Time) (cs : list call) (key : string) :
  NewServer cfg w0 = ((Some s, None), w) →
  calls_monotone now0 cs →
  bucket_within 100 (last_call now0 cs)
                (gateway_bucket s (serve_all s w cs) key).
Proof.
  intros E Hm.
  destruct (NewServer_ok cfg w0 s w now0 E) as [Hok _].
  destruct (serve_all_ok s cs w now0 Hok Hm) as (t & Hl & Hcfg & Ht).
  unfold gateway_bucket. rewrite Hl. cbn [bucket_of].
  destruct (tb_state t !! key) as [b|] eqn:Hb; [|exact I].
  destruct (Ht key b Hb) as [[H0 H1] H2]. rewrite Hcfg in H1.
  repeat split; assumption.
Qed.

Lemma gateway_buckets_within_burst_witness :
  bucket_within 100
    (last_call 0 [CallAllow (request "A" "test-key" "" "3") 0 0;
                  CallQuota (request "A" "test-key" "" "") 5;
                  CallAllow (request "A" "test-key" "" "200") 7 7])
    (gateway_bucket fast_server
       (serve_all fast_server fast_world
          [CallAllow (request "A" "test-key" "" "3") 0 0;
           CallQuota (request "A" "test-key" "" "") 5;
           CallAllow (request "A" "test-key" "" "200") 7 7])
       "A:default:test-key").
Proof.
  apply (gateway_buckets_within_burst (mkGatewayConfig "fast") (world0 true)
           fast_server fast_world 0).
  - vm_compute. reflexivity.
  - simpl. lia.
Defined.

Lemma serve_engine (s : Server) (w : World) (c : call) :
  is_Some (heap w !! mgr_limiter (limiterMgr s)) →
  is_Some (heap (snd (serve s w c)) !! mgr_limiter (limiterMgr s)).
Proof.
  intros [l Hl].
  destruct c as [req now later|req now]; cbn [serve].
  - destruct (handleAllow_served s w req now later _ Hl)
      as [[Hw _]|(cost & r & _ & _ & Hw & _)]; rewrite Hw.
    + exists l. exact Hl.
    + cbn [heap]. rewrite lookup_insert_eq. eexists. reflexivity.
  - destruct (handleQuota_served s w req now _ Hl)
      as [[Hw _]|(r & _ & Hw & _)]; rewrite Hw.
    + exists l. exact Hl.
    + cbn [heap]. rewrite lookup_insert_eq. eexists. reflexivity.
Qed.

Lemma serve_counters (s : Server) (w : World) (c : call) :
  is_Some (heap w !! mgr_limiter (limiterMgr s)) → counters_add_up w →
  counters_add_up (snd (serve s w c)).
Proof.
  intros [l Hl] Hc. unfold counters_add_up in *.
  destruct c as [req now later|req now]; cbn [serve].
  - destruct (handleAllow_served s w req now later _ Hl)
      as [[Hw _]|(cost & r & _ & _ & Hw & _)]; rewrite Hw; [exact Hc|].
    cbn [reqTotal reqAllowed reqDenied]. unfold AddUint64.
    rewrite Z.mod_mod by lia.
    destruct (Allowed r).
    + rewrite Z.add_mod_idemp_l by lia.
      replace (reqAllowed w + 1 + reqDenied w)
        with (reqAllowed w + reqDenied w + 1) by lia.
      rewrite <- Z.add_mod_idemp_l by lia. rewrite Hc.
      rewrite Z.add_mod_idemp_l by lia. reflexivity.
    + rewrite Z.add_mod_idemp_r by lia.
      replace (reqAllowed w + (reqDenied w + 1))
        with (reqAllowed w + reqDenied w + 1) by lia.
      rewrite <- Z.add_mod_idemp_l by lia. rewrite Hc.
      rewrite Z.add_mod_idemp_l by lia. reflexivity.
  - destruct (handleQuota_served s w req now _ Hl)
      as [[Hw _]|(r & _ & Hw & _)]; rewrite Hw; exact Hc.
Qed.

Lemma serve_all_counters (s : Server) (cs : list call) :
  ∀ (w : World),
  is_Some (heap w !! mgr_limiter (limiterMgr s)) → counters_add_up w →
  counters_add_up (serve_all s w cs).
Proof.
  induction cs as [|c cs IH]; intros w Hl Hc; [exact Hc|].
  cbn [serve_all]. apply IH.
  - apply (serve_engine s w c Hl).
  - apply (serve_counters s w c Hl Hc).
Qed.

(** X17. The counters add up. In a gateway built by [NewServer] on
    counters that add up, after any sequence of calls the requests
    counted in total are those counted as allowed plus those counted as
    denied, modulo [2 ^ 64]. *)
Theorem gateway_counters_add_up (cfg : GatewayConfig) (w0 : World)
    (s : Server) (w : World) (cs : list call) :
  NewServer cfg w0 = ((Some s, None), w) →
  counters_add_up w0 →
  counters_add_up (serve_all s w cs).
Proof.
  intros E Hc.
  destruct (NewServer_ok cfg w0 s w 0 E) as ((t & Hl & _) & H1 & H2 & H3).
  apply (serve_all_counters s cs w).
  - exists (TokenBucket t). exact Hl.
  - unfold counters_add_up in *. rewrite H1, H2, H3. exact Hc.
Qed.

Lemma gateway_counters_add_up_witness :
  counters_add_up
    (serve_all fast_server fast_world
       [CallAllow (request "A" "test-key" "" "3") 0 0;
        CallAllow (request "A" "bad-key" "" "") 1 1;
        CallAllow (request "A" "test-key" "" "200") 2 2;
        CallQuota (request "A" "test-key" "" "") 1]).
Proof.
  apply (gateway_counters_add_up (mkGatewayConfig "fast") (world0 true)
           fast_server fast_world).
  - vm_compute. reflexivity.
  - vm_compute. reflexivity.
Defined.

(** ** The scripted sliding window *)

Lemma foldl_zadd_lookup (now : Z) (l : list Z) :
  ∀ (m : gmap store.member Z) (k : store.member),
  foldl (λ m i, <[(now, i) := now]> m) m l !! k
  = if decide (k.1 = now ∧ k.2 ∈ l) then Some now else m !! k.
Proof.
  induction l as [|i l IH]; intros m k; cbn [foldl].
  - destruct (decide _) as [[_ H]|_]; [|reflexivity].
    apply elem_of_nil in H. contradiction.
  - rewrite IH. destruct k as [a j]. cbn [fst snd].
    destruct (decide (a = now ∧ j ∈ l)) as [[Ha Hj]|Hn].
    + rewrite decide_True; [reflexivity|]. split; [exact Ha|].
      apply elem_of_cons. right. exact Hj.
    + destruct (decide ((now, i) = (a, j))) as [E|Hne].
      * injection E as <- <-. rewrite lookup_insert_eq.
        rewrite decide_True; [reflexivity|]. split; [reflexivity|].
        apply elem_of_cons. left. reflexivity.
      * rewrite lookup_insert_ne by exact Hne.
        rewrite decide_False; [reflexivity|]. intros [Ha Hj].
        apply elem_of_cons in Hj as [->|Hj]; [subst; contradiction|].
        apply Hn. split; assumption.
Qed.

Lemma foldl_zadd_size (now : Z) (l : list Z) :
  ∀ (m : gmap store.member Z),
  (size (foldl (λ m i, <[(now, i) := now]> m) m l) <= size m + length l)%nat.
Proof.
  induction l as [|i l IH]; intros m; simpl.
  - apply Nat.le_add_r.
  - specialize (IH (<[(now, i) := now]> m)).
    rewrite map_size_insert in IH.
    match type of IH with
    | context [match ?x with _ => _ end] => destruct x
    end; unfold id in IH.
    + eapply Nat.le_trans; [exact IH|].
      apply Nat.add_le_mono_l, Nat.le_succ_diag_r.
    + rewrite Nat.add_succ_r. exact IH.
Qed.

(** The members of the key after the loop of [ZADD]s. *)
Lemma zadd_loop_members (key : string) (now : Z) (l : list Z) :
  ∀ (db : gmap string store.zset),
  store.zmembers (foldl (λ db i, store.ZADD db key now (now, i)) db l) key
  = foldl (λ m i, <[(now, i) := now]> m) (store.zmembers db key) l.
Proof.
  induction l as [|i l IH]; intros db; cbn [foldl]; [reflexivity|].
  rewrite IH. f_equal. unfold store.ZADD, store.zmembers at 1.
  rewrite lookup_insert_eq. reflexivity.
Qed.

Lemma zadd_loop_lookup (key : string) (now cost : Z)
    (db : gmap string store.zset) (k : store.member) :
  store.zmembers
    (foldl (λ db i, store.ZADD db key now (now, i)) db (seqZ 1 cost)) key !! k
  = if decide (k.1 = now ∧ 1 <= k.2 <= cost) then Some now
    else store.zmembers db key !! k.
Proof.
  rewrite zadd_loop_members, foldl_zadd_lookup.
  destruct (decide (k.1 = now ∧ k.2 ∈ seqZ 1 cost)) as [[H1 H2]|Hn].
  - apply elem_of_seqZ in H2. rewrite decide_True; [reflexivity|].
    split; [exact H1|lia].
  - rewrite decide_False; [reflexivity|]. intros [H1 H2]. apply Hn.
    split; [exact H1|]. apply elem_of_seqZ. lia.
Qed.

Lemma zadd_loop_card (key : string) (now cost : Z)
    (db : gmap string store.zset) :
  0 <= cost →
  store.ZCARD
    (foldl (λ db i, store.ZADD db key now (now, i)) db (seqZ 1 cost)) key
  <= store.ZCARD db key + cost.
Proof.
  intros Hc. unfold store.ZCARD. rewrite zadd_loop_members.
  pose proof (foldl_zadd_size now (seqZ 1 cost) (store.zmembers db key)) as H.
  rewrite length_seqZ in H. lia.
Qed.

Lemma ZREMRANGEBYSCORE_card (db : gmap string store.zset) (key : string)
    (lo hi : Z) :
  store.ZCARD (store.ZREMRANGEBYSCORE db key lo hi) key <= store.ZCARD db key.
Proof.
  unfold store.ZCARD, store.ZREMRANGEBYSCORE, store.zmembers.
  destruct (db !! key) as [z|] eqn:E; [|rewrite E; lia].
  cbn zeta. destruct (decide _) as [He|Hne].
  - rewrite lookup_delete_eq. rewrite map_size_empty. lia.
  - rewrite lookup_insert_eq. cbn [store.z_scores].
    apply Nat2Z.inj_le, map_subseteq_size, map_filter_subseteq.
Qed.

Lemma EXPIRE_card (db : gmap string store.zset) (key : string) (seconds : Z) :
  store.ZCARD (store.EXPIRE db key seconds) key <= store.ZCARD db key.
Proof.
  unfold store.ZCARD, store.EXPIRE, store.zmembers.
  destruct (db !! key) as [z|] eqn:E; [|rewrite E; lia].
  destruct (seconds <=? 0).
  - rewrite lookup_delete_eq, map_size_empty. lia.
  - rewrite lookup_insert_eq. cbn [store.z_scores]. lia.
Qed.

(** X18. The limit is a ceiling of the sorted set. After a call of a
    cost that is not negative, the key holds at most [limit] members
    when the call was allowed, and no more than before when it was
    denied. *)
Theorem sliding_window_script_within_limit (db : gmap string store.zset)
    (key : string) (now limit window cost : Z) :
  0 <= cost →
  (store.sliding_window_script db key now limit window cost).1.1.1 = 1
  ∧ store.ZCARD (store.sliding_window_script db key now limit window cost).2
                key <= limit
  ∨ (store.sliding_window_script db key now limit window cost).1.1.1 = 0
    ∧ store.ZCARD (store.sliding_window_script db key now limit window cost).2
                  key <= store.ZCARD db key.
Proof.
  intros Hc. unfold store.sliding_window_script.
  pose proof (ZREMRANGEBYSCORE_card db key 0 (now - window * 1000)) as Hrem.
  set (db1 := store.ZREMRANGEBYSCORE db key 0 (now - window * 1000)) in *.
  clearbody db1.
  destruct (Z.leb_spec (store.ZCARD db1 key + cost) limit) as [Hle|Hgt];
    cbn [fst snd].
  - left. split; [reflexivity|].
    pose proof (zadd_loop_card key now cost db1 Hc) as Ha.
    pose proof (EXPIRE_card
                  (foldl (λ db i, store.ZADD db key now (now, i)) db1
                         (seqZ 1 cost)) key window) as He.
    lia.
  - right. split; [reflexivity|]. exact Hrem.
Qed.

Lemma sliding_window_script_within_limit_witness :
  (store.sliding_window_script ∅ "k" 1000000 5 60 2).1.1.1 = 1
  ∧ store.ZCARD (store.sliding_window_script ∅ "k" 1000000 5 60 2).2 "k" <= 5
  ∨ (store.sliding_window_script ∅ "k" 1000000 5 60 2).1.1.1 = 0
    ∧ store.ZCARD (store.sliding_window_script ∅ "k" 1000000 5 60 2).2 "k"
      <= store.ZCARD ∅ "k".
Proof.
  apply (sliding_window_script_within_limit ∅ "k" 1000000 5 60 2). lia.
Defined.

Lemma ZREMRANGEBYSCORE_members (db : gmap string store.zset) (key : string)
    (lo hi : Z) :
  store.zmembers (store.ZREMRANGEBYSCORE db key lo hi) key
  = filter (λ kv, ¬ (lo <= kv.2 <= hi)) (store.zmembers db key).
Proof.
  unfold store.ZREMRANGEBYSCORE, store.zmembers.
  destruct (db !! key) as [z|] eqn:E.
  - cbn zeta. destruct (decide _) as [He|Hne].
    + rewrite lookup_delete_eq, He. reflexivity.
    + rewrite lookup_insert_eq. reflexivity.
  - rewrite E. symmetry. apply map_filter_empty.
Qed.

Lemma ZREMRANGEBYSCORE_nonempty (db : gmap string store.zset) (key : string)
    (lo hi : Z) (z : store.zset) :
  store.ZREMRANGEBYSCORE db key lo hi !! key = Some z → store.z_scores z ≠ ∅.
Proof.
  unfold store.ZREMRANGEBYSCORE.
  destruct (db !! key) as [z0|] eqn:E; [|rewrite E; discriminate].
  cbn zeta. destruct (decide _) as [He|Hne].
  - rewrite lookup_delete_eq. discriminate.
  - rewrite lookup_insert_eq. intros [= <-]. exact Hne.
Qed.

Lemma zset_eta (z : store.zset) :
  {| store.z_scores := store.z_scores z; store.z_expire := store.z_expire z |}
  = z.
Proof. destruct z. reflexivity. Qed.

(** Nothing is removed from a key whose scores are all out of the
    range. *)
Lemma ZREMRANGEBYSCORE_id (db : gmap string store.zset) (key : string)
    (lo hi : Z) :
  (∀ z, db !! key = Some z → store.z_scores z ≠ ∅) →
  (∀ k sc, store.zmembers db key !! k = Some sc → ¬ (lo <= sc <= hi)) →
  store.ZREMRANGEBYSCORE db key lo hi = db.
Proof.
  intros Hne Hp. unfold store.ZREMRANGEBYSCORE, store.zmembers in *.
  destruct (db !! key) as [z|] eqn:E; [|reflexivity].
  cbn zeta. rewrite map_filter_id by (intros k sc Hk; exact (Hp k sc Hk)).
  destruct (decide _) as [He|_]; [destruct (Hne z eq_refl He)|].
  rewrite zset_eta. apply insert_id. exact E.
Qed.

(** The loop adds nothing when its members are there with their score. *)
Lemma zadd_loop_id (key : string) (now : Z) (l : list Z)
    (db : gmap string store.zset) :
  (l ≠ [] → is_Some (db !! key)) →
  (∀ i, i ∈ l → store.zmembers db key !! (now, i) = Some now) →
  foldl (λ db i, store.ZADD db key now (now, i)) db l = db.
Proof.
  induction l as [|i l IH]; intros Hs Hl; cbn [foldl]; [reflexivity|].
  destruct Hs as [z E]; [discriminate|].
  assert (Ez : store.ZADD db key now (now, i) = db).
  { unfold store.ZADD. specialize (Hl i ltac:(left)).
    unfold store.zmembers, store.zttl in *. rewrite E in *.
    rewrite (insert_id (store.z_scores z)) by exact Hl.
    rewrite zset_eta. apply insert_id. exact E. }
  rewrite Ez. apply IH.
  - intros _. exists z. exact E.
  - intros j Hj. apply Hl. right. exact Hj.
Qed.

Lemma EXPIRE_members (db : gmap string store.zset) (key : string)
    (seconds : Z) :
  0 < seconds →
  store.zmembers (store.EXPIRE db key seconds) key = store.zmembers db key.
Proof.
  intros Hs. unfold store.EXPIRE, store.zmembers.
  destruct (db !! key) as [z|] eqn:E; [|rewrite E; reflexivity].
  destruct (Z.leb_spec seconds 0); [lia|].
  rewrite lookup_insert_eq. reflexivity.
Qed.

Lemma EXPIRE_lookup (db : gmap string store.zset) (key : string)
    (seconds : Z) :
  0 < seconds →
  store.EXPIRE db key seconds !! key
  = match db !! key with
    | Some z => Some {| store.z_scores := store.z_scores z;
                        store.z_expire := Some seconds |}
    | None => None
    end.
Proof.
  intros Hs. unfold store.EXPIRE.
  destruct (db !! key) as [z|] eqn:E; [|exact E].
  destruct (Z.leb_spec seconds 0); [lia|]. apply lookup_insert_eq.
Qed.

Lemma EXPIRE_id (db : gmap string store.zset) (key : string) (seconds : Z) :
  0 < seconds →
  (∀ z, db !! key = Some z → store.z_expire z = Some seconds) →
  store.EXPIRE db key seconds = db.
Proof.
  intros Hs Hz. unfold store.EXPIRE.
  destruct (db !! key) as [z|] eqn:E; [|reflexivity].
  destruct (Z.leb_spec seconds 0); [lia|].
  rewrite <- (Hz z eq_refl), zset_eta. apply insert_id. exact E.
Qed.

Lemma zmembers_nonempty (db : gmap string store.zset) (key : string)
    (k : store.member) (sc : Z) :
  store.zmembers db key !! k = Some sc → is_Some (db !! key).
Proof.
  unfold store.zmembers. destruct (db !! key) as [z|]; [eauto|].
  rewrite lookup_empty. discriminate.
Qed.

Lemma sliding_window_script_allowed (db : gmap string store.zset)
    (key : string) (now limit window cost : Z) :
  (store.sliding_window_script db key now limit window cost).1.1.1 = 1 →
  (store.sliding_window_script db key now limit window cost).2
  = store.EXPIRE
      (foldl (λ db i, store.ZADD db key now (now, i))
             (store.ZREMRANGEBYSCORE db key 0 (now - window * 1000))
             (seqZ 1 cost)) key window.
Proof.
  unfold store.sliding_window_script.
  destruct (_ <=? limit); [reflexivity|discriminate].
Qed.

(** X19. Requests of the same millisecond are not told apart. After an
    allowed call, a further allowed call for the key with the same
    clock reading and a cost that is not larger adds nothing: it leaves
    the store exactly as it was, so that neither call counts against
    the limit more than once. *)
Theorem sliding_window_script_same_instant (db : gmap string store.zset)
    (key : string) (now limit window cost cost' : Z) :
  0 < window →
  cost' <= cost →
  (store.sliding_window_script db key now limit window cost).1.1.1 = 1 →
  (store.sliding_window_script
     (store.sliding_window_script db key now limit window cost).2
     key now limit window cost').1.1.1 = 1 →
  (store.sliding_window_script
     (store.sliding_window_script db key now limit window cost).2
     key now limit window cost').2
  = (store.sliding_window_script db key now limit window cost).2.
Proof.
  intros Hw Hcost H1.
  rewrite (sliding_window_script_allowed db key now limit window cost H1).
  clear H1. unfold store.sliding_window_script.
  set (ws := now - window * 1000) in *.
  pose proof (ZREMRANGEBYSCORE_members db key 0 ws) as Hm1.
  pose proof (ZREMRANGEBYSCORE_nonempty db key 0 ws) as Hn1.
  set (db1 := store.ZREMRANGEBYSCORE db key 0 ws) in *. clearbody db1.
  pose proof (zadd_loop_lookup key now cost db1) as Hm2.
  assert (Hn2 : ∀ z,
    foldl (λ db i, store.ZADD db key now (now, i)) db1 (seqZ 1 cost) !! key
    = Some z → store.z_scores z ≠ ∅).
  { intros z E He. destruct (Z_lt_le_dec 0 cost) as [Hc|Hc].
    - specialize (Hm2 (now, 1)). cbn [fst snd] in Hm2.
      rewrite decide_True in Hm2 by lia.
      unfold store.zmembers in Hm2. rewrite E, He, lookup_empty in Hm2.
      discriminate.
    - rewrite seqZ_nil in E by exact Hc. cbn [foldl] in E.
      exact (Hn1 z E He). }
  set (db2 := foldl (λ db i, store.ZADD db key now (now, i)) db1
                    (seqZ 1 cost)) in *.
  clearbody db2.
  pose proof (EXPIRE_members db2 key window Hw) as Hm3.
  pose proof (EXPIRE_lookup db2 key window Hw) as Hl3.
  set (db3 := store.EXPIRE db2 key window) in *. clearbody db3.
  (* the members of the key in the store the first call leaves *)
  assert (Hmem : ∀ k, store.zmembers db3 key !! k
                 = if decide (k.1 = now ∧ 1 <= k.2 <= cost) then Some now
                   else filter (λ kv, ¬ (0 <= kv.2 <= ws))
                               (store.zmembers db key) !! k).
  { intros k. rewrite Hm3, Hm2, Hm1. reflexivity. }
  assert (Hout : ∀ k sc, store.zmembers db3 key !! k = Some sc →
                         ¬ (0 <= sc <= ws)).
  { intros k sc. rewrite Hmem. destruct (decide _) as [_|_].
    - intros [= <-]. unfold ws. lia.
    - intros Hk. apply map_lookup_filter_Some in Hk as [_ Hk]. exact Hk. }
  assert (Hne3 : ∀ z, db3 !! key = Some z →
                      store.z_scores z ≠ ∅ ∧ store.z_expire z = Some window).
  { intros z. rewrite Hl3. destruct (db2 !! key) as [z2|] eqn:E2;
      [|discriminate].
    intros [= <-]. cbn [store.z_scores store.z_expire].
    split; [exact (Hn2 z2 eq_refl)|reflexivity]. }
  rewrite (ZREMRANGEBYSCORE_id db3 key 0 ws)
    by (first [intros z E; exact (proj1 (Hne3 z E)) | exact Hout]).
  intros H2.
  destruct (store.ZCARD db3 key + cost' <=? limit); [|discriminate H2].
  cbn [snd].
  rewrite (zadd_loop_id key now (seqZ 1 cost') db3).
  - apply EXPIRE_id; [exact Hw|]. intros z E. exact (proj2 (Hne3 z E)).
  - intros Hl. destruct (Z_lt_le_dec 0 cost') as [Hc|Hc];
      [|rewrite seqZ_nil in Hl by exact Hc; contradiction].
    apply (zmembers_nonempty db3 key (now, 1) now).
    rewrite Hmem. cbn [fst snd]. rewrite decide_True by lia. reflexivity.
  - intros i Hi. apply elem_of_seqZ in Hi.
    rewrite Hmem. cbn [fst snd]. rewrite decide_True by lia. reflexivity.
Qed.

Lemma sliding_window_script_same_instant_witness :
  (store.sliding_window_script
     (store.sliding_window_script ∅ "k" 1000000 5 60 1).2
     "k" 1000000 5 60 1).2
  = (store.sliding_window_script ∅ "k" 1000000 5 60 1).2.
Proof.
  apply (sliding_window_script_same_instant ∅ "k" 1000000 5 60 1 1).
  - lia.
  - lia.
  - vm_compute. reflexivity.
  - vm_compute. reflexivity.
Defined.

(** ** The control plane *)

Section control_properties.

Variable json : Type.
Variable Marshal : control.TenantConfig → option json.
Variable Unmarshal : json → option control.TenantConfig.
Variable ShouldBindJSON : json → option control.TenantConfig.

Abbreviation createTenant := (control.createTenant json Marshal ShouldBindJSON).
Abbreviation getTenant := (control.getTenant json Unmarshal).
Abbreviation updateTenant :=
  (control.updateTenant json Marshal Unmarshal ShouldBindJSON).
Abbreviation deleteTenant := (control.deleteTenant json).
Abbreviation listTenants := (control.listTenants json Unmarshal).

(** X20. What is created can be read back. When the body binds and the
    encoder and the decoder are inverse to each other, [createTenant]
    answers 201 with the configuration it stored, whether or not the
    tenant existed, and [getTenant] then answers 200 with the same
    configuration; it has the identifier of the body, both time stamps
    at [now], and no default left open. *)
Theorem createTenant_then_getTenant (etcd : gmap string json) (now : Time)
    (request : json) (bound : control.TenantConfig) :
  ShouldBindJSON request = Some bound →
  (∀ c, ∃ data, Marshal c = Some data ∧ Unmarshal data = Some c) →
  ∃ tc,
    fst (createTenant etcd true now request)
    = control.JSON json control.StatusCreated (control.TenantBody tc)
    ∧ getTenant (snd (createTenant etcd true now request)) true
                (control.TenantID bound)
      = control.JSON json control.StatusOK (control.TenantBody tc)
    ∧ control.TenantID tc = control.TenantID bound
    ∧ control.Created tc = now ∧ control.Updated tc = now
    ∧ control.Algorithm tc ≠ ""%string ∧ control.Mode tc ≠ ""%string
    ∧ control.Limits tc ≠ None.
Proof.
  intros Hb Hrt. unfold control.createTenant. rewrite Hb.
  match goal with
  | |- context [Marshal ?c] => set (tc := c); destruct (Hrt tc) as (d & Hm & Hu)
  end.
  rewrite Hm. exists tc. cbn [fst snd].
  split; [reflexivity|]. split.
  { unfold control.getTenant. cbn [negb]. subst tc. cbn [control.TenantID].
    rewrite lookup_insert_eq, Hu. reflexivity. }
  subst tc. cbn.
  repeat split.
  - destruct (String.eqb_spec (control.Algorithm bound) ""); [discriminate|].
    assumption.
  - destruct (String.eqb_spec (control.Mode bound) ""); [discriminate|].
    assumption.
  - destruct (control.Limits bound); discriminate.
Qed.

(** X21. An update keeps the identity of the tenant. When the tenant is
    stored and decodes, the body binds and the encoder and the decoder
    are inverse to each other, [updateTenant] answers 200 with a
    configuration that [getTenant] then returns; its identifier and its
    creation time are those stored, whatever the body says, and its
    update time is [now]. *)
Theorem updateTenant_keeps_identity (etcd : gmap string json) (now : Time)
    (tenantID : string) (request value : json)
    (updates old : control.TenantConfig) :
  etcd !! control.tenant_key tenantID = Some value →
  Unmarshal value = Some old →
  ShouldBindJSON request = Some updates →
  (∀ c, ∃ data, Marshal c = Some data ∧ Unmarshal data = Some c) →
  ∃ tc,
    fst (updateTenant etcd true true now tenantID request)
    = control.JSON json control.StatusOK (control.TenantBody tc)
    ∧ getTenant (snd (updateTenant etcd true true now tenantID request)) true
                tenantID
      = control.JSON json control.StatusOK (control.TenantBody tc)
    ∧ control.TenantID tc = control.TenantID old
    ∧ control.Created tc = control.Created old
    ∧ control.Updated tc = now.
Proof.
  intros He Hu Hb Hrt. unfold control.updateTenant.
  rewrite Hb. cbn [negb]. rewrite He, Hu.
  match goal with
  | |- context [Marshal ?c] =>
    set (tc := c); destruct (Hrt tc) as (d & Hm & Hd)
  end.
  rewrite Hm. exists tc. cbn [fst snd].
  split; [reflexivity|]. split.
  { unfold control.getTenant. cbn [negb].
    rewrite lookup_insert_eq, Hd. reflexivity. }
  subst tc. repeat split; reflexivity.
Qed.

(** X22. A handler writes one key. [createTenant], [updateTenant] and
    [deleteTenant] leave every key other than the key of their tenant
    as it was. *)
Theorem control_handlers_write_one_key (etcd : gmap string json)
    (put_ok get_ok delete_ok : bool) (now : Time) (tenantID : string)
    (request : json) (k : string) :
  ((∀ bound, ShouldBindJSON request = Some bound →
             k ≠ control.tenant_key (control.TenantID bound)) →
   snd (createTenant etcd put_ok now request) !! k = etcd !! k)
  ∧ (k ≠ control.tenant_key tenantID →
     snd (updateTenant etcd get_ok put_ok now tenantID request) !! k
     = etcd !! k)
  ∧ (k ≠ control.tenant_key tenantID →
     snd (deleteTenant etcd delete_ok tenantID) !! k = etcd !! k).
Proof.
  split; [|split].
  - intros Hk. unfold control.createTenant.
    destruct (ShouldBindJSON request) as [bound|]; [|reflexivity].
    specialize (Hk bound eq_refl).
    destruct (Marshal _); [|reflexivity].
    destruct put_ok; [|reflexivity].
    cbn [snd control.TenantID]. apply lookup_insert_ne. congruence.
  - intros Hk. unfold control.updateTenant.
    destruct (ShouldBindJSON request); [|reflexivity].
    destruct (negb get_ok); [reflexivity|].
    destruct (etcd !! control.tenant_key tenantID); [|reflexivity].
    destruct (Unmarshal _); [|reflexivity].
    destruct (Marshal _); [|reflexivity].
    destruct put_ok; [|reflexivity].
    cbn [snd]. apply lookup_insert_ne. congruence.
  - intros Hk. unfold control.deleteTenant.
    destruct delete_ok; [|reflexivity].
    cbn [snd]. apply lookup_delete_ne. congruence.
Qed.

(** X23. Deleting is idempotent and never reports a missing tenant.
    With etcd reachable, [deleteTenant] answers 204 whether or not the
    tenant is stored; [getTenant] then answers 404, and deleting again
    changes nothing. *)
Theorem deleteTenant_idempotent (etcd : gmap string json)
    (tenantID : string) :
  fst (deleteTenant etcd true tenantID)
  = control.JSON json control.StatusNoContent control.NoBody
  ∧ getTenant (snd (deleteTenant etcd true tenantID)) true tenantID
    = control.JSON json control.StatusNotFound
                   (control.ErrorBody "tenant not found")
  ∧ snd (deleteTenant (snd (deleteTenant etcd true tenantID)) true tenantID)
    = snd (deleteTenant etcd true tenantID).
Proof.
  unfold control.deleteTenant, control.getTenant. cbn [fst snd negb].
  rewrite lookup_delete_eq. repeat split. apply delete_delete_eq.
Qed.

(** X24. No write without success. A [createTenant] not answered 201,
    an [updateTenant] not answered 200 and a [deleteTenant] not
    answered 204 leave the store as it was. *)
Theorem control_failure_writes_nothing (etcd : gmap string json)
    (put_ok get_ok delete_ok : bool) (now : Time) (tenantID : string)
    (request : json) :
  (control.status (fst (createTenant etcd put_ok now request))
   ≠ control.StatusCreated →
   snd (createTenant etcd put_ok now request) = etcd)
  ∧ (control.status
       (fst (updateTenant etcd get_ok put_ok now tenantID request))
     ≠ control.StatusOK →
     snd (updateTenant etcd get_ok put_ok now tenantID request) = etcd)
  ∧ (control.status (fst (deleteTenant etcd delete_ok tenantID))
     ≠ control.StatusNoContent →
     snd (deleteTenant etcd delete_ok tenantID) = etcd).
Proof.
  split; [|split].
  - unfold control.createTenant.
    destruct (ShouldBindJSON request); [|reflexivity].
    destruct (Marshal _); [|reflexivity].
    destruct put_ok; [|reflexivity].
    cbn [fst snd control.status control.JSON]. intros H. contradiction.
  - unfold control.updateTenant.
    destruct (ShouldBindJSON request); [|reflexivity].
    destruct (negb get_ok); [reflexivity|].
    destruct (etcd !! control.tenant_key tenantID); [|reflexivity].
    destruct (Unmarshal _); [|reflexivity].
    destruct (Marshal _); [|reflexivity].
    destruct put_ok; [|reflexivity].
    cbn [fst snd control.status control.JSON]. intros H. contradiction.
  - unfold control.deleteTenant. destruct delete_ok; [|reflexivity].
    cbn [fst snd control.status control.JSON]. intros H. contradiction.
Qed.

Lemma GetWithPrefix_elem (etcd : gmap string json) (prefix k : string)
    (value : json) :
  (k, value) ∈ control.GetWithPrefix json etcd prefix
  ↔ etcd !! k = Some value ∧ String.prefix prefix k = true.
Proof.
  unfold control.GetWithPrefix.
  rewrite merge_sort_Permutation, elem_of_map_to_list, map_lookup_filter_Some.
  cbn [fst snd]. rewrite Is_true_true. reflexivity.
Qed.

Lemma tenant_key_prefix (tenantID : string) :
  String.prefix "/helios/tenants/" (control.tenant_key tenantID) = true.
Proof. destruct tenantID; reflexivity. Qed.

(** X25. The list is what decodes. With etcd reachable, [listTenants]
    answers 200 with a count equal to the number of tenants listed, and
    the tenants listed are exactly the configurations that values
    stored under the prefix decode to; a value that does not decode is
    left out, without an error. *)
Theorem listTenants_lists_what_decodes (etcd : gmap string json) :
  ∃ tenants,
    listTenants etcd true
    = control.JSON json control.StatusOK
        (control.TenantsBody tenants (Z.of_nat (length tenants)))
    ∧ ∀ tc, tc ∈ tenants ↔
        ∃ k value, etcd !! k = Some value
                   ∧ String.prefix "/helios/tenants/" k = true
                   ∧ Unmarshal value = Some tc.
Proof.
  unfold control.listTenants. cbn [negb]. eexists. split; [reflexivity|].
  intros tc. rewrite list_elem_of_omap. split.
  - intros ([k v] & Hin & Hu). apply GetWithPrefix_elem in Hin as [Hl Hp].
    exists k, v. auto.
  - intros (k & v & Hl & Hp & Hu). exists (k, v). split; [|exact Hu].
    apply GetWithPrefix_elem. auto.
Qed.

(** X26. What is created is listed. When the body binds and the encoder
    and the decoder are inverse to each other, the configuration
    [createTenant] answers with is among those [listTenants] then
    returns. *)
Theorem createTenant_is_listed (etcd : gmap string json) (now : Time)
    (request : json) (bound : control.TenantConfig) :
  ShouldBindJSON request = Some bound →
  (∀ c, ∃ data, Marshal c = Some data ∧ Unmarshal data = Some c) →
  ∃ tc tenants count,
    fst (createTenant etcd true now request)
    = control.JSON json control.StatusCreated (control.TenantBody tc)
    ∧ listTenants (snd (createTenant etcd true now request)) true
      = control.JSON json control.StatusOK
                     (control.TenantsBody tenants count)
    ∧ tc ∈ tenants.
Proof.
  intros Hb Hrt. unfold control.createTenant. rewrite Hb.
  match goal with
  | |- context [Marshal ?c] => destruct (Hrt c) as (d & Hm & Hu); rewrite Hm
  end.
  cbn [fst snd control.TenantID]. unfold control.listTenants. cbn [negb].
  eexists _, _, _. split; [reflexivity|]. split; [reflexivity|].
  apply list_elem_of_omap. exists (control.tenant_key (control.TenantID bound), d).
  split; [|exact Hu]. apply GetWithPrefix_elem.
  split; [apply lookup_insert_eq|apply tenant_key_prefix].
Qed.

End control_properties.

Lemma createTenant_then_getTenant_witness :
  ∃ tc,
    fst (control.createTenant control.TenantConfig Some Some ∅ true 7
           (control.mkTenantConfig "acme" None None "" "" 0 0))
    = control.JSON control.TenantConfig control.StatusCreated
                   (control.TenantBody tc)
    ∧ control.getTenant control.TenantConfig Some
        (snd (control.createTenant control.TenantConfig Some Some ∅ true 7
                (control.mkTenantConfig "acme" None None "" "" 0 0)))
        true
        (control.TenantID (control.mkTenantConfig "acme" None None "" "" 0 0))
      = control.JSON control.TenantConfig control.StatusOK
                     (control.TenantBody tc)
    ∧ control.TenantID tc
      = control.TenantID (control.mkTenantConfig "acme" None None "" "" 0 0)
    ∧ control.Created tc = 7 ∧ control.Updated tc = 7
    ∧ control.Algorithm tc ≠ ""%string ∧ control.Mode tc ≠ ""%string
    ∧ control.Limits tc ≠ None.
Proof.
  apply (createTenant_then_getTenant control.TenantConfig Some Some Some ∅ 7
           (control.mkTenantConfig "acme" None None "" "" 0 0)
           (control.mkTenantConfig "acme" None None "" "" 0 0)).
  - reflexivity.
  - intros c. exists c. split; reflexivity.
Defined.

Lemma updateTenant_keeps_identity_witness :
  ∃ tc,
    fst (control.updateTenant control.TenantConfig Some Some Some
           {[ control.tenant_key "acme"
              := control.mkTenantConfig "acme" None None "token_bucket" "fast"
                                        3 3 ]}
           true true 9 "acme"
           (control.mkTenantConfig "other" None None "" "strong" 0 0))
    = control.JSON control.TenantConfig control.StatusOK
                   (control.TenantBody tc)
    ∧ control.getTenant control.TenantConfig Some
        (snd (control.updateTenant control.TenantConfig Some Some Some
                {[ control.tenant_key "acme"
                   := control.mkTenantConfig "acme" None None "token_bucket"
                                             "fast" 3 3 ]}
                true true 9 "acme"
                (control.mkTenantConfig "other" None None "" "strong" 0 0)))
        true "acme"
      = control.JSON control.TenantConfig control.StatusOK
                     (control.TenantBody tc)
    ∧ control.TenantID tc
      = control.TenantID
          (control.mkTenantConfig "acme" None None "token_bucket" "fast" 3 3)
    ∧ control.Created tc
      = control.Created
          (control.mkTenantConfig "acme" None None "token_bucket" "fast" 3 3)
    ∧ control.Updated tc = 9.
Proof.
  apply (updateTenant_keeps_identity control.TenantConfig Some Some Some
           {[ control.tenant_key "acme"
              := control.mkTenantConfig "acme" None None "token_bucket" "fast"
                                        3 3 ]}
           9 "acme"
           (control.mkTenantConfig "other" None None "" "strong" 0 0)
           (control.mkTenantConfig "acme" None None "token_bucket" "fast" 3 3)
           (control.mkTenantConfig "other" None None "" "strong" 0 0)
           (control.mkTenantConfig "acme" None None "token_bucket" "fast" 3 3)).
  - apply lookup_singleton_eq.
  - reflexivity.
  - reflexivity.
  - intros c. exists c. split; reflexivity.
Defined.

Lemma createTenant_is_listed_witness :
  ∃ tc tenants count,
    fst (control.createTenant control.TenantConfig Some Some ∅ true 7
           (control.mkTenantConfig "acme" None None "" "" 0 0))
    = control.JSON control.TenantConfig control.StatusCreated
                   (control.TenantBody tc)
    ∧ control.listTenants control.TenantConfig Some
        (snd (control.createTenant control.TenantConfig Some Some ∅ true 7
                (control.mkTenantConfig "acme" None None "" "" 0 0)))
        true
      = control.JSON control.TenantConfig control.StatusOK
                     (control.TenantsBody tenants count)
    ∧ tc ∈ tenants.
Proof.
  apply (createTenant_is_listed control.TenantConfig Some Some Some ∅ 7
           (control.mkTenantConfig "acme" None None "" "" 0 0)
           (control.mkTenantConfig "acme" None None "" "" 0 0)).
  - reflexivity.
  - intros c. exists c. split; reflexivity.
Defined.

(** ** The scripted token bucket: the wait of a denial *)

(** X27. A denial of the script always sends the caller at least one
    second ahead. With a positive limit and window, when the script
    denies, the reset time it returns is at least 1000 ms after [now]
    (the wait is rounded up, where the in-memory engine truncates). *)
Theorem token_bucket_script_denial_waits (db : gmap string store.hash)
    (key : string) (now limit window cost burst : Z) :
  0 < limit → 0 < window →
  (store.token_bucket_script db key now limit window cost burst).1.1.1 = 0 →
  now + 1000
  <= (store.token_bucket_script db key now limit window cost burst).1.2.
Proof.
  intros Hl Hw. unfold store.token_bucket_script.
  set (tk := limiter.min _ _). clearbody tk.
  destruct (geb tk (of_int cost)) eqn:E; cbn [fst snd]; [discriminate|].
  intros _. apply geb_false in E.
  set (x := ((of_int cost - tk) * of_int window / of_int limit)%Q).
  assert (Hx : (0 < x)%Q).
  { subst x. apply Qlt_shift_div_l; [apply of_int_pos; exact Hl|].
    rewrite Qmult_0_l.
    apply Qmult_lt_0_compat; [lra|apply of_int_pos; exact Hw]. }
  pose proof (Qle_ceiling x) as Hc.
  assert (H1 : (0 < inject_Z (Qceiling x))%Q) by lra.
  assert (H2 : 0 < Qceiling x).
  { unfold Qlt, inject_Z in H1. simpl in H1. lia. }
  clearbody x. lia.
Qed.

Lemma token_bucket_script_denial_waits_witness :
  0 + 1000 <= (store.token_bucket_script ∅ "k" 0 100 60 500 100).1.2.
Proof.
  apply (token_bucket_script_denial_waits ∅ "k" 0 100 60 500 100).
  - lia.
  - lia.
  - vm_compute. reflexivity.
Defined.

(** ** The defaults of a configuration *)

Lemma limit_of_normalized (cfg : Config) :
  limit_of (normalized cfg) = limit_of cfg.
Proof.
  unfold limit_of at 1. cbn [normalized Limit].
  pose proof (limit_of_pos cfg). destruct (Z.leb_spec (limit_of cfg) 0); [lia|].
  reflexivity.
Qed.

Lemma burst_of_normalized (cfg : Config) :
  burst_of (normalized cfg) = burst_of cfg.
Proof.
  unfold burst_of at 1. cbn [normalized Burst].
  pose proof (burst_of_pos cfg). destruct (Z.leb_spec (burst_of cfg) 0); [lia|].
  reflexivity.
Qed.

Lemma window_of_normalized (cfg : Config) :
  window_of (normalized cfg) = window_of cfg.
Proof.
  unfold window_of at 1. cbn [normalized Window].
  pose proof (window_of_pos cfg).
  destruct (Z.leb_spec (window_of cfg) 0); [lia|]. reflexivity.
Qed.

Lemma refillPerSec_normalized (cfg : Config) :
  refillPerSec (normalized cfg) = refillPerSec cfg.
Proof.
  unfold refillPerSec. rewrite limit_of_normalized, window_of_normalized.
  reflexivity.
Qed.

(** X28. Settings that are not positive mean the defaults. An engine
    configured with [cfg] answers and stores what the engine configured
    with the defaults filled in (limit 100, window one minute, burst
    equal to the limit) answers and stores, for the token bucket and
    for the sliding window. *)
Theorem engines_apply_defaults (cfg : Config) (now : Time) (key : string)
    (cost : Z) (st : gmap string tokenBucket)
    (ws : gmap string slidingWindow) :
  fst (TokenBucketLimiter_Allow {| tb_cfg := cfg; tb_state := st |}
         now key cost)
  = fst (TokenBucketLimiter_Allow
           {| tb_cfg := normalized cfg; tb_state := st |} now key cost)
  ∧ tb_state (snd (TokenBucketLimiter_Allow
                     {| tb_cfg := cfg; tb_state := st |} now key cost))
    = tb_state (snd (TokenBucketLimiter_Allow
                       {| tb_cfg := normalized cfg; tb_state := st |}
                       now key cost))
  ∧ fst (SlidingWindowLimiter_Allow {| sw_cfg := cfg; sw_windows := ws |}
           now key cost)
    = fst (SlidingWindowLimiter_Allow
             {| sw_cfg := normalized cfg; sw_windows := ws |} now key cost)
  ∧ sw_windows (snd (SlidingWindowLimiter_Allow
                       {| sw_cfg := cfg; sw_windows := ws |} now key cost))
    = sw_windows (snd (SlidingWindowLimiter_Allow
                         {| sw_cfg := normalized cfg; sw_windows := ws |}
                         now key cost)).
Proof.
  assert (Hb : ∀ k, bucket_at (normalized cfg) st now k = bucket_at cfg st now k).
  { intros k. unfold bucket_at. rewrite burst_of_normalized. reflexivity. }
  assert (Hr : ∀ b, refill (normalized cfg) b now = refill cfg b now).
  { intros b. unfold refill.
    rewrite burst_of_normalized, refillPerSec_normalized. reflexivity. }
  split; [|split; [|split]].
  - rewrite !Allow_result. cbn [tb_cfg tb_state]. rewrite Hb, Hr.
    unfold tb_result. rewrite limit_of_normalized, refillPerSec_normalized.
    reflexivity.
  - rewrite !Allow_state. cbn [tb_cfg tb_state]. rewrite Hb, Hr. reflexivity.
  - unfold SlidingWindowLimiter_Allow. cbn [sw_cfg sw_windows].
    rewrite limit_of_normalized, window_of_normalized.
    destruct (limit_of cfg <? _); reflexivity.
  - unfold SlidingWindowLimiter_Allow. cbn [sw_cfg sw_windows].
    rewrite limit_of_normalized, window_of_normalized.
    destruct (limit_of cfg <? _); reflexivity.
Qed.
